(** * astropysics.models.modcore: parameter binding, fitting and composition

    A shallow embedding of the parametric-model core of astropysics
    ([src/astropysics/models/modcore.py]) and the properties of it that the
    specification states.

    Conventions of the embedding.
    - A Python object is a record of the attributes the code reads and
      writes; a method is a function in the monad [M], which threads the
      object and keeps its mutations when an exception is raised, as Python
      does.
    - Floating point numbers are modelled by exact rationals [Q]; arrays are
      one-dimensional ([FunctionModel1D] flattens its input), so a shape is
      the singleton tuple of the length.
    - Parameter names are assumed not to clash with the attributes and
      methods the classes define themselves ([f], [params], [lastfit], the
      private slot [_AutoParameter__<name>], ...): parameter storage is a
      map of its own.
    - The numeric engine (scipy.optimize, scipy.stats) is a parameter.
    - The call modes of a model are those of [setCall] without a type; the
      modes with a type, which evaluate through the numeric engine, are not
      modelled.
    - A composite holds its sub-models by value, which is exact for
      sub-models that are distinct objects (lemma [setattr_by_value]); the
      module [Shared] has them by reference. *)

From Stdlib Require Import QArith Qabs String Ascii List ZArith Lia Bool.
From stdpp Require Import gmap strings list fin_maps pretty.

Open Scope string_scope.
Open Scope list_scope.

(** ** Python values, exceptions and the object monad *)

Module Py.

Inductive exn :=
| KeyError | ValueError | TypeError | AttributeError | IndexError
| NameError | SyntaxError | NotImplementedError | RuntimeError
| FloatingPointError | ModelTypeError.

(** The values that flow through parameters, data and fit results. *)
#[warnings="-register-all"]
Inductive pyval :=
| VNum (q : Q)                 (* a Python or numpy scalar *)
| VArr (d : list Q)            (* a numpy array *)
| VTuple (items : list pyval)  (* a tuple or list *)
| VFunc (name : string).       (* a function object, e.g. [np.diff] *)

Inductive result (A : Type) :=
| Ok (a : A)
| Raise (e : exn).
Arguments Ok {A} a.
Arguments Raise {A} e.

(** A method of an object of state [S]: the state after the call is kept
    whether the call returns or raises. *)
Definition M (S A : Type) : Type := S -> result A * S.

Definition ret {S A} (a : A) : M S A := fun s => (Ok a, s).
Definition raise {S A} (e : exn) : M S A := fun s => (Raise e, s).
Definition bind {S A B} (c : M S A) (k : A -> M S B) : M S B :=
  fun s => match c s with
           | (Ok a, s') => k a s'
           | (Raise e, s') => (Raise e, s')
           end.
Definition lift {S A} (r : result A) : M S A := fun s => (r, s).
Definition get {S} : M S S := fun s => (Ok s, s).
Definition modify {S} (g : S -> S) : M S unit := fun s => (Ok tt, g s).

(** [try: c except e: h] *)
Definition try_except {S A} (c : M S A) (e : exn -> bool) (h : M S A) : M S A :=
  fun s => match c s with
           | (Raise e', s') => if e e' then h s' else (Raise e', s')
           | r => r
           end.

(** [for a in l: body(a)] *)
Fixpoint for_each {S A} (l : list A) (body : A -> M S unit) : M S unit :=
  match l with
  | [] => ret tt
  | a :: l' => bind (body a) (fun _ => for_each l' body)
  end.

(** [[body(a) for a in l]] *)
Fixpoint comprehension {S A B} (l : list A) (body : A -> M S B) : M S (list B) :=
  match l with
  | [] => ret []
  | a :: l' => bind (body a) (fun b =>
               bind (comprehension l' body) (fun bs => ret (b :: bs)))
  end.

(** The method [c] relates every state to the state that it leaves. *)
Definition preserves {S A} (R : S -> S -> Prop) (c : M S A) : Prop :=
  forall s, R s (c s).2.

Definition rbind {A B} (r : result A) (k : A -> result B) : result B :=
  match r with Ok a => k a | Raise e => Raise e end.

Definition is_exn (e e' : exn) : bool :=
  match e, e' with
  | KeyError, KeyError | ValueError, ValueError | TypeError, TypeError
  | AttributeError, AttributeError | IndexError, IndexError
  | NameError, NameError | SyntaxError, SyntaxError
  | NotImplementedError, NotImplementedError | RuntimeError, RuntimeError
  | FloatingPointError, FloatingPointError
  | ModelTypeError, ModelTypeError => true
  | _, _ => false
  end.

(** [np.isscalar] *)
Definition isscalar (v : pyval) : bool :=
  match v with VNum _ => true | _ => false end.

(** [zip(a, b)] stops at the shorter argument. *)
Fixpoint zip {A B} (a : list A) (b : list B) : list (A * B) :=
  match a, b with
  | x :: a', y :: b' => (x, y) :: zip a' b'
  | _, _ => []
  end.

(** [dict(pairs)]: a later pair overrides an earlier one. *)
Definition dict {V} (pairs : list (string * V)) : gmap string V :=
  fold_left (fun m kv => <[kv.1 := kv.2]> m) pairs ∅.

(** [s.lower()] on an ASCII string. *)
Definition lower_ascii (c : ascii) : ascii :=
  let n := N_of_ascii c in
  if ((65 <=? n) && (n <=? 90))%N then ascii_of_N (n + 32) else c.

Fixpoint lower (s : string) : string :=
  match s with
  | EmptyString => EmptyString
  | String c s' => String (lower_ascii c) (lower s')
  end.

(** [s.replace(old, new)] for a non-empty [old]: the occurrences of [old]
    are replaced from the left, without overlap. [skip] counts the
    characters of a matched occurrence still to be dropped. *)
Fixpoint replace_from (old new : string) (skip : nat) (s : string) : string :=
  match s with
  | EmptyString => EmptyString
  | String c s' =>
      match skip with
      | S k => replace_from old new k s'
      | O => if String.prefix old s
             then new +:+ replace_from old new (String.length old - 1) s'
             else String c (replace_from old new 0 s')
      end
  end.

Definition replace (old new s : string) : string := replace_from old new 0 s.

(** [sub in s] *)
Fixpoint contains (sub s : string) : bool :=
  String.prefix sub s ||
  match s with
  | EmptyString => false
  | String _ s' => contains sub s'
  end.

End Py.

Export Py.

Declare Scope py_scope.
Delimit Scope py_scope with py.
Notation "x <- c ;; k" := (bind c (fun x => k))
  (at level 100, c at next level, right associativity) : py_scope.
Notation "c ;;; k" := (bind c (fun _ => k))
  (at level 100, right associativity) : py_scope.
Open Scope py_scope.

(** ** The model registry ([register_model], [get_model]) *)

Module Registry.

(** A class object: its name and the names of its proper ancestors. *)
Record pyclass := { cls_name : string; cls_bases : list string }.

Definition issubclass (c : pyclass) (base : string) : bool :=
  bool_decide (base ∈ cls_name c :: cls_bases c).

(** The name under which [register_model] files a class. *)
Definition registry_name (model : pyclass) (name : option string)
    (stripmodel : bool) : string :=
  let name := match name with
              | None => lower (cls_name model)
              | Some n => lower n
              end in
  if stripmodel then replace "model" "" name else name.

(** The module-level dictionary [__model_registry] is the state. *)
Definition register_model (model : pyclass) (name : option string)
    (overwrite stripmodel : bool) : M (gmap string pyclass) unit :=
  if negb (issubclass model "ParametricModel") then raise TypeError else
  let name := registry_name model name stripmodel in
  reg <- get ;;
  if overwrite && bool_decide (is_Some (reg !! name)) then raise KeyError else
  modify (fun reg => <[name := model]> reg).

(** What [get_model] is asked for: a name, a class or an instance. *)
Inductive model_ref :=
| ByName (name : string)
| ByClass (c : pyclass)
| ByInstance (c : pyclass).

Definition get_model (model : model_ref) (baseclass : option string)
  : M (gmap string pyclass) pyclass :=
  res <- match model with
         | ByName n =>
             reg <- get ;;
             match reg !! n with
             | Some c => ret c
             | None => raise KeyError
             end
         | ByClass c =>
             if issubclass c "ParametricModel" then ret c else raise TypeError
         | ByInstance c =>
             if issubclass c "ParametricModel" then ret c else raise TypeError
         end ;;
  match baseclass with
  | Some b => if issubclass res b then ret res else raise TypeError
  | None => ret res
  end.

End Registry.

(** ** The numpy operations the module uses *)

Module Numpy.

Fixpoint rmap {A B} (g : A -> result B) (l : list A) : result (list B) :=
  match l with
  | [] => Ok []
  | a :: l' => rbind (g a) (fun b => rbind (rmap g l') (fun bs => Ok (b :: bs)))
  end.

Fixpoint rmap2 {A B C} (g : A -> B -> result C) (l : list A) (k : list B)
  : result (list C) :=
  match l, k with
  | a :: l', b :: k' =>
      rbind (g a b) (fun c => rbind (rmap2 g l' k') (fun cs => Ok (c :: cs)))
  | _, _ => Ok []
  end.

(** An elementwise binary operation with numpy's broadcasting, on scalars
    and one-dimensional arrays. A function object or a sequence as operand is
    a [TypeError]. *)
Definition elementwise (op : Q -> Q -> result Q) (a b : pyval) : result pyval :=
  match a, b with
  | VNum x, VNum y => rbind (op x y) (fun q => Ok (VNum q))
  | VNum x, VArr d => rbind (rmap (op x) d) (fun r => Ok (VArr r))
  | VArr d, VNum y => rbind (rmap (fun x => op x y) d) (fun r => Ok (VArr r))
  | VArr d1, VArr d2 =>
      if (length d1 =? length d2)%nat
      then rbind (rmap2 op d1 d2) (fun r => Ok (VArr r))
      else match d1, d2 with
           | [x], _ => rbind (rmap (op x) d2) (fun r => Ok (VArr r))
           | _, [y] => rbind (rmap (fun x => op x y) d1) (fun r => Ok (VArr r))
           | _, _ => Raise ValueError
           end
  | _, _ => Raise TypeError
  end.

(** Division by zero, which numpy answers with [inf] or [nan], has no
    rational value: it is the [FloatingPointError] of [np.seterr('raise')]. *)
Definition qdiv (x y : Q) : result Q :=
  if Qeq_bool y 0 then Raise FloatingPointError else Ok (x / y)%Q.

Definition add := elementwise (fun x y => Ok (x + y)%Q).
Definition sub := elementwise (fun x y => Ok (x - y)%Q).
Definition mul := elementwise (fun x y => Ok (x * y)%Q).
Definition div := elementwise qdiv.

Definition unary (op : Q -> Q) (a : pyval) : result pyval :=
  match a with
  | VNum x => Ok (VNum (op x))
  | VArr d => Ok (VArr (map op d))
  | _ => Raise TypeError
  end.

(** [np.abs] *)
Definition abs := unary Qabs.

(** The elements that a reduction runs over. *)
Definition elements_of (a : pyval) : result (list Q) :=
  match a with
  | VNum x => Ok [x]
  | VArr d => Ok d
  | _ => Raise TypeError
  end.

Definition qsum (d : list Q) : Q := fold_left Qplus d 0%Q.
Definition qprod (d : list Q) : Q := fold_left Qmult d 1%Q.

Fixpoint insert_sorted (x : Q) (l : list Q) : list Q :=
  match l with
  | [] => [x]
  | y :: l' => if Qle_bool x y then x :: l else y :: insert_sorted x l'
  end.

Definition sorted (d : list Q) : list Q := fold_right insert_sorted [] d.

(** [np.sum(a, axis=None)], [np.prod], [np.mean], [np.median] *)
Definition sum (a : pyval) : result Q :=
  rbind (elements_of a) (fun d => Ok (qsum d)).

Definition prod (a : pyval) : result Q :=
  rbind (elements_of a) (fun d => Ok (qprod d)).

Definition mean (a : pyval) : result Q :=
  rbind (elements_of a) (fun d => qdiv (qsum d) (inject_Z (Z.of_nat (length d)))).

Definition median (a : pyval) : result Q :=
  rbind (elements_of a) (fun d =>
    let s := sorted d in
    let n := length s in
    if (n =? 0)%nat then Raise FloatingPointError
    else if Nat.even n
         then Ok ((nth (n / 2 - 1) s 0 + nth (n / 2) s 0) / 2)%Q
         else Ok (nth (n / 2) s 0%Q)).

(** [a.shape] of a numpy value: [()] for a scalar, [(n,)] for an array. *)
Definition shape (a : pyval) : result (list nat) :=
  match a with
  | VNum _ => Ok []
  | VArr d => Ok [length d]
  | _ => Raise AttributeError
  end.

(** [a.ravel()] *)
Definition ravel (a : pyval) : result pyval :=
  match a with
  | VNum x => Ok (VArr [x])
  | VArr d => Ok (VArr d)
  | _ => Raise AttributeError
  end.

(** [a.reshape(sh)] *)
Definition reshape (a : pyval) (sh : list nat) : result pyval :=
  match a, sh with
  | VNum x, [] => Ok (VNum x)
  | VNum x, [1%nat] => Ok (VArr [x])
  | VArr [x], [] => Ok (VNum x)
  | VArr d, [n] => if (length d =? n)%nat then Ok (VArr d) else Raise ValueError
  | VNum _, _ | VArr _, _ => Raise ValueError
  | _, _ => Raise AttributeError
  end.

(** [np.array(x, copy=False, dtype=float)] *)
Fixpoint all_numbers (l : list pyval) : option (list Q) :=
  match l with
  | [] => Some []
  | VNum q :: l' => option_map (cons q) (all_numbers l')
  | _ :: _ => None
  end.

Definition array (x : pyval) : result pyval :=
  match x with
  | VNum q => Ok (VNum q)
  | VArr d => Ok (VArr d)
  | VTuple l => match all_numbers l with
                | Some d => Ok (VArr d)
                | None => Raise ValueError
                end
  | VFunc _ => Raise TypeError
  end.

(** [len(a)] *)
Definition len (a : pyval) : result nat :=
  match a with
  | VArr d => Ok (length d)
  | VTuple l => Ok (length l)
  | _ => Raise TypeError
  end.

(** [a[0]] *)
Definition item0 (a : pyval) : result pyval :=
  match a with
  | VArr (q :: _) => Ok (VNum q)
  | VTuple (v :: _) => Ok v
  | VArr [] | VTuple [] | VNum _ => Raise IndexError
  | VFunc _ => Raise TypeError
  end.

(** The items a [for] loop or [zip] draws from a value. *)
Definition iterate (a : pyval) : result (list pyval) :=
  match a with
  | VArr d => Ok (map VNum d)
  | VTuple l => Ok l
  | _ => Raise TypeError
  end.

(** [operator.isSequenceType] *)
Definition isSequenceType (a : pyval) : bool :=
  match a with VArr _ | VTuple _ => true | _ => false end.

End Numpy.

(** ** [FunctionModel]: parameters, evaluation, fitting, statistics *)

Module FunctionModel.

(** What the attribute [_filterfunc] is bound to: the evaluation modes of
    [setCall] without a type. [setCall] with a type (derivative, integrate),
    whose evaluation needs the numeric engine and assigns the trial
    parameters to the model at every call, is not modelled: evaluation and
    fitting are stated for the modes below. *)
Inductive filterkind :=
| ClassFilter    (* the single-use method of the class *)
| BoundF         (* [self.f] *)
| Transformed (xtrans ytrans : option (pyval -> result pyval)).

(** The class of a model: what its instances share. [descriptors] holds the
    [_AutoParameter] objects of the class by name, with their default. *)
Record modelclass := {
  f : pyval -> list pyval -> result pyval;
  descriptors : gmap string pyval;
  customFit : option (list pyval -> pyval -> pyval -> list string ->
                      option pyval -> result pyval);
  flattens : bool  (* the [__call__] of [FunctionModel1D] *)
}.

(** An instance. [slots] is the private storage of the descriptors, [attrs]
    the plain instance attributes that hold the other parameters. *)
Record model := {
  cls : modelclass;
  _pars : list string;
  slots : gmap string pyval;
  attrs : gmap string pyval;
  _filterfunc : filterkind;
  fitteddata : option (pyval * pyval);
  lastfit : option pyval;
  fixedpars : option (list string)
}.

Definition set_slots (g : gmap string pyval -> gmap string pyval) (m : model) :=
  {| cls := cls m; _pars := _pars m; slots := g (slots m); attrs := attrs m;
     _filterfunc := _filterfunc m; fitteddata := fitteddata m;
     lastfit := lastfit m; fixedpars := fixedpars m |}.
Definition set_attrs (g : gmap string pyval -> gmap string pyval) (m : model) :=
  {| cls := cls m; _pars := _pars m; slots := slots m; attrs := g (attrs m);
     _filterfunc := _filterfunc m; fitteddata := fitteddata m;
     lastfit := lastfit m; fixedpars := fixedpars m |}.
Definition set_pars (l : list string) (m : model) :=
  {| cls := cls m; _pars := l; slots := slots m; attrs := attrs m;
     _filterfunc := _filterfunc m; fitteddata := fitteddata m;
     lastfit := lastfit m; fixedpars := fixedpars m |}.
Definition set_filterfunc (ff : filterkind) (m : model) :=
  {| cls := cls m; _pars := _pars m; slots := slots m; attrs := attrs m;
     _filterfunc := ff; fitteddata := fitteddata m;
     lastfit := lastfit m; fixedpars := fixedpars m |}.
Definition set_fitteddata (d : option (pyval * pyval)) (m : model) :=
  {| cls := cls m; _pars := _pars m; slots := slots m; attrs := attrs m;
     _filterfunc := _filterfunc m; fitteddata := d;
     lastfit := lastfit m; fixedpars := fixedpars m |}.
Definition set_lastfit (r : option pyval) (m : model) :=
  {| cls := cls m; _pars := _pars m; slots := slots m; attrs := attrs m;
     _filterfunc := _filterfunc m; fitteddata := fitteddata m;
     lastfit := r; fixedpars := fixedpars m |}.

(** [getattr(self, a)] for a parameter name: [_AutoParameter.__get__]
    initialises a missing slot to the default; a plain attribute that is
    missing is an [AttributeError]. *)
Definition getattr (a : string) : M model pyval := fun m =>
  match descriptors (cls m) !! a with
  | Some defaultvalue =>
      match slots m !! a with
      | Some v => (Ok v, m)
      | None => (Ok defaultvalue, set_slots (insert a defaultvalue) m)
      end
  | None =>
      match attrs m !! a with
      | Some v => (Ok v, m)
      | None => (Raise AttributeError, m)
      end
  end.

(** [setattr(self, a, v)]: [_AutoParameter.__set__] accepts scalars only. *)
Definition setattr (a : string) (v : pyval) : M model unit := fun m =>
  match descriptors (cls m) !! a with
  | Some _ =>
      if isscalar v then (Ok tt, set_slots (insert a v) m)
      else (Raise ValueError, m)
  | None => (Ok tt, set_attrs (insert a v) m)
  end.

Definition params : M model (list string) := fun m => (Ok (_pars m), m).

Definition defaultparval : pyval := VNum 1.

Definition _autoInitPars : M model unit :=
  m <- get ;;
  for_each (_pars m) (fun p => setattr p defaultparval).

(** [_getParvals] calls itself after [_autoInitPars]; [depth] is what is
    left of the interpreter's recursion limit. *)
Fixpoint _getParvals_rec (depth : nat) : M model (list pyval) :=
  match depth with
  | O => raise RuntimeError
  | S d =>
      try_except (m <- get ;; comprehension (_pars m) getattr)
                 (is_exn AttributeError)
                 (_autoInitPars ;;; _getParvals_rec d)
  end.

Definition recursion_limit : nat := 1000.

Definition _getParvals : M model (list pyval) := _getParvals_rec recursion_limit.

Definition _setParvals (newpars : list pyval) : M model unit :=
  m <- get ;;
  if (length (_pars m) <? length newpars)%nat then raise ValueError else
  for_each (zip (_pars m) newpars) (fun av => setattr av.1 av.2).

Fixpoint _getPardict_rec (depth : nat) : M model (gmap string pyval) :=
  match depth with
  | O => raise RuntimeError
  | S d =>
      try_except
        (m <- get ;;
         l <- comprehension (_pars m) (fun a => v <- getattr a ;; ret (a, v)) ;;
         ret (dict l))
        (is_exn AttributeError)
        (_autoInitPars ;;; _getPardict_rec d)
  end.

Definition _getPardict : M model (gmap string pyval) :=
  _getPardict_rec recursion_limit.

Definition _setPardict (newpardict : gmap string pyval) : M model unit :=
  m <- get ;;
  for_each (map_to_list newpardict)
    (fun kv => if bool_decide (kv.1 ∈ _pars m) then ret tt else raise KeyError) ;;;
  for_each (map_to_list newpardict) (fun kv => setattr kv.1 kv.2).

(** Calling the bound method [ff] that [self._filterfunc] evaluated to. *)
Definition apply_opt (t : option (pyval -> result pyval)) (v : pyval) : result pyval :=
  match t with Some g => g v | None => Ok v end.

Definition call_filter (ff : filterkind) (x : pyval) (pars : list pyval) : M model pyval :=
  match ff with
  | ClassFilter =>
      modify (set_filterfunc BoundF) ;;;
      m <- get ;; lift (f (cls m) x pars)
  | BoundF => m <- get ;; lift (f (cls m) x pars)
  | Transformed xt yt =>
      m <- get ;;
      lift (rbind (apply_opt xt x) (fun x' =>
            rbind (f (cls m) x' pars) (apply_opt yt)))
  end.

(** [setCall(type=None, xtrans, ytrans)] *)
Definition setCall (xtrans ytrans : option (pyval -> result pyval)) : M model unit :=
  match xtrans, ytrans with
  | None, None => modify (set_filterfunc BoundF)
  | _, _ => modify (set_filterfunc (Transformed xtrans ytrans))
  end.

(** [self(x)]: [FunctionModel.__call__], or [FunctionModel1D.__call__] when
    the class flattens its input. *)
Definition call (x : pyval) : M model pyval :=
  arr <- lift (Numpy.array x) ;;
  m <- get ;;
  let ff := _filterfunc m in
  if flattens (cls m) then
    flat <- lift (Numpy.ravel arr) ;;
    pv <- _getParvals ;;
    res <- call_filter ff flat pv ;;
    lift (rbind (Numpy.shape arr) (Numpy.reshape res))
  else
    pv <- _getParvals ;;
    call_filter ff arr pv.

(** [self] called on a list of positional arguments: [__call__] takes
    exactly one besides [self]. *)
Definition call_positional (args : list pyval) : M model pyval :=
  match args with
  | [x] => call x
  | _ => raise TypeError
  end.

(** *** Fitting *)

(** A run of an optimizer of the numeric engine: it evaluates the objective
    at points of its choice, finitely often, and returns its result. An
    exception of the objective leaves the optimizer. *)
Inductive optrun :=
| Return (res : pyval)
| Fail (e : exn)
| Eval (v : list Q) (k : pyval -> optrun).

Fixpoint run_opt {S} (t : optrun) (g : list Q -> M S pyval) : M S pyval :=
  match t with
  | Return res => ret res
  | Fail e => raise e
  | Eval v k => r <- g v ;; run_opt (k r) g
  end.

(** The numeric engine: [optimize name v0] is [scipy.optimize.<name>] started
    from [v0] (with [full_output=1]); [chisqprob] is [scipy.stats.chisqprob]. *)
Record engine := {
  optimize : string -> list pyval -> optrun;
  chisqprob : Q -> Z -> Q
}.

(** The closures [f], [g1] and [g] that [fitData] builds share the object
    and the dictionary [pdict]. *)
Definition on_self {A} (c : M model A) : M (model * gmap string pyval) A :=
  fun s => let '(r, m) := c s.1 in (r, (m, s.2)).

Definition with_pdict {A} (pdict : gmap string pyval)
    (c : M (model * gmap string pyval) A) : M model A :=
  fun m => let '(r, s) := c (m, pdict) in (r, s.1).

Fixpoint index (p : string) (l : list string) : result nat :=
  match l with
  | [] => Raise ValueError
  | q :: l' => if String.eqb p q then Ok O
               else rbind (index p l') (fun i => Ok (S i))
  end.

Fixpoint del {A} (i : nat) (l : list A) : list A :=
  match l, i with
  | [], _ => []
  | _ :: l', O => l'
  | a :: l', S j => a :: del j l'
  end.

(** [for p in fixedpars: i=ps.index(p); del ps[i]; del v[i]] *)
Fixpoint drop_fixed (fixedpars ps : list string) (v : list pyval)
  : result (list string * list pyval) :=
  match fixedpars with
  | [] => Ok (ps, v)
  | p :: rest => rbind (index p ps) (fun i => drop_fixed rest (del i ps) (del i v))
  end.

(** The function [f(x,v)] of the parameters to be fit. *)
Definition fit_f (fitfunc : filterkind) (fixed : bool) (ps : list string)
    (x : pyval) (v : list Q) : M (model * gmap string pyval) pyval :=
  if fixed then
    modify (fun s => (s.1, dict (zip ps (map VNum v)) ∪ s.2)) ;;;
    s <- get ;;
    pars <- lift (Numpy.rmap (fun a => match s.2 !! a with
                                       | Some p => Ok p
                                       | None => Raise KeyError
                                       end) (_pars s.1)) ;;
    r <- on_self (call_filter fitfunc x pars) ;;
    lift (Numpy.ravel r)
  else
    r <- on_self (call_filter fitfunc x (map VNum v)) ;;
    lift (Numpy.ravel r).

(** The residual vector of [leastsq]. *)
Definition leastsq_residual (contraction : string) (w y fxv : pyval) : result pyval :=
  if contains "frac" contraction
  then rbind (Numpy.div fxv y) (fun r =>
       rbind (Numpy.sub (VNum 1) r) (fun d => Numpy.mul w d))
  else rbind (Numpy.sub y fxv) (fun d => Numpy.mul w d).

(** [g1(v,x,y)], given the value [fxv] of [f(x,v)]. *)
Definition g1 (contraction : string) (y fxv : pyval) : result pyval :=
  if contains "frac" contraction then
    rbind (rbind (Numpy.div fxv y) (Numpy.sub (VNum 1))) (fun diff =>
      if contains "sq" contraction then Numpy.mul diff diff
      else if contains "abs" contraction then Numpy.abs diff
      else Ok diff)
  else
    rbind (Numpy.sub y fxv) (fun diff =>
      if contains "sq" contraction then Numpy.mul diff diff
      else if contains "abs" contraction then Numpy.abs diff
      else Ok (VFunc "np.diff")).

(** The reduction that the contraction names, if any. *)
Definition reduction (contraction : string) : option (pyval -> result Q) :=
  if contains "sum" contraction then Some Numpy.sum
  else if contains "mean" contraction then Some Numpy.mean
  else if contains "median" contraction then Some Numpy.median
  else if contains "prod" contraction then Some Numpy.prod
  else None.

(** The scalar objective [g(v,x,y)] of the generic minimizers, given the
    value of [f(x,v)]. *)
Definition scalar_objective (contraction : string) (red : pyval -> result Q)
    (w y fxv : pyval) : result pyval :=
  rbind (g1 contraction y fxv) (fun r =>
  rbind (Numpy.mul w r) (fun wr =>
  rbind (red wr) (fun q => Ok (VNum q)))).

(** [np.array([v])] where [v[0]] raised [IndexError]: a scalar becomes an
    array of one element; an empty array becomes an array of one (empty)
    row, kept as a sequence. *)
Definition singleton_array (v : pyval) : pyval :=
  match v with
  | VNum q => VArr [q]
  | _ => VTuple [v]
  end.

(** [fitfunc(x, *self.parvals)], the output whose shape [fitData] compares
    with the shape of [y]. *)
Definition fit_output (fitfunc : filterkind) (x : pyval) : M model pyval :=
  pv <- _getParvals ;;
  call_filter fitfunc x pv.

Definition fitData (eng : engine) (x y : pyval) (method : option string)
    (fixedpars_arg : option (list string)) (weights : option pyval)
    (contraction : string) (updatepars fitf savedata : bool) : M model pyval :=
  m0 <- get ;;
  let fitfunc := if fitf then BoundF else _filterfunc m0 in
  out <- fit_output fitfunc x ;;
  osh <- lift (Numpy.shape out) ;;
  ysh <- lift (Numpy.shape y) ;;
  if negb (bool_decide (osh = ysh)) then raise ModelTypeError else
  w <- match weights with
       | None => ret (VNum 1)
       | Some wt =>
           w <- lift (Numpy.array wt) ;;
           wsh <- lift (Numpy.shape w) ;;
           if negb (bool_decide (wsh = ysh)) then raise ModelTypeError
           else lift (Numpy.ravel w)
       end ;;
  y <- lift (Numpy.ravel y) ;;
  m1 <- get ;;
  let method := match method with
                | Some s => s
                | None => match customFit (cls m1) with
                          | Some _ => "custom"
                          | None => "leastsq"
                          end
                end in
  let fixedpars := match fixedpars_arg with
                   | Some l => l
                   | None => match fixedpars m1 with Some l => l | None => [] end
                   end in
  ps <- params ;;
  v <- _getParvals ;;
  psres <-
    (if String.eqb method "custom" then
       res <- lift (match customFit (cls m1) with
                    | Some custom => custom v x y fixedpars weights
                    | None => Raise NotImplementedError
                    end) ;;
       r0 <- lift (Numpy.item0 res) ;;
       let res := if Numpy.isSequenceType r0 then res else VTuple [res] in
       psv <- lift (drop_fixed fixedpars ps v) ;;
       ret (psv.1, res)
     else
       psv <- lift (drop_fixed fixedpars ps v) ;;
       let fixed := match fixedpars with [] => false | _ => true end in
       pdict <- (if fixed
                 then l <- comprehension fixedpars
                             (fun p => val <- getattr p ;; ret (p, val)) ;;
                      ret (dict l)
                 else ret ∅) ;;
       let fxv := fit_f fitfunc fixed psv.1 x in
       let run name g := with_pdict pdict (run_opt (optimize eng name psv.2) g) in
       res <-
         (if String.eqb method "leastsq" then
            run "leastsq"
              (fun v => r <- fxv v ;; lift (leastsq_residual contraction w y r))
          else
            match reduction contraction with
            | None => raise ValueError
            | Some red =>
                let g v := r <- fxv v ;; lift (scalar_objective contraction red w y r) in
                if String.eqb method "fmin" then run "fmin" g
                else if String.eqb method "fmin_powell" then run "fmin_powell" g
                else if String.eqb method "fmin_cg" then run "fmin_cg" g
                else if String.eqb method "fmin_bfgs" then run "fmin_bfgs" g
                else if String.eqb method "fmin_ncg" then raise NotImplementedError
                else if String.eqb method "anneal" || String.eqb method "global"
                     then run "anneal" g
                else if String.eqb method "brute" then raise NotImplementedError
                else raise ValueError
            end) ;;
       ret (psv.1, res)) ;;
  let ps := psres.1 in
  let res := psres.2 in
  modify (set_lastfit (Some res)) ;;;
  v <- lift (Numpy.item0 res) ;;
  v <- lift (match Numpy.item0 v with
             | Ok _ => Ok v
             | Raise IndexError => Ok (singleton_array v)
             | Raise e => Raise e
             end) ;;
  (if updatepars
   then items <- lift (Numpy.iterate v) ;;
        for_each (zip ps items) (fun pn => setattr pn.1 pn.2)
   else ret tt) ;;;
  (if savedata then modify (set_fitteddata (Some (x, y))) else ret tt) ;;;
  ret v.

(** *** Statistics *)

(** [x,y] as given, or the data of the last fit. *)
Definition data_or_fitted (x y : option pyval) : M model (pyval * pyval) :=
  match x, y with
  | Some x, Some y => ret (x, y)
  | _, _ =>
      m <- get ;;
      match fitteddata m with
      | None => raise ValueError
      | Some d => ret d
      end
  end.

Definition chi2Data (eng : engine) (x y : option pyval) : M model (Q * Q * Q) :=
  xy <- data_or_fitted x y ;;
  let x := xy.1 in
  let y := xy.2 in
  pv <- _getParvals ;;
  out <- call_positional (x :: pv) ;;
  osh <- lift (Numpy.shape out) ;;
  ysh <- lift (Numpy.shape y) ;;
  if negb (bool_decide (osh = ysh)) then raise ModelTypeError else
  n <- lift (Numpy.len y) ;;
  ps <- params ;;
  let m := length ps in
  let dof := (Z.of_nat n - Z.of_nat m - 1)%Z in
  mx <- call x ;;
  d <- lift (Numpy.sub y mx) ;;
  d2 <- lift (Numpy.mul d d) ;;
  mx' <- call x ;;
  chi2 <- lift (Numpy.div d2 mx') ;;
  c2 <- lift (Numpy.mul chi2 chi2) ;;
  chi2 <- lift (Numpy.sum c2) ;;
  red <- lift (Numpy.qdiv chi2 (inject_Z dof)) ;;
  ret (chi2, red, chisqprob eng chi2 dof).

(** The names bound at the top level of the module, where a name that the
    body of a function never assigns is looked up (the builtins come after
    them and hold none of the names looked up below). *)
Definition module_globals : list string :=
  ["division"; "with_statement"; "pi"; "np"; "ABCMeta"; "abstractmethod";
   "abstractproperty"; "ModelTypeError"; "ParametricModel"; "_AutoParameter";
   "AutoParamsMeta"; "FunctionModel"; "FunctionModel1D"; "FunctionModel1DAuto";
   "CompositeModel1D"; "ModelGrid1D"; "InputCoordinateTransformer";
   "FunctionModel2DScalar"; "FunctionModel2DScalarAuto";
   "FunctionModel2DScalarSeperable"; "FunctionModel2DScalarDeformedRadial";
   "__model_registry"; "register_model"; "get_model"; "list_models";
   "intersect_models"; "offset_model"; "scale_model";
   "scale_and_offset_model"; "binned_weights"; "Grid1DModel";
   "__name__"; "__doc__"; "__file__"; "__package__"; "__builtins__"].

(** Loading a global name: its value (a class, function or module object)
    or [NameError]. *)
Definition load_global (name : string) : result pyval :=
  if bool_decide (name ∈ module_globals) then Ok (VFunc name) else Raise NameError.

(** [bootstrapFits]: the body assigns [x], [y] and [d] only, so [prefit],
    [kwargs], [xi], [yi] and [vs] are global names. [rest] stands for the
    statements after the test of [prefit]. *)
Definition bootstrapFits (x y : option pyval) (n : nat) (plothist : bool)
    (rest : pyval -> M model (gmap string pyval)) : M model (gmap string pyval) :=
  xy <- data_or_fitted x y ;;
  let x := xy.1 in
  let y := xy.2 in
  out <- call x ;;
  osh <- lift (Numpy.shape out) ;;
  ysh <- lift (Numpy.shape y) ;;
  if negb (bool_decide (osh = ysh)) then raise ModelTypeError else
  xsh <- lift (Numpy.shape x) ;;
  ylast <- lift (match last ysh with Some k => Ok k | None => Raise IndexError end) ;;
  xlast <- lift (match last xsh with Some k => Ok k | None => Raise IndexError end) ;;
  if negb (ylast =? xlast)%nat then raise ModelTypeError else
  prefit <- lift (load_global "prefit") ;;
  rest prefit.

(** *** Observations and histories *)

(** The current value of a parameter: what reading the attribute gives
    ([None] where the read is an [AttributeError]). *)
Definition stored (m : model) (a : string) : option pyval :=
  match descriptors (cls m) !! a with
  | Some defaultvalue => Some (default defaultvalue (slots m !! a))
  | None => attrs m !! a
  end.

(** Two states of an object of the same class with the same parameter
    names. *)
Definition same_class (m m' : model) : Prop :=
  cls m' = cls m /\ _pars m' = _pars m.

(** The same, on the state of the closures of [fitData]. *)
Definition same_class_self (s s' : model * gmap string pyval) : Prop :=
  same_class s.1 s'.1.

(** Two states of an object with the same class, parameter names and
    results of the last fit. *)
Definition frame (m m' : model) : Prop :=
  cls m' = cls m /\ _pars m' = _pars m /\ fitteddata m' = fitteddata m /\
  lastfit m' = lastfit m /\ fixedpars m' = fixedpars m.

(** Two such states in which every parameter has the same value: they
    differ at most in the slots that a read has initialised and in the
    binding of [_filterfunc]. *)
Definition agree (m m' : model) : Prop :=
  frame m m' /\ forall a, stored m' a = stored m a.

(** Every parameter has a value. *)
Definition initialised (m : model) : Prop :=
  forall a, a ∈ _pars m -> is_Some (stored m a).

(** Every parameter has a scalar value. *)
Definition scalar_values (m : model) : Prop :=
  forall a, a ∈ _pars m -> exists v, stored m a = Some v /\ isscalar v = true.

(** [_filterfunc] is the evaluation function [f] itself. *)
Definition plain_call (m : model) : Prop :=
  match _filterfunc m with
  | Transformed _ _ => False
  | _ => True
  end.

(** Two states of an object in the same call mode. *)
Definition same_mode (m m' : model) : Prop := _filterfunc m' = _filterfunc m.

(** What a call of [_filterfunc] in the mode [ff] returns for an object of
    the class [c]. *)
Definition filtered (ff : filterkind) (c : modelclass) (x : pyval)
    (pars : list pyval) : result pyval :=
  match ff with
  | Transformed xt yt =>
      rbind (apply_opt xt x) (fun x' => rbind (f c x' pars) (apply_opt yt))
  | _ => f c x pars
  end.

(** What is done to a model after its construction. *)
Inductive action :=
| Assign (name : string) (v : pyval)
| AssignParvals (newpars : list pyval)
| AssignPardict (newpardict : gmap string pyval)
| ReadParvals
| ReadPardict
| Evaluate (x : pyval)
| SetCall (xtrans ytrans : option (pyval -> result pyval))
| Fit (x y : pyval) (method : option string) (fixedpars : option (list string))
      (weights : option pyval) (contraction : string)
      (updatepars fitf savedata : bool).

(** The object after an action, whether it returned or raised. *)
Definition perform (eng : engine) (a : action) (m : model) : model :=
  match a with
  | Assign name v => (setattr name v m).2
  | AssignParvals l => (_setParvals l m).2
  | AssignPardict d => (_setPardict d m).2
  | ReadParvals => (_getParvals m).2
  | ReadPardict => (_getPardict m).2
  | Evaluate x => (call x m).2
  | SetCall xt yt => (setCall xt yt m).2
  | Fit x y method fp w c u ff sd => (fitData eng x y method fp w c u ff sd m).2
  end.

End FunctionModel.

(** ** [AutoParamsMeta]: parameters from the signature of [f] *)

Module AutoParams.
Import FunctionModel.

(** The answer of [inspect.getargspec]. *)
Record argspec := {
  args : list string;
  varargs : option string;
  varkw : option string;
  defaults : option (list pyval)
}.

(** [l.remove(x)] *)
Fixpoint remove (x : string) (l : list string) : result (list string) :=
  match l with
  | [] => Raise ValueError
  | y :: l' => if String.eqb x y then Ok l'
               else rbind (remove x l') (fun r => Ok (y :: r))
  end.

(** What [__init__] sets on the class: the descriptors, [_pars] ([None] for
    a function with variable arguments) and [_statargs]. *)
Record autoclass := {
  auto_descriptors : gmap string pyval;
  auto_pars : option (list string);
  auto_statargs : list string
}.

(** [args.remove('self')], else [args.remove('cls')], else nothing. *)
Definition without_self (args : list string) : list string :=
  match remove "self" args with
  | Ok a => a
  | Raise _ => match remove "cls" args with
               | Ok a => a
               | Raise _ => args
               end
  end.

(** The default that the signature declares for the [i]-th of [n]
    parameters: the defaults belong to the last arguments. *)
Definition declared_default (ds : list pyval) (n i : nat) : pyval :=
  if (i <? n - length ds)%nat then VNum 1
  else default (VNum 1) (ds !! (i - (n - length ds))%nat).

(** [AutoParamsMeta.__init__]. [ffunc] is the signature of the first
    callable [f] along the MRO, [inherited] the descriptors of the bases. *)
Definition meta_init (ffunc : option argspec) (inherited : gmap string pyval)
  : result autoclass :=
  match ffunc with
  | None => Raise KeyError
  | Some spec =>
      match varkw spec with
      | Some _ => Raise SyntaxError
      | None =>
          match without_self (args spec) with
          | [] => Raise IndexError
          | _ :: args =>
              let defaults := match defaults spec with
                              | None => []
                              | Some d => d
                              end in
              let defaults :=
                if negb (length args =? length defaults)%nat
                then Nat.iter (length args - length defaults)
                              (cons (VNum 1)) defaults
                else defaults in
              let descr := fold_left (fun d ad => <[ad.1 := ad.2]> d)
                                     (zip args defaults) inherited in
              match varargs spec with
              | Some _ => Ok {| auto_descriptors := descr; auto_pars := None;
                                auto_statargs := args |}
              | None => Ok {| auto_descriptors := descr; auto_pars := Some args;
                              auto_statargs := args |}
              end
          end
      end
  end.

(** The rest of a class definition: the evaluation function and the
    attributes that [__call__] reads. [object_init] is the [__init__] of the
    class, which receives the keywords that name no parameter. *)
Record classdef := {
  evaluate : pyval -> list pyval -> result pyval;
  custom : option (list pyval -> pyval -> pyval -> list string ->
                   option pyval -> result pyval);
  one_dimensional : bool;
  paramsname : option (list string);
  paramsnames : option (list string);
  class_attrs : gmap string pyval;
  object_init : gmap string pyval -> result unit
}.

Definition new_object (a : autoclass) (c : classdef) (pars : list string) : model :=
  {| cls := {| f := evaluate c; descriptors := auto_descriptors a;
               customFit := custom c;
               flattens := one_dimensional c |};
     _pars := pars; slots := ∅; attrs := ∅; _filterfunc := ClassFilter;
     fitteddata := None; lastfit := None; fixedpars := None |}.

(** [range(n)] for the value [n]. *)
Definition range_of (n : pyval) : result (list nat) :=
  match n with
  | VNum q => if (Qden q =? 1)%positive then Ok (seq 0 (Z.to_nat (Qnum q)))
              else Raise TypeError
  | _ => Raise TypeError
  end.

(** The initial values: [kwargs] by name, then [args] in the order of the
    parameters that are left. *)
Definition set_initial (args : list pyval) (kwargs : gmap string pyval)
  : M model unit :=
  ps <- params ;;
  if (length ps <? length args + size kwargs)%nat then raise TypeError else
  pars <- (fix go (kw : list (string * pyval)) (pars : list string)
             : M model (list string) :=
             match kw with
             | [] => ret pars
             | (k, v) :: kw' =>
                 i <- lift (index k pars) ;;
                 setattr k v ;;;
                 go kw' (del i pars)
             end) (map_to_list kwargs) ps ;;
  for_each (zip pars args) (fun pv => setattr pv.1 pv.2).

(** [AutoParamsMeta.__call__]: the construction of an instance. *)
Definition meta_call (a : autoclass) (c : classdef) (args : list pyval)
    (kwargs : gmap string pyval) : result model :=
  rbind
    (match auto_pars a with
     | None =>
         if (1 <? length args)%nat then Raise ValueError else
         let names := match paramsname c, paramsnames c with
                      | Some n, _ => n
                      | None, Some n => n
                      | None, None => ["p"]
                      end in
         rbind (match kwargs !! "nparams", args with
                | Some n, _ => Ok n
                | None, n :: _ => Ok n
                | None, [] => Raise IndexError
                end) (fun nparams =>
         let kwargs := delete "nparams" kwargs in
         let is_par k := bool_decide (k ∈ auto_statargs a)
                         || existsb (fun n => String.prefix n k) names in
         let objkwargs := filter (fun kv => negb (is_par kv.1)) kwargs in
         let kwargs := filter (fun kv => is_par kv.1) kwargs in
         rbind (object_init c objkwargs) (fun _ =>
         rbind (range_of nparams) (fun idx =>
         let var := flat_map (fun i => map (fun n => n +:+ pretty i) names) idx in
         let '(r, obj) :=
           for_each var (fun p =>
             match class_attrs c !! ("_" +:+ p +:+ "_default") with
             | Some d => setattr p d
             | None => setattr p (VNum 1)
             end) (new_object a c []) in
         rbind r (fun _ =>
         Ok (set_pars (auto_statargs a ++ var)%list obj, kwargs)))))
     | Some pars =>
         let objkwargs := filter (fun kv => negb (bool_decide (kv.1 ∈ pars))) kwargs in
         let kwargs := filter (fun kv => kv.1 ∈ pars) kwargs in
         rbind (object_init c objkwargs) (fun _ =>
         Ok (new_object a c pars, kwargs))
     end)
    (fun ok =>
       let '(r, obj) := set_initial args ok.2 ok.1 in
       rbind r (fun _ => Ok obj)).

End AutoParams.

(** ** [CompositeModel1D] *)

Module Composite.
Import FunctionModel.

(** An object that is assigned to an attribute which is no parameter: a
    value, or a dictionary. *)
Inductive pyobject :=
| Value (v : pyval)
| Dict (d : gmap string pyval).

(** A composite holds its sub-models (function models; it shares them with
    its creator, so their state is part of its own), the operators, the
    expression [_opstr], its parameter names and the map from each to the
    sub-model and the name there. The sub-models are held here by value:
    this is the composite of sub-models that are distinct objects. The
    module [Shared] below has the sub-models by reference, for a composite
    that is given one object more than once. [other_attrs] is the rest of
    [__dict__]. *)
Record composite := {
  _models : list model;
  _ops : list string;
  _opstr : string;
  c_pars : list string;
  _argmap : gmap string (nat * string);
  _filters : option (list (pyval -> result pyval));
  c_filterfunc : filterkind;
  other_attrs : gmap string pyobject
}.

Definition set_models (g : list model -> list model) (c : composite) :=
  {| _models := g (_models c); _ops := _ops c; _opstr := _opstr c;
     c_pars := c_pars c; _argmap := _argmap c; _filters := _filters c;
     c_filterfunc := c_filterfunc c; other_attrs := other_attrs c |}.
Definition set_filters (fl : option (list (pyval -> result pyval))) (c : composite) :=
  {| _models := _models c; _ops := _ops c; _opstr := _opstr c;
     c_pars := c_pars c; _argmap := _argmap c; _filters := fl;
     c_filterfunc := c_filterfunc c; other_attrs := other_attrs c |}.
Definition set_c_filterfunc (ff : filterkind) (c : composite) :=
  {| _models := _models c; _ops := _ops c; _opstr := _opstr c;
     c_pars := c_pars c; _argmap := _argmap c; _filters := _filters c;
     c_filterfunc := ff; other_attrs := other_attrs c |}.
Definition set_other (g : gmap string pyobject -> gmap string pyobject)
    (c : composite) :=
  {| _models := _models c; _ops := _ops c; _opstr := _opstr c;
     c_pars := c_pars c; _argmap := _argmap c; _filters := _filters c;
     c_filterfunc := c_filterfunc c; other_attrs := g (other_attrs c) |}.

(** A method of the sub-model [self._models[i]]. *)
Definition on_model {A} (i : nat) (c : M model A) : M composite A := fun s =>
  match _models s !! i with
  | None => (Raise IndexError, s)
  | Some m => let '(r, m') := c m in (r, set_models (<[i := m']>) s)
  end.

(** [__getattr__] and [__setattr__] *)
Definition getattr (name : string) : M composite pyval :=
  s <- get ;;
  if bool_decide (name ∈ c_pars s) then
    match _argmap s !! name with
    | None => raise KeyError
    | Some (i, n) => on_model i (FunctionModel.getattr n)
    end
  else raise AttributeError.

Definition setattr (name : string) (val : pyval) : M composite unit :=
  s <- get ;;
  if bool_decide (name ∈ c_pars s) then
    match _argmap s !! name with
    | None => raise KeyError
    | Some (i, n) => on_model i (FunctionModel.setattr n val)
    end
  else modify (set_other (insert name (Value val))).

(** The methods inherited from [FunctionModel] and [FunctionModel1D]. *)
Definition params : M composite (list string) := fun s => (Ok (c_pars s), s).

Definition _autoInitPars : M composite unit :=
  s <- get ;;
  for_each (c_pars s) (fun p => setattr p defaultparval).

Fixpoint _getParvals_rec (depth : nat) : M composite (list pyval) :=
  match depth with
  | O => raise RuntimeError
  | S d =>
      try_except (s <- get ;; comprehension (c_pars s) getattr)
                 (is_exn AttributeError)
                 (_autoInitPars ;;; _getParvals_rec d)
  end.

Definition _getParvals : M composite (list pyval) :=
  _getParvals_rec recursion_limit.

(** The property [pardict] is read through [_getPardict] of
    [FunctionModel]. *)
Fixpoint _getPardict_rec (depth : nat) : M composite (gmap string pyval) :=
  match depth with
  | O => raise RuntimeError
  | S d =>
      try_except
        (s <- get ;;
         l <- comprehension (c_pars s) (fun a => v <- getattr a ;; ret (a, v)) ;;
         ret (dict l))
        (is_exn AttributeError)
        (_autoInitPars ;;; _getPardict_rec d)
  end.

Definition _getPardict : M composite (gmap string pyval) :=
  _getPardict_rec recursion_limit.

(** [self.parvals = newpars] and [self.pardict = d]: the statement calls
    [__setattr__] of the composite with the name of the property. For
    [pardict], which is no parameter name (see the conventions), the
    dictionary is stored in [__dict__]. *)
Definition assign_parvals (newpars : pyval) : M composite unit :=
  setattr "parvals" newpars.

Definition assign_pardict (d : gmap string pyval) : M composite unit :=
  modify (set_other (insert "pardict" (Dict d))).

(** *** The expression [_opstr] and its evaluation *)

(** ['mval[%i]%s' % (i, op)] *)
Definition mval_op (i : nat) (op : string) : string :=
  "mval[" +:+ pretty i +:+ "]" +:+ op.

(** The items that [lst += s] appends for a string [s]: its characters. *)
Fixpoint chars (s : string) : list string :=
  match s with
  | EmptyString => []
  | String c s' => String c EmptyString :: chars s'
  end.

(** [''.join(l)] *)
Definition join (l : list string) : string := fold_right String.append "" l.

Definition build_opstr (ops : list string) : string :=
  let oplst := imap mval_op ops in
  let oplst := (oplst ++ chars ("mval[" +:+ pretty (length oplst) +:+ "]"))%list in
  join oplst.

(** The expressions that [eval] is given: items of [mval] joined by the
    operators [+], [-], [*] and [/] (other operators are not modelled and
    are a [SyntaxError] here). *)
Inductive token := TMval (i : nat) | TOp (o : ascii).

Inductive lexstate :=
| Start
| Literal (rest : string)    (* what is left of the name and the bracket *)
| Digits (n : option nat).

Definition digit_of (c : ascii) : option nat :=
  let n := nat_of_ascii c in
  if ((48 <=? n) && (n <=? 57))%nat then Some (n - 48)%nat else None.

Definition is_operator (c : ascii) : bool :=
  bool_decide (c ∈ ["+"; "-"; "*"; "/"]%char).

Fixpoint lex (st : lexstate) (s : string) : result (list token) :=
  match s with
  | EmptyString => match st with Start => Ok [] | _ => Raise SyntaxError end
  | String c s' =>
      match st with
      | Start =>
          if Ascii.eqb c " " then lex Start s'
          else if Ascii.eqb c "m" then lex (Literal "val[") s'
          else if is_operator c
               then rbind (lex Start s') (fun l => Ok (TOp c :: l))
          else Raise SyntaxError
      | Literal EmptyString => Raise SyntaxError
      | Literal (String e rest) =>
          if Ascii.eqb c e
          then lex (match rest with
                    | EmptyString => Digits None
                    | _ => Literal rest
                    end) s'
          else Raise SyntaxError
      | Digits n =>
          match digit_of c, n with
          | Some k, None => lex (Digits (Some k)) s'
          | Some k, Some j => lex (Digits (Some (10 * j + k)%nat)) s'
          | None, Some j =>
              if Ascii.eqb c "]"
              then rbind (lex Start s') (fun l => Ok (TMval j :: l))
              else Raise SyntaxError
          | None, None => Raise SyntaxError
          end
      end
  end.

Inductive expr :=
| Item (i : nat)
| Bin (o : ascii) (a b : expr).

Definition close (sum : option (expr * ascii)) (term : expr) : expr :=
  match sum with
  | None => term
  | Some (e, o) => Bin o e term
  end.

(** [*] and [/] bind tighter than [+] and [-]; all associate to the left. *)
Fixpoint parse_from (sum : option (expr * ascii)) (term : expr)
    (toks : list token) : result expr :=
  match toks with
  | [] => Ok (close sum term)
  | TOp o :: TMval i :: rest =>
      if bool_decide (o ∈ ["*"; "/"]%char)
      then parse_from sum (Bin o term (Item i)) rest
      else parse_from (Some (close sum term, o)) (Item i) rest
  | _ => Raise SyntaxError
  end.

Definition parse (s : string) : result expr :=
  rbind (lex Start s) (fun toks =>
    match toks with
    | TMval i :: rest => parse_from None (Item i) rest
    | _ => Raise SyntaxError
    end).

Definition apply_operator (o : ascii) (a b : pyval) : result pyval :=
  if Ascii.eqb o "+" then Numpy.add a b
  else if Ascii.eqb o "-" then Numpy.sub a b
  else if Ascii.eqb o "*" then Numpy.mul a b
  else if Ascii.eqb o "/" then Numpy.div a b
  else Raise SyntaxError.

Fixpoint eval_expr (mval : list pyval) (e : expr) : result pyval :=
  match e with
  | Item i => match mval !! i with
              | Some v => Ok v
              | None => Raise IndexError
              end
  | Bin o a b =>
      rbind (eval_expr mval a) (fun va =>
      rbind (eval_expr mval b) (fun vb => apply_operator o va vb))
  end.

(** [eval(self._opstr)] with [mval] in scope. *)
Definition eval (opstr : string) (mval : list pyval) : result pyval :=
  rbind (parse opstr) (eval_expr mval).

(** *** Evaluation *)

(** [m.f(x, *m.parvals)] for a sub-model [m]. *)
Definition submodel_output (x : pyval) : M model pyval :=
  pv <- FunctionModel._getParvals ;;
  m <- get ;;
  lift (FunctionModel.f (cls m) x pv).

Definition f (x : pyval) (args : list pyval) : M composite pyval :=
  ps <- params ;;
  for_each (zip ps args) (fun pa => setattr pa.1 pa.2) ;;;
  s <- get ;;
  mval <- comprehension (seq 0 (length (_models s))) (fun i =>
            on_model i (submodel_output x)) ;;
  s <- get ;;
  res <- lift (eval (_opstr s) mval) ;;
  match _filters s with
  | None => ret res
  | Some fl => lift (fold_left (fun r flt => rbind r flt) fl (Ok res))
  end.

Definition call_filter (ff : filterkind) (x : pyval) (pars : list pyval)
  : M composite pyval :=
  match ff with
  | ClassFilter => modify (set_c_filterfunc BoundF) ;;; f x pars
  | BoundF => f x pars
  | Transformed xt yt =>
      x' <- lift (apply_opt xt x) ;;
      r <- f x' pars ;;
      lift (apply_opt yt r)
  end.

(** [FunctionModel1D.__call__] *)
Definition call (x : pyval) : M composite pyval :=
  arr <- lift (Numpy.array x) ;;
  s <- get ;;
  let ff := c_filterfunc s in
  flat <- lift (Numpy.ravel arr) ;;
  pv <- _getParvals ;;
  res <- call_filter ff flat pv ;;
  lift (rbind (Numpy.shape arr) (Numpy.reshape res)).

Definition addFilter (flt : pyval -> result pyval) : M composite unit :=
  modify (fun s => set_filters (Some (match _filters s with
                                      | None => []
                                      | Some fl => fl
                                      end ++ [flt])%list) s).

Definition clearFilters : M composite unit := modify (set_filters None).

(** [x[x<bound] = bound; return x] *)
Definition bndfunc (bound : Q) (x : pyval) : result pyval :=
  match x with
  | VArr d => Ok (VArr (map (fun q => if Qlt_le_dec q bound then bound else q) d))
  | _ => Raise TypeError
  end.

Definition addLowerBoundFilter (bound : Q) : M composite unit :=
  addFilter (bndfunc bound).

(** *** Construction *)

(** [s.strip()] and [s.split('m')] *)
Definition is_space (c : ascii) : bool :=
  bool_decide (c ∈ [" "; "009"; "010"; "011"; "012"; "013"]%char).

Fixpoint lstrip (s : string) : string :=
  match s with
  | String c s' => if is_space c then lstrip s' else s
  | EmptyString => EmptyString
  end.

Fixpoint rstrip (s : string) : string :=
  match s with
  | EmptyString => EmptyString
  | String c s' =>
      match rstrip s' with
      | EmptyString => if is_space c then EmptyString else String c EmptyString
      | r => String c r
      end
  end.

Definition strip (s : string) : string := rstrip (lstrip s).

Fixpoint split (sep : ascii) (s : string) : list string :=
  match s with
  | EmptyString => [EmptyString]
  | String c s' =>
      if Ascii.eqb c sep then EmptyString :: split sep s'
      else match split sep s' with
           | w :: ws => String c w :: ws
           | [] => [String c EmptyString]
           end
  end.

(** [l[1:-1]] *)
Definition inner {A} (l : list A) : list A := removelast (tail l).

Inductive operation :=
| OpString (s : string)
| OpSequence (l : list string).

Definition operators (operation : operation) (nmods : nat) : result (list string) :=
  match operation with
  | OpString s =>
      if (String.length (strip s) =? 1)%nat
      then Ok (repeat s (nmods - 1))
      else Ok (inner (split "m" s))
  | OpSequence l =>
      if negb (Z.of_nat (length l) =? Z.of_nat nmods - 1)%Z
      then Raise ValueError else Ok l
  end.

(** [l[i] = v] for an index [l.index(k)] found before. *)
Fixpoint index_of (p : string) (l : list string) : option nat :=
  match l with
  | [] => None
  | q :: l' => if String.eqb p q then Some O else option_map S (index_of p l')
  end.

(** The renaming loop over [parnames]. *)
Fixpoint rename (parnames : list (string * string)) (args : list string)
    (argmap : gmap string (nat * string))
  : result (list string * gmap string (nat * string)) :=
  match parnames with
  | [] => Ok (args, argmap)
  | (k, v) :: rest =>
      match index_of k args with
      | None => Raise KeyError
      | Some i =>
          if bool_decide (v ∈ args) then Raise ValueError else
          match argmap !! k with
          | None => Raise KeyError
          | Some tgt => rename rest (<[i := v]> args) (delete k (<[v := tgt]> argmap))
          end
      end
  end.

(** The loop that removes the suffix of a name when no other name of
    [cargs] starts with the bare name. [todo] is what is left of
    [enumerate(cargs)]. *)
Fixpoint shorten (renamed : list string) (cargs : list string)
    (todo : list (nat * string)) (args : list string)
    (argmap : gmap string (nat * string))
  : result (list string * gmap string (nat * string)) :=
  match todo with
  | [] => Ok (args, argmap)
  | (i, a) :: rest =>
      if bool_decide (a ∈ renamed) then shorten renamed cargs rest args argmap else
      match argmap !! a with
      | None => Raise KeyError
      | Some tgt =>
          let argname := tgt.2 in
          if existsb (fun ja => String.prefix argname ja.2 && negb (ja.1 =? i)%nat)
                     (imap pair cargs)
          then shorten renamed cargs rest args argmap
          else shorten renamed cargs rest (<[i := argname]> args)
                       (delete a (<[argname := tgt]> argmap))
      end
  end.

(** [CompositeModel1D.__init__], for sub-models given as instances: each
    has to be a [FunctionModel1D]. *)
Definition init (models : list model) (operation : operation)
    (parnames : gmap string string) (autoshorten : bool)
    (parvals : gmap string pyval) : result composite :=
  if negb (forallb (fun m => flattens (cls m)) models) then Raise ValueError else
  rbind (operators operation (length models)) (fun ops =>
  let named := flat_map (fun im => map (fun p => (p +:+ pretty im.1, (im.1, p)))
                                       (_pars im.2))
                        (imap pair models) in
  let args := map fst named in
  let argmap := fold_left (fun am kv => <[kv.1 := kv.2]> am) named ∅ in
  rbind (rename (map_to_list parnames) args argmap) (fun aa =>
  rbind (if autoshorten
         then shorten (map snd (map_to_list parnames)) aa.1 (imap pair aa.1) aa.1 aa.2
         else Ok aa) (fun aa =>
  let self := {| _models := models; _ops := ops; _opstr := build_opstr ops;
                 c_pars := aa.1; _argmap := aa.2; _filters := None;
                 c_filterfunc := ClassFilter; other_attrs := ∅ |} in
  let '(r, self) := for_each (map_to_list parvals)
                             (fun kv => setattr kv.1 kv.2) self in
  rbind r (fun _ => Ok self)))).

(** Two states of a composite whose sub-models agree. *)
Definition cagree (c c' : composite) : Prop :=
  Forall2 agree (_models c) (_models c') /\ _ops c' = _ops c /\
  _opstr c' = _opstr c /\ c_pars c' = c_pars c /\ _argmap c' = _argmap c /\
  _filters c' = _filters c.

(** The parameter [name] of the composite stands for a parameter of a
    sub-model that has the value [v]. *)
Definition reads (c : composite) (name : string) (v : pyval) : Prop :=
  exists i n m, name ∈ c_pars c /\ _argmap c !! name = Some (i, n) /\
    _models c !! i = Some m /\ stored m n = Some v.

(** The names with the number of their model as suffix, for two models,
    and what they stand for. *)
Definition suffixed (a b : model) : list (string * (nat * string)) :=
  map (fun p => (p +:+ "0", (0%nat, p))) (_pars a) ++
  map (fun p => (p +:+ "1", (1%nat, p))) (_pars b).

(** The pair of a sub-model and a parameter name of it. *)
Definition routes_into (models : list model) (tgt : nat * string) : Prop :=
  exists m, models !! tgt.1 = Some m /\ tgt.2 ∈ _pars m.

(** Two states of a composite with the same expression, filters and call
    mode, and the same class and call mode of each sub-model. *)
Definition built_alike (c c' : composite) : Prop :=
  _opstr c' = _opstr c /\ _filters c' = _filters c /\
  c_filterfunc c' = c_filterfunc c /\
  Forall2 (fun m m' => cls m' = cls m /\ _filterfunc m' = _filterfunc m)
          (_models c) (_models c').

(** Two states of a composite whose sub-models are in the same call
    modes. *)
Definition same_modes (c c' : composite) : Prop :=
  Forall2 same_mode (_models c) (_models c').

(** A later state of the composite [c0]: the expression and the classes of
    the sub-models are those of [c0], which no method assigns. *)
Definition later_state (c0 c : composite) : Prop :=
  _opstr c = _opstr c0 /\
  Forall2 (fun m0 m => cls m = cls m0) (_models c0) (_models c).

(** The call mode of the composite is the evaluation of [f] itself. *)
Definition plain_mode (c : composite) : Prop :=
  match c_filterfunc c with
  | Transformed _ _ => False
  | _ => True
  end.

(** Every parameter of the composite reads as a scalar. *)
Definition scalar_parameters (c : composite) : Prop :=
  Forall (fun name => exists v, (getattr name c).1 = Ok v /\ isscalar v = true)
         (c_pars c).

End Composite.

(** ** Example classes and objects *)

Module Examples.
Import FunctionModel.

(** [def f(self,x,m=1,b=0): return m*x+b] *)
Definition LinearModel : modelclass :=
  {| f := fun x pars =>
            match pars with
            | [m; b] => rbind (Numpy.mul m x) (fun mx => Numpy.add mx b)
            | _ => Raise TypeError
            end;
     descriptors := {["m" := VNum 1; "b" := VNum 0]};
     customFit := None;
     flattens := true |}.

(** [def f(self,x,C=0): return C*np.ones_like(x)] *)
Definition ConstantModel : modelclass :=
  {| f := fun x pars =>
            match pars with
            | [C] => rbind (Numpy.mul x (VNum 0)) (fun z =>
                     rbind (Numpy.add z (VNum 1)) (fun ones => Numpy.mul C ones))
            | _ => Raise TypeError
            end;
     descriptors := {["C" := VNum 0]};
     customFit := None;
     flattens := true |}.

(** A model without parameters: [def f(self,x): return np.ones_like(x)] *)
Definition UnitModel : modelclass :=
  {| f := fun x pars =>
            match pars with
            | [] => rbind (Numpy.mul x (VNum 0)) (fun z => Numpy.add z (VNum 1))
            | _ => Raise TypeError
            end;
     descriptors := ∅;
     customFit := None;
     flattens := true |}.

Definition GaussModel : Registry.pyclass :=
  {| Registry.cls_name := "GaussModel";
     Registry.cls_bases := ["FunctionModel1DAuto"; "FunctionModel1D";
                            "FunctionModel"; "ParametricModel"; "object"] |}.

Definition LorentzModel : Registry.pyclass :=
  {| Registry.cls_name := "LorentzModel";
     Registry.cls_bases := ["FunctionModel1DAuto"; "FunctionModel1D";
                            "FunctionModel"; "ParametricModel"; "object"] |}.

(** The statistic that the specification asks of [chi2Data]: Pearson's
    [sum((y - model(x))^2 / model(x))]. *)
Definition spec_pearson_chi2 (y fx : list Q) : Q :=
  Numpy.qsum (map (fun yf => ((yf.1 - yf.2) * (yf.1 - yf.2) / yf.2)%Q) (zip y fx)).

(** The objective that the specification asks of a raw contraction with a
    sum: [sum(w * (y - f(x,v)))]. *)
Definition spec_raw_sum (w y fxv : list Q) : Q :=
  Numpy.qsum (map (fun wr => (wr.1 * (wr.2.1 - wr.2.2))%Q) (zip w (zip y fxv))).

(** The signatures [f(self, x, a=2, b=3)] and [f(self, x=5, a=2)]. *)
Definition spec_x_a_b : AutoParams.argspec :=
  {| AutoParams.args := ["self"; "x"; "a"; "b"]; AutoParams.varargs := None;
     AutoParams.varkw := None;
     AutoParams.defaults := Some [VNum 2; VNum 3] |}.

Definition spec_x5_a : AutoParams.argspec :=
  {| AutoParams.args := ["self"; "x"; "a"]; AutoParams.varargs := None;
     AutoParams.varkw := None;
     AutoParams.defaults := Some [VNum 5; VNum 2] |}.

(** A class body with the evaluation function [ev] and no [__init__] of its
    own: [object.__init__] takes no keywords. *)
Definition class_body (ev : pyval -> list pyval -> result pyval)
  : AutoParams.classdef :=
  {| AutoParams.evaluate := ev; AutoParams.custom := None;
     AutoParams.one_dimensional := true; AutoParams.paramsname := None;
     AutoParams.paramsnames := None; AutoParams.class_attrs := ∅;
     AutoParams.object_init := fun kw =>
       if bool_decide (kw = ∅) then Ok tt else Raise TypeError |}.

Definition new (c : modelclass) (pars : list string) : model :=
  {| cls := c; _pars := pars; slots := ∅; attrs := ∅;
     _filterfunc := ClassFilter; fitteddata := None; lastfit := None;
     fixedpars := None |}.

Definition line : model := new LinearModel ["m"; "b"].
Definition constant : model := new ConstantModel ["C"].
Definition unit_model : model := new UnitModel [].

(** [CompositeModel1D((line, constant), '+')]: the names [m0], [b0] and
    [C1] are unique without their suffix. *)
Definition line_plus_constant : Composite.composite :=
  {| Composite._models := [line; constant];
     Composite._ops := ["+"];
     Composite._opstr := "mval[0]+mval[1]";
     Composite.c_pars := ["m"; "b"; "C"];
     Composite._argmap :=
       {["m" := (0%nat, "m"); "b" := (0%nat, "b"); "C" := (1%nat, "C")]};
     Composite._filters := None;
     Composite.c_filterfunc := ClassFilter;
     Composite.other_attrs := ∅ |}.

(** The same composite after [addLowerBoundFilter(5)]. *)
Definition clamped : Composite.composite :=
  Composite.set_filters (Some [Composite.bndfunc 5]) line_plus_constant.

(** [line] after [setCall(ytrans=lambda y: 2*y)]. *)
Definition doubled_line : model :=
  set_filterfunc (Transformed None (Some (Numpy.mul (VNum 2)))) line.

(** The composite [line_plus_constant] after the same [setCall]. *)
Definition doubled_composite : Composite.composite :=
  Composite.set_c_filterfunc (Transformed None (Some (Numpy.mul (VNum 2))))
                             line_plus_constant.

(** A class whose parameter has an array as declared default:
    [def f(self,x,a=np.ones(3)): return a*x] *)
Definition VectorModel : modelclass :=
  {| f := fun x pars =>
            match pars with
            | [a] => Numpy.mul a x
            | _ => Raise TypeError
            end;
     descriptors := {["a" := VArr [1; 1; 1]%Q]};
     customFit := None;
     flattens := true |}.

Definition vector : model := new VectorModel ["a"].

(** [a(x) + b(x)] *)
Definition sum_of_calls (x : pyval) (a b : model) : result pyval :=
  rbind (call x a).1 (fun ra => rbind (call x b).1 (fun rb => Numpy.add ra rb)).

(** An engine whose minimizers evaluate the objective at the start point
    and return it. *)
Definition as_numbers (v0 : list pyval) : list Q :=
  flat_map (fun v => match v with VNum q => [q] | _ => [] end) v0.

Definition one_step_engine : engine :=
  {| optimize := fun _ v0 =>
       Eval (as_numbers v0) (fun fopt => Return (VTuple [VArr (as_numbers v0); fopt]));
     chisqprob := fun _ _ => 0%Q |}.

End Examples.

(** ** Specifications of methods *)

Module Hoare.

(** From a state in [P], the method [c] returns a value and a state in [Q],
    or raises and leaves a state in [E]. *)
Definition triple {S A} (P : S -> Prop) (c : M S A) (Q : A -> S -> Prop)
    (E : S -> Prop) : Prop :=
  forall s, P s -> match c s with
                   | (Ok a, s') => Q a s'
                   | (Raise _, s') => E s'
                   end.

(** The method [c] keeps the invariant [I] whether it returns or raises, and
    what it returns is in [K]. *)
Definition yields {S A} (I : S -> Prop) (c : M S A) (K : A -> Prop) : Prop :=
  triple I c (fun a s => K a /\ I s) I.

End Hoare.

(** ** The end of a fit *)

Module Fit.
Import FunctionModel.

(** The statements of [fitData] after the run of the optimizer: [psres] holds
    the names of the free parameters and the result. *)
Definition commit (x y : pyval) (updatepars savedata : bool)
    (psres : list string * pyval) : M model pyval :=
  let ps := psres.1 in
  let res := psres.2 in
  modify (set_lastfit (Some res)) ;;;
  v <- lift (Numpy.item0 res) ;;
  v <- lift (match Numpy.item0 v with
             | Ok _ => Ok v
             | Raise IndexError => Ok (singleton_array v)
             | Raise e => Raise e
             end) ;;
  (if updatepars
   then items <- lift (Numpy.iterate v) ;;
        for_each (zip ps items) (fun pn => setattr pn.1 pn.2)
   else ret tt) ;;;
  (if savedata then modify (set_fitteddata (Some (x, y))) else ret tt) ;;;
  ret v.

(** [res] is what a run of the optimizer [t] returns, whatever the
    objective returns at the points where it is asked. *)
Inductive answers : optrun -> pyval -> Prop :=
| answers_return res : answers (Return res) res
| answers_eval v k r res : answers (k r) res -> answers (Eval v k) res.

(** [res] is what [fitData] has from the method of the fit, for a model of
    the class [c]: the answer of a routine of the engine, or what
    [_customFit] returns, made a tuple when its first item is no
    sequence. *)
Definition produced (eng : engine) (c : modelclass) (res : pyval) : Prop :=
  (exists name start, answers (optimize eng name start) res) \/
  (exists custom v x y fixed w r,
     customFit c = Some custom /\ custom v x y fixed w = Ok r /\
     (res = r \/ res = VTuple [r])).

(** The parameters that a fit leaves fixed: the argument [fixedpars], or the
    attribute of that name, or none. *)
Definition fixed_of (fixedpars_arg : option (list string)) (m : model) : list string :=
  match fixedpars_arg with
  | Some l => l
  | None => match fixedpars m with Some l => l | None => [] end
  end.



(** Every parameter has a value, under the names of [m0]. *)
Definition keeps_names (m0 : model) (s : model) : Prop :=
  _pars s = _pars m0 /\ fixedpars s = fixedpars m0 /\ initialised s.

End Fit.

(** ** Further example objects *)

Module Cases.
Import FunctionModel.

(** A class written by hand, without the metaclass: [_pars = ('A','B')] and
    [def f(self,x,A,B): return A*x+B]; its parameters are plain
    attributes. *)
Definition HandModel : modelclass :=
  {| f := fun x pars =>
            match pars with
            | [A; B] => rbind (Numpy.mul A x) (fun ax => Numpy.add ax B)
            | _ => Raise TypeError
            end;
     descriptors := ∅;
     customFit := None;
     flattens := true |}.

(** An instance on which [A] has been assigned and [B] has not. *)
Definition half_set : model :=
  {| cls := HandModel; _pars := ["A"; "B"]; slots := ∅;
     attrs := {["A" := VNum 5]}; _filterfunc := ClassFilter;
     fitteddata := None; lastfit := None; fixedpars := None |}.

End Cases.

(** ** [list_models] *)

Module Listing.
Import Registry.

(** [include] or [exclude] as given: one name, or a sequence of names. *)
Inductive names :=
| OneName (n : string)
| NameSeq (l : list string).

(** [if isinstance(n,basestring) or not isSequenceType(n): n = [n]] *)
Definition as_sequence (n : names) : list string :=
  match n with
  | OneName s => [s]
  | NameSeq l => l
  end.

(** The names listed before [include] and [exclude] are looked at: the keys
    of the registry, or those of the subclasses of [baseclass]. *)
Definition candidates (baseclass : option string) (reg : gmap string pyclass)
  : list string :=
  match baseclass with
  | Some b => map fst (filter (fun kc => issubclass kc.2 b) (map_to_list reg))
  | None => map fst (map_to_list reg)
  end.

(** [for m in include: if m not in res: raise ValueError; res = include]:
    the assignment is in the body of the loop. *)
Fixpoint include_loop (todo include res : list string) : result (list string) :=
  match todo with
  | [] => Ok res
  | m :: rest =>
      if bool_decide (m ∈ res) then include_loop rest include include
      else Raise ValueError
  end.

(** [for m in exclude: if m not in res: raise ValueError; res.remove(m)] *)
Fixpoint exclude_loop (todo res : list string) : result (list string) :=
  match todo with
  | [] => Ok res
  | m :: rest =>
      if bool_decide (m ∈ res)
      then rbind (AutoParams.remove m res) (exclude_loop rest)
      else Raise ValueError
  end.

Definition list_models (include exclude : option names)
    (baseclass : option string) : M (gmap string pyclass) (list string) :=
  reg <- get ;;
  let res := candidates baseclass reg in
  match include with
  | Some inc =>
      match exclude with
      | Some _ => raise TypeError
      | None =>
          let include := as_sequence inc in
          lift (include_loop include include res)
      end
  | None =>
      match exclude with
      | Some exc => lift (exclude_loop (as_sequence exc) res)
      | None => ret res
      end
  end.

End Listing.

(** ** Observations of a composite *)

Module CompositeViews.
Import FunctionModel.

(** No element of the output is below [bound]. *)
Definition at_least (bound : Q) (r : pyval) : Prop :=
  match r with
  | VNum q => (bound <= q)%Q
  | VArr d => Forall (fun q => (bound <= q)%Q) d
  | _ => False
  end.

(** The call mode of the composite applies no function to the output. *)
Definition output_untransformed (c : Composite.composite) : Prop :=
  match Composite.c_filterfunc c with
  | Transformed _ (Some _) => False
  | _ => True
  end.

(** The last filter of the composite is [g]. *)
Definition last_filter (g : pyval -> result pyval) (c : Composite.composite) : Prop :=
  exists fl, Composite._filters c = Some (fl ++ [g]).

End CompositeViews.

(** ** Residuals of data *)

Module Data.
Import FunctionModel.

(** [if x is None or y is None: ... x,y = self.fitteddata] *)
Definition fitted_or_given (x y : option pyval) : M model (pyval * pyval) :=
  match x, y with
  | Some x, Some y => ret (x, y)
  | _, _ =>
      m <- get ;;
      match fitteddata m with
      | None => raise ValueError
      | Some xy => ret xy
      end
  end.

(** [residuals(x=None, y=None, retdata=False)] *)
Definition residuals (x y : option pyval) (retdata : bool) : M model pyval :=
  xy <- fitted_or_given x y ;;
  let x := xy.1 in
  let y := xy.2 in
  out <- call x ;;
  osh <- lift (Numpy.shape out) ;;
  ysh <- lift (Numpy.shape y) ;;
  if negb (bool_decide (osh = ysh)) then raise ModelTypeError else
  out <- call x ;;
  d <- lift (Numpy.sub y out) ;;
  if retdata then ret (VTuple [x; y; d]) else ret d.

(** [y - out] for an output that has the shape of [y]. *)
Definition difference (y out : pyval) : result pyval :=
  rbind (Numpy.shape out) (fun osh =>
  rbind (Numpy.shape y) (fun ysh =>
  if bool_decide (osh = ysh) then Numpy.sub y out else Raise ModelTypeError)).

End Data.

(** ** [fitDataFixed] *)

Module FixedFit.
Import FunctionModel.
Import Composite(composite, _models, c_pars).

(** [self._models[i]] on the tuple of sub-models, for an integer [i]: a
    negative index counts from the end. *)
Definition model_at (c : composite) (i : Z) : result model :=
  let j := if (i <? 0)%Z then (i + Z.of_nat (length (_models c)))%Z else i in
  if (j <? 0)%Z then Raise IndexError else
  match _models c !! Z.to_nat j with
  | Some m => Ok m
  | None => Raise IndexError
  end.

(** [p+stri for p in self._models[i].params] *)
Definition names_of (m : model) (i : Z) : list string :=
  map (fun p => p +:+ pretty i) (_pars m).

(** [for i in fixedmods: for p in ...: fps.append(p+stri)] *)
Fixpoint fixed_names (c : composite) (mods : list Z) (fps : list string)
  : result (list string) :=
  match mods with
  | [] => Ok fps
  | i :: rest =>
      rbind (model_at c i) (fun m => fixed_names c rest (fps ++ names_of m i))
  end.

(** [for n in names: fps.remove(n)] *)
Fixpoint remove_each (names fps : list string) : result (list string) :=
  match names with
  | [] => Ok fps
  | n :: rest => rbind (AutoParams.remove n fps) (remove_each rest)
  end.

(** [for i in freemods: for p in ...: fps.remove(p+stri)] *)
Fixpoint free_names (c : composite) (mods : list Z) (fps : list string)
  : result (list string) :=
  match mods with
  | [] => Ok fps
  | i :: rest =>
      rbind (model_at c i) (fun m =>
      rbind (remove_each (names_of m i) fps) (free_names c rest))
  end.

(** [fitDataFixed] with the positional arguments [args] and sequences of
    integers as [fixedmods] and [freemods]. [fitData args fps] stands for
    the call of [self.fitData] with [args] and the keywords, after
    [kwargs['fixedpars'] = fps]; the assignment [args[3] = fps] is to a
    tuple. *)
Definition fitDataFixed {A} (args : list pyval) (fixedmods freemods : option (list Z))
    (fitData : list pyval -> list string -> M composite A) : M composite A :=
  c <- get ;;
  fps <- lift (match fixedmods, freemods with
               | Some _, Some _ => Raise TypeError
               | Some l, None => fixed_names c l []
               | None, Some l => free_names c l (c_pars c)
               | None, None => Raise TypeError
               end) ;;
  if (4 <=? length args)%nat then raise TypeError
  else fitData args fps.

End FixedFit.

(** ** [InputCoordinateTransformer] *)

Module Transformer.

(** A function object: what [inspect.getargspec] answers for it ([None] for
    a callable that is no Python function, for which it raises [TypeError])
    and what a call with the given arguments returns. *)
Record func := {
  spec : option AutoParams.argspec;
  run : list pyval -> result pyval
}.

(** A coordinate system: a name, or [None]. *)
Definition system : Type := option string.

(** An instance and its class. [_inputtransforms] is a dictionary of
    dictionaries; the inner dictionaries are objects of their own, kept in
    [inner] and named by their place there, since the dictionary of the
    class and that of an instance can hold the same one.
    [own_transforms] is the entry ['_inputtransforms'] of the [__dict__] of
    the instance, a [defaultdict(dict)]. *)
Record transformer := {
  inner : list (gmap system func);
  class_transforms : gmap system nat;
  own_transforms : option (gmap system nat);
  incoordsys : system;
  _fcoordsys : system
}.

Definition set_inner (h : list (gmap system func)) (t : transformer) :=
  {| inner := h; class_transforms := class_transforms t;
     own_transforms := own_transforms t; incoordsys := incoordsys t;
     _fcoordsys := _fcoordsys t |}.
Definition set_own (d : option (gmap system nat)) (t : transformer) :=
  {| inner := inner t; class_transforms := class_transforms t;
     own_transforms := d; incoordsys := incoordsys t;
     _fcoordsys := _fcoordsys t |}.

(** [self._inputtransforms[k]]: the dictionary of the instance when it has
    one, which makes a new inner dictionary for a missing key, and that of
    the class otherwise. *)
Definition outer_item (k : system) : M transformer nat :=
  t <- get ;;
  match own_transforms t with
  | None =>
      match class_transforms t !! k with
      | Some l => ret l
      | None => raise KeyError
      end
  | Some d =>
      match d !! k with
      | Some l => ret l
      | None =>
          let l := length (inner t) in
          modify (fun t => set_own (Some (<[k := l]> d))
                             (set_inner (inner t ++ [∅]) t)) ;;;
          ret l
      end
  end.

(** [transformCoordinates(x, incoordsys=None, outcoordsys=None)] *)
Definition transformCoordinates (x : pyval) (incoordsys_arg outcoordsys_arg : system)
  : M transformer pyval :=
  t <- get ;;
  let inc := match incoordsys_arg with None => incoordsys t | s => s end in
  let out := match outcoordsys_arg with None => _fcoordsys t | s => s end in
  if bool_decide (inc = out) then ret x else
  l <- outer_item inc ;;
  t <- get ;;
  match inner t !! l with
  | None => raise KeyError
  | Some d =>
      match d !! out with
      | None => raise KeyError
      | Some f => lift (rbind (Numpy.iterate x) (run f))
      end
  end.

(** The [try] block of [addTransform] passes: [len(defaults)] is a
    [TypeError] for a function without default values. *)
Definition accepts (f : func) : bool :=
  match spec f with
  | None => false
  | Some s =>
      match AutoParams.defaults s with
      | None => false
      | Some ds =>
          negb ((Z.of_nat (length (AutoParams.args s)) - 1
                 >? Z.of_nat (length ds))%Z
                || bool_decide (is_Some (AutoParams.varkw s)))
      end
  end.

(** [addTransform(input, output, func)]: [dd] is bound only when the
    instance has no dictionary of its own yet; the [UnboundLocalError]
    otherwise is a [NameError]. *)
Definition addTransform (input output : system) (f : func) : M transformer unit :=
  if negb (accepts f) then raise TypeError else
  t <- get ;;
  match own_transforms t with
  | Some _ => raise NameError
  | None =>
      modify (set_own (Some (class_transforms t))) ;;;
      l <- outer_item input ;;
      t <- get ;;
      match inner t !! l with
      | None => raise KeyError
      | Some d => modify (set_inner (<[l := <[output := f]> d]> (inner t)))
      end
  end.

(** Every inner dictionary that the class or the instance holds is in the
    store. *)
Definition well_formed (t : transformer) : Prop :=
  (forall k l, class_transforms t !! k = Some l -> l < length (inner t)) /\
  (forall d k l, own_transforms t = Some d -> d !! k = Some l ->
     l < length (inner t)).

(** Another instance of the class, which has no dictionary of its own, in
    the store that [t] leaves. *)
Definition sibling (t : transformer) : transformer := set_own None t.

(** [def swap(a, b=0): return b, a], and an instance of a class with
    [_inputtransforms = {'polar': {'cartesian': swap}}]. *)
Definition swap_example : func :=
  {| spec := Some {| AutoParams.args := ["a"; "b"]; AutoParams.varargs := None;
                     AutoParams.varkw := None;
                     AutoParams.defaults := Some [VNum 0] |};
     run := fun l => match l with
                     | [a] => Ok (VTuple [VNum 0; a])
                     | [a; b] => Ok (VTuple [b; a])
                     | _ => Raise TypeError
                     end |}.

Definition polar_example : transformer :=
  {| inner := [{[Some "cartesian" := swap_example]}];
     class_transforms := {[Some "polar" := 0]};
     own_transforms := None;
     incoordsys := Some "polar";
     _fcoordsys := Some "cartesian" |}.

End Transformer.

(** ** Models with an offset or a scale *)

Module Generators.
Import FunctionModel.

(** [offset_model(model, pname='C', **kwargs)], for a model given as an
    instance; [constant] is the instance of [ConstantModel] that the
    constructor of the composite makes. [('+')] is the string ['+']. *)
Definition offset_model (model constant : model) (pname : string)
    (kwargs : gmap string pyval) : result Composite.composite :=
  Composite.init [model; constant] (Composite.OpString "+")
                 {["C1" := pname]} true kwargs.

(** [scale_model(model, pname='A', **kwargs)] *)
Definition scale_model (model constant : model) (pname : string)
    (kwargs : gmap string pyval) : result Composite.composite :=
  rbind (Composite.init [model; constant] (Composite.OpString "*")
                        {["C1" := pname]} true kwargs) (fun cm =>
  if bool_decide (is_Some (kwargs !! pname)) then Ok cm
  else let '(r, cm) := Composite.setattr pname (VNum 1) cm in
       rbind r (fun _ => Ok cm)).

End Generators.

(** ** Sub-models by reference *)

Module Shared.
Import FunctionModel.
Import Composite(composite, _models, c_pars, _argmap).

(** A composite and the objects it refers to. The tuple [_models] holds
    references: an instance that the constructor is given twice is one
    object. [objects] is the store of the sub-model objects, [refs] the
    tuple [_models] as places in the store, and [self] has the other
    attributes of the composite; its sub-models by value are not read
    here. *)
Record shared := {
  objects : list model;
  refs : list nat;
  self : composite
}.

Definition set_objects (g : list model -> list model) (s : shared) :=
  {| objects := g (objects s); refs := refs s; self := self s |}.
Definition set_self (g : composite -> composite) (s : shared) :=
  {| objects := objects s; refs := refs s; self := g (self s) |}.

(** A method of the object [self._models[i]]. A place outside the store,
    which no reference is, counts as a missing item. *)
Definition on_object {A} (i : nat) (op : M model A) : M shared A := fun s =>
  match refs s !! i with
  | None => (Raise IndexError, s)
  | Some a =>
      match objects s !! a with
      | None => (Raise IndexError, s)
      | Some m => let '(r, m') := op m in (r, set_objects (<[a := m']>) s)
      end
  end.

(** [__getattr__] and [__setattr__] *)
Definition getattr (name : string) : M shared pyval :=
  s <- get ;;
  if bool_decide (name ∈ c_pars (self s)) then
    match _argmap (self s) !! name with
    | None => raise KeyError
    | Some (i, n) => on_object i (FunctionModel.getattr n)
    end
  else raise AttributeError.

Definition setattr (name : string) (val : pyval) : M shared unit :=
  s <- get ;;
  if bool_decide (name ∈ c_pars (self s)) then
    match _argmap (self s) !! name with
    | None => raise KeyError
    | Some (i, n) => on_object i (FunctionModel.setattr n val)
    end
  else modify (set_self (Composite.set_other (insert name (Composite.Value val)))).

(** The sub-models that the references show, and the composite that has
    them by value. *)
Definition shown (s : shared) : list model :=
  omap (fun a => objects s !! a) (refs s).

Definition by_value (s : shared) : composite :=
  Composite.set_models (fun _ => shown s) (self s).

(** The sub-models are distinct objects of the store. *)
Definition distinct (s : shared) : Prop :=
  NoDup (refs s) /\ forall a, a ∈ refs s -> a < length (objects s).

(** [l = LinearModel(); CompositeModel1D((l, l))]: one object under the
    names [m0], [b0] and [m1], [b1]. *)
Definition line_twice : shared :=
  {| objects := [Examples.line];
     refs := [0; 0];
     self := {| Composite._models := [Examples.line; Examples.line];
                Composite._ops := ["+"];
                Composite._opstr := "mval[0]+mval[1]";
                Composite.c_pars := ["m0"; "b0"; "m1"; "b1"];
                Composite._argmap :=
                  {["m0" := (0, "m"); "b0" := (0, "b");
                    "m1" := (1, "m"); "b1" := (1, "b")]};
                Composite._filters := None;
                Composite.c_filterfunc := ClassFilter;
                Composite.other_attrs := ∅ |} |}.

End Shared.

(** * Properties *)

Section RegistryFacts.
Import Registry Examples.

Lemma register_model_present model name overwrite stripmodel reg :
  issubclass model "ParametricModel" = true ->
  is_Some (reg !! registry_name model name stripmodel) ->
  register_model model name overwrite stripmodel reg =
    if overwrite then (Raise KeyError, reg)
    else (Ok tt, <[registry_name model name stripmodel := model]> reg).
Proof.
  intros Hsub Hin. unfold register_model. rewrite Hsub. cbn.
  unfold bind, get. rewrite bool_decide_eq_true_2 by done.
  destruct overwrite; reflexivity.
Qed.

Lemma register_model_absent model name overwrite stripmodel reg :
  issubclass model "ParametricModel" = true ->
  reg !! registry_name model name stripmodel = None ->
  register_model model name overwrite stripmodel reg =
    (Ok tt, <[registry_name model name stripmodel := model]> reg).
Proof.
  intros Hsub Hin. unfold register_model. rewrite Hsub. cbn.
  unfold bind, get. rewrite bool_decide_eq_false_2.
  - rewrite andb_false_r. reflexivity.
  - rewrite Hin. intros [? ?]; discriminate.
Qed.

Lemma get_model_registered name c reg :
  reg !! name = Some c ->
  get_model (ByName name) None reg = (Ok c, reg).
Proof. intros H. unfold get_model, bind, get, ret. rewrite H. reflexivity. Qed.

Example registry_name_gauss : registry_name GaussModel None true = "gauss".
Proof. reflexivity. Qed.

(** C1 (the code differs): with "gauss" registered, registering another class
    under that name without [overwrite] returns and replaces the entry, where
    the documentation announces a [KeyError]; with [overwrite] it raises the
    [KeyError] and keeps the entry, where the documentation announces a silent
    replacement. The test of [overwrite] is inverted. *)
Theorem register_model_duplicate_inverted :
  register_model LorentzModel (Some "Gauss") false true {["gauss" := GaussModel]}
    = (Ok tt, {["gauss" := LorentzModel]})
  /\ register_model LorentzModel (Some "Gauss") true true {["gauss" := GaussModel]}
    = (Raise KeyError, {["gauss" := GaussModel]}).
Proof.
  split.
  - rewrite register_model_present; [| reflexivity | by eexists].
    cbn. by rewrite insert_singleton_eq.
  - rewrite register_model_present; [| reflexivity | by eexists]. reflexivity.
Qed.

End RegistryFacts.

Section AutoParamsFacts.
Import FunctionModel AutoParams Examples.

Lemma iter_cons_replicate {A} (k : nat) (x : A) (l : list A) :
  Nat.iter k (cons x) l = replicate k x ++ l.
Proof.
  induction k as [|k IH]; [reflexivity|].
  change (x :: Nat.iter k (cons x) l = x :: replicate k x ++ l). by f_equal.
Qed.

Lemma zip_lookup {A B} (a : list A) (b : list B) i x y :
  a !! i = Some x -> b !! i = Some y -> zip a b !! i = Some (x, y).
Proof.
  revert b i. induction a as [|x' a IH]; intros [|y' b] [|i]; cbn; try done.
  - congruence.
  - apply IH.
Qed.

Lemma zip_fst_elem {A B} (a : list A) (b : list B) x y :
  (x, y) ∈ zip a b -> x ∈ a.
Proof.
  revert b. induction a as [|x' a IH]; intros [|y' b]; cbn;
    rewrite ?elem_of_nil, ?elem_of_cons; try done.
  intros [[= -> ->] | H]; [by left | right; eauto].
Qed.

Lemma zip_NoDup_fst {A B} (a : list A) (b : list B) :
  NoDup a -> NoDup (zip a b).*1.
Proof.
  revert b. induction a as [|x a IH]; intros [|y b] Hnd; cbn; try constructor.
  - inversion_clear Hnd as [|?? Hx Ha].
    intros Hin. apply Hx. apply list_elem_of_fmap in Hin as [[x' y'] [-> Hin]].
    by apply zip_fst_elem in Hin.
  - inversion_clear Hnd. by apply IH.
Qed.

(** Filing pairs with distinct keys one after the other. *)
Lemma fold_insert_lookup {V} (pairs : list (string * V)) (m : gmap string V) k v :
  NoDup pairs.*1 -> (k, v) ∈ pairs ->
  fold_left (fun d kv => <[kv.1 := kv.2]> d) pairs m !! k = Some v.
Proof.
  revert m. induction pairs as [|[k' v'] pairs IH]; intros m Hnd Hin; cbn.
  - by apply elem_of_nil in Hin.
  - cbn in Hnd. inversion_clear Hnd as [|?? Hk' Hnd'].
    apply elem_of_cons in Hin as [[= -> ->] | Hin].
    + clear IH. revert m. induction pairs as [|[k'' v''] pairs IH]; intros m; cbn.
      * by rewrite lookup_insert_eq.
      * cbn in Hk', Hnd'. inversion_clear Hnd'.
        rewrite insert_insert_ne.
        2:{ intros ->. apply Hk'. left. }
        apply IH; [|done]. intros H'. apply Hk'. by right.
    + by apply IH.
Qed.

Lemma fold_insert_other {V} (pairs : list (string * V)) (m : gmap string V) k :
  k ∉ pairs.*1 ->
  fold_left (fun d kv => <[kv.1 := kv.2]> d) pairs m !! k = m !! k.
Proof.
  revert m. induction pairs as [|[k' v'] pairs IH]; intros m Hk; cbn; [done|].
  cbn in Hk. rewrite IH.
  - rewrite lookup_insert_ne; [done|]. intros ->. apply Hk. left.
  - intros H. apply Hk. by right.
Qed.

(** When the data argument has no default of its own, every remaining
    argument becomes a parameter with its declared default, or 1. *)
Lemma meta_init_defaults spec inherited data rest :
  varkw spec = None ->
  without_self (args spec) = data :: rest ->
  NoDup rest ->
  (length (default [] (defaults spec)) <= length rest)%nat ->
  exists a, meta_init (Some spec) inherited = Ok a /\
    auto_statargs a = rest /\
    (varargs spec = None -> auto_pars a = Some rest) /\
    forall i name, rest !! i = Some name ->
      auto_descriptors a !! name =
        Some (declared_default (default [] (defaults spec)) (length rest) i).
Proof.
  intros Hkw Hargs Hnd Hlen. unfold meta_init. rewrite Hkw, Hargs.
  set (ds := default [] (defaults spec)) in *.
  assert (Hds : match defaults spec with None => [] | Some d => d end = ds)
    by (subst ds; by destruct (defaults spec)).
  rewrite Hds.
  set (ds' := if negb (length rest =? length ds)%nat
              then Nat.iter (length rest - length ds) (cons (VNum 1)) ds else ds).
  assert (Hds' : ds' = replicate (length rest - length ds) (VNum 1) ++ ds).
  { subst ds'. destruct (Nat.eqb_spec (length rest) (length ds)) as [E|E]; cbn.
    - by rewrite E, Nat.sub_diag.
    - apply iter_cons_replicate. }
  assert (Hlook : forall i name, rest !! i = Some name ->
    fold_left (fun d ad => <[ad.1 := ad.2]> d) (zip rest ds') inherited !! name =
      Some (declared_default ds (length rest) i)).
  { intros i name Hi. apply fold_insert_lookup; [by apply zip_NoDup_fst|].
    apply list_elem_of_lookup. exists i. apply zip_lookup; [done|].
    rewrite Hds'. unfold declared_default.
    pose proof (lookup_lt_Some _ _ _ Hi) as Hlt.
    destruct (Nat.ltb_spec i (length rest - length ds)) as [Hi'|Hi'].
    - rewrite lookup_app_l by (rewrite length_replicate; lia).
      by rewrite lookup_replicate_2.
    - rewrite lookup_app_r by (rewrite length_replicate; lia).
      rewrite length_replicate.
      destruct (ds !! (i - (length rest - length ds))%nat) eqn:E; [done|].
      apply lookup_ge_None in E. lia. }
  destruct (varargs spec); eexists; (split; [reflexivity|]); cbn;
    (split; [reflexivity|]); (split; [done|]); exact Hlook.
Qed.

(** The example of the specification: [f(self, x, a=2, b=3)] gives the
    parameters [('a','b')] with the values [(2, 3)]. *)
Lemma autoparams_example ev :
  exists a m m',
    meta_init (Some spec_x_a_b) ∅ = Ok a /\
    meta_call a (class_body ev) [] ∅ = Ok m /\
    _pars m = ["a"; "b"] /\
    _getParvals m = (Ok [VNum 2; VNum 3], m').
Proof. do 3 eexists. repeat split; reflexivity. Qed.

(** C6 (the code differs): for [f(self, x=5, a=2)] the parameter [a] gets the
    default 5 of the data argument, not its declared default 2: after [self]
    and the data argument are removed from the names, the defaults are still
    those of the whole signature and are paired from the left. *)
Theorem autoparams_data_default_misaligned :
  exists a, meta_init (Some spec_x5_a) ∅ = Ok a /\
    auto_pars a = Some ["a"] /\
    auto_descriptors a !! "a" = Some (VNum 5) /\
    forall ev, exists m m',
      meta_call a (class_body ev) [] ∅ = Ok m /\
      _pars m = ["a"] /\
      _getParvals m = (Ok [VNum 5], m').
Proof.
  eexists. split; [reflexivity|]. split; [reflexivity|]. split; [reflexivity|].
  intros ev. do 2 eexists. repeat split; reflexivity.
Qed.

End AutoParamsFacts.

Section ParameterFacts.
Import FunctionModel.

Lemma frame_refl m : frame m m.
Proof. by repeat split. Qed.

Lemma frame_trans m1 m2 m3 : frame m1 m2 -> frame m2 m3 -> frame m1 m3.
Proof.
  intros (?&?&?&?&?) (?&?&?&?&?). repeat split; etrans; eauto.
Qed.

Lemma agree_refl m : agree m m.
Proof. split; [apply frame_refl | done]. Qed.

Lemma agree_trans m1 m2 m3 : agree m1 m2 -> agree m2 m3 -> agree m1 m3.
Proof.
  intros [F1 S1] [F2 S2]. split; [by eapply frame_trans|].
  intros a. by rewrite S2, S1.
Qed.

Lemma agree_sym m1 m2 : agree m1 m2 -> agree m2 m1.
Proof. intros [(?&?&?&?&?) S1]. by repeat split. Qed.

Lemma agree_initialised m m' : agree m m' -> initialised m -> initialised m'.
Proof.
  intros [(_&Hp&_) Hs] Hi a Ha. rewrite Hs. apply Hi. by rewrite <- Hp.
Qed.

(** *** Reading and writing one attribute *)

Lemma getattr_result m a :
  (getattr a m).1 = match stored m a with
                    | Some v => Ok v
                    | None => Raise AttributeError
                    end.
Proof.
  unfold getattr, stored. destruct (descriptors (cls m) !! a).
  - by destruct (slots m !! a).
  - by destruct (attrs m !! a).
Qed.

Lemma getattr_agree m a : agree m (getattr a m).2.
Proof.
  unfold getattr. destruct (descriptors (cls m) !! a) as [d|] eqn:Hd.
  - destruct (slots m !! a) eqn:Hs; [apply agree_refl|].
    split; [by repeat split|]. intros b. unfold stored; cbn.
    destruct (descriptors (cls m) !! b) as [d'|] eqn:Hb; [|done].
    destruct (decide (a = b)) as [<-|Hne].
    + rewrite lookup_insert_eq, Hs. cbn. congruence.
    + by rewrite lookup_insert_ne.
  - destruct (attrs m !! a); apply agree_refl.
Qed.

Lemma getattr_stored m a v :
  stored m a = Some v -> exists m', getattr a m = (Ok v, m') /\ agree m m'.
Proof.
  intros H. exists (getattr a m).2. split; [|apply getattr_agree].
  pose proof (getattr_result m a) as Hr. rewrite H in Hr.
  destruct (getattr a m) as [r m']. cbn in *. by subst.
Qed.

Lemma getattr_missing m a :
  stored m a = None -> exists m', getattr a m = (Raise AttributeError, m') /\ agree m m'.
Proof.
  intros H. exists (getattr a m).2. split; [|apply getattr_agree].
  pose proof (getattr_result m a) as Hr. rewrite H in Hr.
  destruct (getattr a m) as [r m']. cbn in *. by subst.
Qed.

Lemma setattr_frame m a v : frame m (setattr a v m).2.
Proof.
  unfold setattr. destruct (descriptors (cls m) !! a); [destruct (isscalar v)|];
    by repeat split.
Qed.

Lemma setattr_filterfunc m a v : _filterfunc (setattr a v m).2 = _filterfunc m.
Proof.
  unfold setattr. by destruct (descriptors (cls m) !! a); [destruct (isscalar v)|].
Qed.

(** A scalar can be assigned to every parameter, and only the assigned
    parameter changes. *)
Lemma setattr_scalar m a v :
  isscalar v = true ->
  exists m', setattr a v m = (Ok tt, m') /\ frame m m' /\
    stored m' a = Some v /\ forall b, b <> a -> stored m' b = stored m b.
Proof.
  intros Hv. unfold setattr. destruct (descriptors (cls m) !! a) as [d|] eqn:Hd.
  - rewrite Hv. eexists. split; [reflexivity|]. split; [by repeat split|].
    unfold stored; cbn. rewrite Hd, lookup_insert_eq. split; [done|].
    intros b Hb. destruct (descriptors (cls m) !! b); [|done].
    by rewrite lookup_insert_ne.
  - eexists. split; [reflexivity|]. split; [by repeat split|].
    unfold stored; cbn. rewrite Hd, lookup_insert_eq. split; [done|].
    intros b Hb. destruct (descriptors (cls m) !! b); [done|].
    by rewrite lookup_insert_ne.
Qed.

(** Assigning to an attribute the value that it has changes no value. *)
Lemma setattr_same m a v :
  stored m a = Some v -> isscalar v = true ->
  exists m', setattr a v m = (Ok tt, m') /\ agree m m'.
Proof.
  intros Hs Hv. destruct (setattr_scalar m a v Hv) as (m'&E&F&Ha&Hb).
  exists m'. split; [done|]. split; [done|]. intros b.
  destruct (decide (b = a)) as [->|Hne]; [congruence | by apply Hb].
Qed.

(** *** Loops over attributes *)

Lemma for_each_setattr (l : list (string * pyval)) m :
  Forall (fun kv => isscalar kv.2 = true) l -> NoDup l.*1 ->
  exists m', for_each l (fun kv => setattr kv.1 kv.2) m = (Ok tt, m') /\
    frame m m' /\ _filterfunc m' = _filterfunc m /\
    (forall k v, (k, v) ∈ l -> stored m' k = Some v) /\
    (forall k, k ∉ l.*1 -> stored m' k = stored m k).
Proof.
  revert m. induction l as [|[k v] l IH]; intros m Hsc Hnd; cbn.
  - exists m. split; [done|]. split; [apply frame_refl|]. split; [done|].
    split; [|done]. intros ?? H. by apply elem_of_nil in H.
  - inversion_clear Hsc as [|?? Hv Hsc']. cbn in Hnd.
    inversion_clear Hnd as [|?? Hk Hnd'].
    destruct (setattr_scalar m k v Hv) as (m1&E1&F1&Hk1&Ho1).
    destruct (IH m1 Hsc' Hnd') as (m'&E&F&Hff&Hin&Hout).
    exists m'. unfold bind. cbn in E1. rewrite E1. split; [exact E|].
    split; [by eapply frame_trans|].
    split.
    { rewrite Hff. pose proof (setattr_filterfunc m k v) as Hf.
      by rewrite E1 in Hf. }
    split.
    + intros k' v' [[= -> ->] | H']%elem_of_cons; [|by apply Hin].
      by rewrite Hout.
    + intros k' Hk'. rewrite Hout.
      * apply Ho1. intros ->. apply Hk'. left.
      * intros H'. apply Hk'. by right.
Qed.

Lemma for_each_default (l : list string) m :
  exists m', for_each l (fun p => setattr p defaultparval) m = (Ok tt, m') /\
    frame m m' /\ forall p, p ∈ l -> stored m' p = Some defaultparval.
Proof.
  revert m. induction l as [|p l IH]; intros m; cbn.
  - exists m. split; [done|]. split; [apply frame_refl|].
    intros ? H. by apply elem_of_nil in H.
  - destruct (setattr_scalar m p defaultparval eq_refl) as (m1&E1&F1&Hk1&Ho1).
    destruct (IH m1) as (m'&E&F&Hin).
    exists m'. unfold bind. rewrite E1. split; [exact E|].
    split; [by eapply frame_trans|].
    intros q Hq. destruct (decide (q ∈ l)) as [Hl|Hl]; [by apply Hin|].
    apply elem_of_cons in Hq as [->|?]; [|done].
    clear -E Hk1 Hl. revert m1 E Hk1. induction l as [|p' l IH]; intros m1 E Hk1.
    + cbn in E. by inversion E; subst.
    + cbn in E. unfold bind in E.
      destruct (setattr_scalar m1 p' defaultparval eq_refl) as (m2&E2&_&_&Ho2).
      rewrite E2 in E. eapply IH; [|exact E|].
      * intros H. apply Hl. by right.
      * rewrite Ho2; [done|]. intros ->. apply Hl. left.
Qed.

Lemma autoInitPars_total m :
  exists m', _autoInitPars m = (Ok tt, m') /\ frame m m' /\ initialised m' /\
    forall a, a ∈ _pars m -> stored m' a = Some defaultparval.
Proof.
  unfold _autoInitPars, bind, get.
  destruct (for_each_default (_pars m) m) as (m'&E&F&H).
  exists m'. split; [done|]. split; [done|]. split; [|done].
  intros a Ha. destruct F as (_&Hp&_). rewrite Hp in Ha. rewrite H; eauto.
Qed.

(** Reading a list of attributes: the values if all are set, else an
    [AttributeError]; the values stay what they are. *)
Lemma comprehension_getattr (l : list string) m :
  exists m', agree m m' /\
    comprehension l getattr m =
      (match mapM (stored m) l with
       | Some vs => Ok vs
       | None => Raise AttributeError
       end, m').
Proof.
  revert m. induction l as [|a l IH]; intros m; cbn.
  - exists m. split; [apply agree_refl | done].
  - unfold bind. destruct (stored m a) as [v|] eqn:Hs.
    + destruct (getattr_stored m a v Hs) as (m1&E1&A1). rewrite E1.
      destruct (IH m1) as (m'&A&E). rewrite E. exists m'.
      split; [by eapply agree_trans|].
      assert (Hm : mapM (stored m1) l = mapM (stored m) l).
      { clear -A1. destruct A1 as [_ A1]. induction l as [|b l IH]; cbn; [done|].
        by rewrite A1, IH. }
      rewrite Hm. cbn. by destruct (mapM (stored m) l).
    + destruct (getattr_missing m a Hs) as (m1&E1&A1). rewrite E1.
      exists m1. by split.
Qed.

Lemma mapM_stored_initialised m :
  initialised m -> is_Some (mapM (stored m) (_pars m)).
Proof.
  unfold initialised. generalize (_pars m). intros l H.
  induction l as [|a l IH]; cbn; [by eexists|].
  destruct (H a) as [v Hv]; [left|]. rewrite Hv. cbn.
  destruct IH as [vs Hvs]; [intros b Hb; apply H; by right|].
  rewrite Hvs. by eexists.
Qed.

Lemma mapM_stored_agree m m' l :
  agree m m' -> mapM (stored m') l = mapM (stored m) l.
Proof.
  intros [_ A]. induction l as [|b l IH]; cbn; [done|]. by rewrite A, IH.
Qed.

(** *** The parameter values *)

Lemma getParvals_rec_initialised d m :
  initialised m ->
  exists pv m', _getParvals_rec (S d) m = (Ok pv, m') /\ agree m m' /\
    mapM (stored m) (_pars m) = Some pv.
Proof.
  intros Hi. destruct (mapM_stored_initialised m Hi) as [pv Hpv].
  destruct (comprehension_getattr (_pars m) m) as (m'&A&E).
  exists pv, m'. cbn. unfold try_except, bind, get. rewrite E, Hpv.
  split; [reflexivity|]. split; [assumption | reflexivity].
Qed.

Lemma getParvals_rec_total d m :
  exists pv m', _getParvals_rec (S (S d)) m = (Ok pv, m') /\ frame m m' /\
    initialised m' /\ mapM (stored m') (_pars m') = Some pv.
Proof.
  destruct (comprehension_getattr (_pars m) m) as (m1&A1&E1).
  change (_getParvals_rec (S (S d)) m) with
    (try_except (m <- get ;; comprehension (_pars m) getattr)
       (is_exn AttributeError) (_autoInitPars ;;; _getParvals_rec (S d)) m).
  unfold try_except, bind at 1, get. rewrite E1.
  destruct (mapM (stored m) (_pars m)) as [pv|] eqn:Hpv.
  - exists pv, m1. split; [done|]. split; [apply A1|].
    assert (Hp : _pars m1 = _pars m) by apply A1.
    split.
    + eapply agree_initialised; [exact A1|].
      intros a Ha. apply mapM_Some in Hpv.
      apply list_elem_of_lookup in Ha as [i Hi].
      destruct (Forall2_lookup_l _ _ _ _ _ Hpv Hi) as (v&_&Hv). by eexists.
    + rewrite Hp. by rewrite (mapM_stored_agree m m1).
  - cbn. unfold bind.
    destruct (autoInitPars_total m1) as (m2&E2&F2&I2&_). rewrite E2.
    destruct (getParvals_rec_initialised d m2 I2) as (pv&m'&E&A&Hpv').
    exists pv, m'. split; [done|].
    split; [eapply frame_trans; [apply A1|]; eapply frame_trans; [apply F2 | apply A]|].
    split; [by eapply agree_initialised|].
    assert (Hp : _pars m' = _pars m2) by apply A.
    rewrite Hp. by rewrite (mapM_stored_agree m2 m').
Qed.

Lemma recursion_limit_unfold : recursion_limit = S (S 998).
Proof. reflexivity. Qed.

Lemma getParvals_total m :
  exists pv m', _getParvals m = (Ok pv, m') /\ frame m m' /\
    initialised m' /\ mapM (stored m') (_pars m') = Some pv.
Proof. unfold _getParvals. rewrite recursion_limit_unfold. apply getParvals_rec_total. Qed.

Lemma getParvals_initialised m :
  initialised m ->
  exists pv m', _getParvals m = (Ok pv, m') /\ agree m m' /\
    mapM (stored m) (_pars m) = Some pv.
Proof.
  unfold _getParvals. rewrite recursion_limit_unfold. apply getParvals_rec_initialised.
Qed.

Lemma getParvals_length m pv m' :
  _getParvals m = (Ok pv, m') -> length pv = length (_pars m).
Proof.
  intros E. destruct (getParvals_total m) as (pv'&m''&E'&F&_&Hpv).
  rewrite E in E'. inversion E'; subst.
  apply length_mapM in Hpv. destruct F as (_&Hp&_). by rewrite <- Hpv, Hp.
Qed.

Lemma zip_fst_take {A B} (a : list A) (b : list B) :
  (zip a b).*1 = take (length b) a.
Proof.
  revert b. induction a as [|x a IH]; intros [|y b]; cbn; try done.
  by rewrite IH.
Qed.

Lemma zip_snd_elem {A B} (a : list A) (b : list B) x y :
  (x, y) ∈ zip a b -> y ∈ b.
Proof.
  revert b. induction a as [|x' a IH]; intros [|y' b]; cbn;
    rewrite ?elem_of_nil, ?elem_of_cons; try done.
  intros [[= -> ->] | H]; [by left | right; eauto].
Qed.

(** X27: for a model with unique parameter names whose class keeps the
    attribute assignment of [FunctionModel], assigning [k] scalars to
    [parvals] returns when [k] is at most the number [m] of parameters; the
    first [k] parameters then have the new values and the others are as
    they were, set or not. With [k > m] the assignment raises [ValueError]
    and changes nothing. *)
Theorem setParvals_prefix (m : model) (newpars : list pyval) :
  NoDup (_pars m) ->
  Forall (fun v => isscalar v = true) newpars ->
  (length newpars <= length (_pars m) ->
     exists m', _setParvals newpars m = (Ok tt, m') /\ _pars m' = _pars m /\
       (forall i p v, _pars m !! i = Some p -> newpars !! i = Some v ->
          stored m' p = Some v) /\
       (forall i p, _pars m !! i = Some p -> length newpars <= i ->
          stored m' p = stored m p))
  /\ (length (_pars m) < length newpars ->
       _setParvals newpars m = (Raise ValueError, m)).
Proof.
  intros Hnd Hsc. split.
  - intros Hlen. unfold _setParvals, bind, get.
    destruct (Nat.ltb_spec (length (_pars m)) (length newpars)) as [?|_]; [lia|].
    destruct (for_each_setattr (zip (_pars m) newpars) m) as (m'&E&F'&_&Hin&Hout).
    { apply Forall_forall. intros [k v] Hkv. cbn.
      rewrite Forall_forall in Hsc. apply Hsc. by eapply zip_snd_elem. }
    { by apply zip_NoDup_fst. }
    exists m'. split; [exact E|]. split; [by destruct F' as (_&->&_)|]. split.
    + intros i p v Hp Hv. apply Hin, list_elem_of_lookup. exists i.
      by apply zip_lookup.
    + intros i p Hp Hi. apply Hout. rewrite zip_fst_take. intros Hin'.
      apply list_elem_of_lookup in Hin' as [j Hj].
      pose proof (lookup_lt_Some _ _ _ Hj) as Hjl.
      rewrite length_take in Hjl. rewrite lookup_take_lt in Hj by lia.
      pose proof (NoDup_lookup _ _ _ _ Hnd Hp Hj). lia.
  - intros Hlen. unfold _setParvals, bind, get.
    destruct (Nat.ltb_spec (length (_pars m)) (length newpars)) as [_|?]; [done|lia].
Qed.

(** An assignment on which X27 applies: [line] has the parameters [m] and
    [b]; one value is assigned. *)
Lemma setParvals_prefix_witness :
  exists m', _setParvals [VNum 7] Examples.line = (Ok tt, m') /\
    _pars m' = _pars Examples.line /\
    (forall i p v, _pars Examples.line !! i = Some p -> [VNum 7] !! i = Some v ->
       stored m' p = Some v) /\
    (forall i p, _pars Examples.line !! i = Some p -> length [VNum 7] <= i ->
       stored m' p = stored Examples.line p).
Proof.
  refine (proj1 (setParvals_prefix Examples.line [VNum 7] _ _) _).
  - by apply (bool_decide_unpack _).
  - repeat constructor.
  - cbn. lia.
Defined.

(** *** The dictionary of the parameters *)

Lemma for_each_check {S A} (l : list A) (P : A -> bool) (e : exn) (s : S) :
  Forall (fun a => P a = true) l ->
  for_each l (fun a => if P a then ret tt else raise e) s = (Ok tt, s).
Proof.
  induction 1 as [|a l Ha _ IH]; cbn; [done|].
  unfold bind. rewrite Ha. cbn. exact IH.
Qed.

Lemma comprehension_getattr_pairs (g : string -> pyval) (l : list string) m :
  (forall a, a ∈ l -> stored m a = Some (g a)) ->
  exists m', agree m m' /\
    comprehension l (fun a => v <- getattr a ;; ret (a, v)) m =
      (Ok (map (fun a => (a, g a)) l), m').
Proof.
  revert m. induction l as [|a l IH]; intros m H; cbn.
  - exists m. split; [apply agree_refl | done].
  - destruct (getattr_stored m a (g a)) as (m1&E1&A1); [apply H; left|].
    destruct (IH m1) as (m'&A&E).
    { intros b Hb. destruct A1 as [_ ->]. apply H. by right. }
    exists m'. split; [by eapply agree_trans|].
    unfold bind at 1. unfold bind at 1. rewrite E1. cbn.
    unfold bind at 1. rewrite E. reflexivity.
Qed.

Lemma fold_insert_map_lookup {V} (g : string -> V) (l : list string)
    (acc : gmap string V) k :
  fold_left (fun d kv => <[kv.1 := kv.2]> d) (map (fun a => (a, g a)) l) acc !! k =
    if decide (k ∈ l) then Some (g k) else acc !! k.
Proof.
  revert acc. induction l as [|a l IH]; intros acc; cbn.
  - destruct (decide (k ∈ [])) as [H|_]; [by apply elem_of_nil in H | done].
  - rewrite IH. destruct (decide (k ∈ l)) as [Hl|Hl].
    + rewrite decide_True; [done | by right].
    + destruct (decide (k = a)) as [->|Hne].
      * rewrite lookup_insert_eq. rewrite decide_True; [done | left].
      * rewrite lookup_insert_ne by done. rewrite decide_False; [done|].
        intros [?|?]%elem_of_cons; done.
Qed.

(** X26: for a model whose class keeps the attribute assignment of
    [FunctionModel], and a dictionary [d] of scalars whose keys are exactly
    the parameter names, [model.pardict = d] returns and [model.pardict]
    then is [d]. *)
Theorem pardict_roundtrip (m : model) (d : gmap string pyval) :
  dom d = list_to_set (_pars m) ->
  map_Forall (fun _ v => isscalar v = true) d ->
  exists m' m'',
    _setPardict d m = (Ok tt, m') /\ _getPardict m' = (Ok d, m'').
Proof.
  intros Hdom Hsc.
  assert (Hkey : forall k, k ∈ _pars m <-> is_Some (d !! k)).
  { intros k. rewrite <- elem_of_dom, Hdom. by rewrite elem_of_list_to_set. }
  destruct (for_each_setattr (map_to_list d) m) as (m'&E&F&_&Hin&_).
  { apply Forall_forall. intros [k v] Hkv%elem_of_map_to_list. by eapply Hsc. }
  { apply NoDup_fst_map_to_list. }
  assert (Hp : _pars m' = _pars m) by apply F.
  set (g := fun a => default (VNum 0) (d !! a)).
  destruct (comprehension_getattr_pairs g (_pars m') m') as (m''&_&Ec).
  { intros a Ha. rewrite Hp in Ha. apply Hkey in Ha as [v Hv].
    unfold g. rewrite Hv. cbn. apply Hin. by apply elem_of_map_to_list. }
  exists m', m''. split.
  - unfold _setPardict, bind at 1, get. unfold bind at 1.
    rewrite for_each_check; [exact E|].
    apply Forall_forall. intros [k v] Hkv%elem_of_map_to_list. cbn.
    apply bool_decide_eq_true_2. apply Hkey. by eexists.
  - unfold _getPardict. rewrite recursion_limit_unfold.
    change (_getPardict_rec (S (S 998)) m') with
      (try_except
         (m <- get ;;
          l <- comprehension (_pars m) (fun a => v <- getattr a ;; ret (a, v)) ;;
          ret (dict l))
         (is_exn AttributeError) (_autoInitPars ;;; _getPardict_rec (S 998)) m').
    unfold try_except, bind at 1, get. unfold bind at 1. rewrite Ec. cbn.
    f_equal. f_equal. apply map_eq. intros k. unfold dict.
    rewrite fold_insert_map_lookup, lookup_empty, Hp.
    destruct (decide (k ∈ _pars m)) as [Hk|Hk].
    + apply Hkey in Hk as [v Hv]. unfold g. by rewrite Hv.
    + symmetry. apply eq_None_not_Some. by rewrite <- Hkey.
Qed.

(** A dictionary on which X26 applies. *)
Lemma pardict_roundtrip_witness :
  exists m' m'',
    _setPardict {["m" := VNum 2; "b" := VNum 3]} Examples.line = (Ok tt, m') /\
    _getPardict m' = (Ok {["m" := VNum 2; "b" := VNum 3]}, m'').
Proof.
  apply (pardict_roundtrip Examples.line).
  - by apply (bool_decide_unpack _).
  - by apply (bool_decide_unpack _).
Defined.

End ParameterFacts.

Section FitFacts.
Import FunctionModel Examples.
#[local] Arguments _getParvals : simpl never.

Lemma set_filterfunc_agree ff m : agree m (set_filterfunc ff m).
Proof. split; [by repeat split | done]. Qed.

(** Calling [_filterfunc] changes at most its binding. *)
Lemma call_filter_agree ff x pv m : agree m (call_filter ff x pv m).2.
Proof.
  destruct ff as [| |xt yt]; unfold call_filter, bind, modify, get, lift.
  - apply set_filterfunc_agree.
  - apply agree_refl.
  - apply agree_refl.
Qed.

(** A read of [parvals] gives what the read before it gave. *)
Lemma getParvals_again m pv m1 m2 :
  _getParvals m = (Ok pv, m1) -> agree m1 m2 ->
  exists m3, _getParvals m2 = (Ok pv, m3) /\ agree m2 m3.
Proof.
  intros E A. destruct (getParvals_total m) as (pv'&m1'&E'&F&Hi&Hpv).
  rewrite E in E'. inversion E'; subst pv' m1'. clear E'.
  destruct (getParvals_initialised m2) as (pv2&m3&E2&A2&Hpv2).
  { by eapply agree_initialised. }
  exists m3. split; [|done].
  assert (Hp : _pars m2 = _pars m1) by apply A.
  rewrite Hp, (mapM_stored_agree m1 m2 _ A), Hpv in Hpv2. by inversion Hpv2; subst.
Qed.

(** C3, as amended: for a model in which every parameter has a value, when
    the output of the model on [x] has not the shape of [y], [fitData]
    raises [ModelTypeError]; every parameter then has the value it had, and
    the names of the parameters, [fitteddata] and [lastfit] are what they
    were. *)
Theorem fitData_shape_mismatch eng (m m2 : model) (x y out : pyval)
    (method : option string) (fixedpars : option (list string))
    (weights : option pyval) (contraction : string)
    (updatepars fitf savedata : bool) (osh ysh : list nat) :
  initialised m ->
  fit_output (if fitf then BoundF else _filterfunc m) x m = (Ok out, m2) ->
  Numpy.shape out = Ok osh ->
  Numpy.shape y = Ok ysh ->
  osh <> ysh ->
  exists m',
    fitData eng x y method fixedpars weights contraction
            updatepars fitf savedata m = (Raise ModelTypeError, m') /\
    (forall a, stored m' a = stored m a) /\ _pars m' = _pars m /\
    fitteddata m' = fitteddata m /\ lastfit m' = lastfit m.
Proof.
  intros Hi Hout Hosh Hysh Hne.
  assert (Hfit : fitData eng x y method fixedpars weights contraction
                   updatepars fitf savedata m = (Raise ModelTypeError, m2)).
  { unfold fitData, bind at 1, get. unfold bind at 1. rewrite Hout.
    unfold bind at 1, lift at 1. rewrite Hosh.
    unfold bind at 1, lift at 1. rewrite Hysh.
    rewrite bool_decide_eq_false_2 by done. reflexivity. }
  unfold fit_output, bind in Hout.
  destruct (getParvals_initialised m Hi) as (pv&m1&Epv&A1&_).
  rewrite Epv in Hout.
  pose proof (call_filter_agree (if fitf then BoundF else _filterfunc m) x pv m1) as A.
  rewrite Hout in A. cbn in A.
  pose proof (agree_trans _ _ _ A1 A) as [(_&Hp&Hfd&Hlf&_) Hst].
  exists m2. by repeat split.
Qed.

(** Data on which the amended C3 applies: three points for [x], two for
    [y]; the parameters of [line] have their defaults. *)
Lemma fitData_shape_mismatch_witness :
  exists m',
    fitData one_step_engine (VArr [0; 1; 2]%Q) (VArr [3; 1]%Q) None None None
            "sumsq" true false true line = (Raise ModelTypeError, m') /\
    (forall a, stored m' a = stored line a) /\ _pars m' = _pars line /\
    fitteddata m' = fitteddata line /\ lastfit m' = lastfit line.
Proof.
  eapply (fitData_shape_mismatch one_step_engine line _ (VArr [0; 1; 2]%Q)
            (VArr [3; 1]%Q) _ None None None "sumsq" true false true [3%nat] [2%nat]).
  - intros a Ha. apply elem_of_cons in Ha as [->|Ha]; [by eexists|].
    apply elem_of_cons in Ha as [->|Ha]; [by eexists|]. by apply elem_of_nil in Ha.
  - reflexivity.
  - reflexivity.
  - reflexivity.
  - discriminate.
Defined.

(** C3 as stated fails for a model with a parameter that has no value: the
    instance of [Cases.HandModel] on which [A] is 5 and [B] was never
    assigned. The read of [parvals] before the comparison of the shapes sets
    every parameter to 1, also [A]; the fit then raises [ModelTypeError],
    and [A] is 1. *)
Lemma fitData_shape_mismatch_counterexample :
  stored Cases.half_set "A" = Some (VNum 5) /\
  stored Cases.half_set "B" = None /\
  (fitData one_step_engine (VArr [0; 1; 2]%Q) (VArr [3; 1]%Q) None None None
           "sumsq" true false true Cases.half_set).1 = Raise ModelTypeError /\
  stored (fitData one_step_engine (VArr [0; 1; 2]%Q) (VArr [3; 1]%Q) None None
                  None "sumsq" true false true Cases.half_set).2 "A"
    = Some (VNum 1).
Proof.
  split; [reflexivity|]. split; [reflexivity|].
  split; vm_compute; reflexivity.
Qed.

(** *** The objective of the generic minimizers *)

Lemma mul_function w name : Numpy.mul w (VFunc name) = Raise TypeError.
Proof. by destruct w. Qed.

(** With a contraction that names neither [sq] nor [abs] nor [frac], [g1]
    returns the function [np.diff], which cannot be weighted: the objective
    has no value, whatever the data. *)
Lemma raw_objective_never_returns (red : pyval -> result Q) (w y fxv : pyval) :
  exists e, scalar_objective "sum" red w y fxv = Raise e.
Proof.
  unfold scalar_objective, g1.
  change (contains "frac" "sum") with false.
  change (contains "sq" "sum") with false.
  change (contains "abs" "sum") with false. cbn.
  destruct (Numpy.sub y fxv) as [diff|e]; cbn; [|by eexists].
  rewrite mul_function. by eexists.
Qed.

Lemma raw_objective_TypeError (red : pyval -> result Q) (w y fxv diff : pyval) :
  Numpy.sub y fxv = Ok diff ->
  scalar_objective "sum" red w y fxv = Raise TypeError.
Proof.
  intros H. unfold scalar_objective, g1.
  change (contains "frac" "sum") with false.
  change (contains "sq" "sum") with false.
  change (contains "abs" "sum") with false. cbn.
  rewrite H. cbn. by rewrite mul_function.
Qed.

(** C4 (the code differs): with [contraction='sum'] the objective of a
    generic minimizer never has a value, and the fit of [line] by [fmin]
    raises [TypeError] at the first evaluation, where the claim has the
    objective [sum(w*(y - f(x,v)))], here 2. The sibling with [frac] returns
    the residual [diff]; this one returns [np.diff]. *)
Theorem raw_sum_objective_raises :
  (forall red w y fxv, exists e, scalar_objective "sum" red w y fxv = Raise e)
  /\ (fitData one_step_engine (VArr [0; 1; 2]%Q) (VArr [3; 1; 1]%Q)
              (Some "fmin") None None "sum" true false true line).1
     = Raise TypeError
  /\ (spec_raw_sum [1; 1; 1] [3; 1; 1] [0; 1; 2] == 2)%Q
  /\ g1 "fracsum" (VArr [3; 1; 1]%Q) (VArr [0; 1; 2]%Q)
     = Ok (VArr [1 - 0 / 3; 1 - 1 / 1; 1 - 2 / 1]%Q).
Proof.
  split; [apply raw_objective_never_returns|].
  split; [reflexivity|]. split; reflexivity.
Qed.

(** *** Statistics *)

(** [chi2Data] passes the parameter values to [__call__], which takes
    none: with a parameter, the call is a [TypeError]. *)
Lemma chi2Data_with_parameters eng (x y : pyval) (m : model) :
  _pars m <> [] -> (chi2Data eng (Some x) (Some y) m).1 = Raise TypeError.
Proof.
  intros Hp. unfold chi2Data, bind at 1. cbn. unfold bind at 1.
  destruct (getParvals_total m) as (pv&m1&E&_). rewrite E.
  pose proof (getParvals_length m pv m1 E) as Hlen.
  destruct pv as [|v pv]; [by destruct (_pars m)|].
  unfold bind at 1. reflexivity.
Qed.

(** C2 (the code differs): for the model without parameters that is 1
    everywhere and the data [y = (3,1,1)], [chi2Data] returns 16 with 2
    degrees of freedom, the sum of the squares of the terms of Pearson's
    statistic, which is 4; and for a model with a parameter it raises
    [TypeError]. *)
Theorem chi2Data_not_pearson eng :
  (chi2Data eng (Some (VArr [0; 0; 0]%Q)) (Some (VArr [3; 1; 1]%Q)) unit_model).1
    = Ok (16%Q, (16 # 2)%Q, chisqprob eng 16 2)
  /\ (spec_pearson_chi2 [3; 1; 1] [1; 1; 1] == 4)%Q
  /\ (chi2Data eng (Some (VArr [0; 0; 0]%Q)) (Some (VArr [3; 1; 1]%Q)) constant).1
    = Raise TypeError.
Proof.
  split; [reflexivity|]. split; [reflexivity|].
  by apply chi2Data_with_parameters.
Qed.

(** *** Bootstrap *)

Lemma load_prefit : load_global "prefit" = Raise NameError.
Proof. reflexivity. Qed.

(** [bootstrapFits] never returns: where the checks of the data pass, the
    name [prefit] is looked up and is not bound. *)
Lemma bootstrapFits_never_returns (x y : option pyval) (n : nat)
    (plothist : bool) rest (m : model) :
  exists e, (bootstrapFits x y n plothist rest m).1 = Raise e.
Proof.
  unfold bootstrapFits, bind, lift. rewrite load_prefit.
  repeat match goal with
         | |- context [match ?c with _ => _ end] => destruct c; cbn
         | |- context [if ?c then _ else _] => destruct c; cbn
         end; by eexists.
Qed.

(** C5 (the code differs): [bootstrapFits] returns for no model and no
    data; on [line] with three points it raises [NameError], whatever the
    number of iterations, where the claim has it return the fitted values of
    each parameter. The statements that draw the resamples are missing: the
    names [prefit], [kwargs], [xi], [yi] and [vs] are never bound. *)
Theorem bootstrapFits_raises_NameError :
  (forall x y n plothist rest m,
     exists e, (bootstrapFits x y n plothist rest m).1 = Raise e)
  /\ forall n rest,
       (bootstrapFits (Some (VArr [0; 1; 2]%Q)) (Some (VArr [3; 1; 1]%Q))
                      n false rest line).1 = Raise NameError.
Proof.
  split; [apply bootstrapFits_never_returns|]. intros n rest. reflexivity.
Qed.

End FitFacts.

Section HistoryFacts.
Import FunctionModel.
#[local] Arguments _getParvals : simpl never.

Context {S : Type} (R : S -> S -> Prop) `{!PreOrder R}.

Lemma preserves_ret {A} (a : A) : preserves R (ret a).
Proof. intros s. reflexivity. Qed.

Lemma preserves_raise {A} e : preserves R (@raise S A e).
Proof. intros s. reflexivity. Qed.

Lemma preserves_lift {A} (r : result A) : preserves R (lift r).
Proof. intros s. reflexivity. Qed.

Lemma preserves_get : preserves R get.
Proof. intros s. reflexivity. Qed.

Lemma preserves_modify (g : S -> S) : (forall s, R s (g s)) -> preserves R (modify g).
Proof. intros H s. apply H. Qed.

Lemma preserves_bind {A B} (c : M S A) (k : A -> M S B) :
  preserves R c -> (forall a, preserves R (k a)) -> preserves R (bind c k).
Proof.
  intros Hc Hk s. unfold bind. specialize (Hc s).
  destruct (c s) as [[a|e] s']; cbn in *; [|done].
  etrans; [exact Hc | apply Hk].
Qed.

Lemma preserves_try_except {A} (c h : M S A) (e : exn -> bool) :
  preserves R c -> preserves R h -> preserves R (try_except c e h).
Proof.
  intros Hc Hh s. unfold try_except. specialize (Hc s).
  destruct (c s) as [[a|e'] s']; cbn in *; [done|].
  destruct (e e'); [|done]. etrans; [exact Hc | apply Hh].
Qed.

Lemma preserves_for_each {A} (l : list A) (body : A -> M S unit) :
  (forall a, preserves R (body a)) -> preserves R (for_each l body).
Proof.
  intros H. induction l as [|a l IH]; cbn; [apply preserves_ret|].
  apply preserves_bind; [apply H | intros _; exact IH].
Qed.

Lemma preserves_comprehension {A B} (l : list A) (body : A -> M S B) :
  (forall a, preserves R (body a)) -> preserves R (comprehension l body).
Proof.
  intros H. induction l as [|a l IH]; cbn; [apply preserves_ret|].
  apply preserves_bind; [apply H | intros b].
  apply preserves_bind; [exact IH | intros bs; apply preserves_ret].
Qed.

Lemma preserves_run_opt (t : optrun) (g : list Q -> M S pyval) :
  (forall v, preserves R (g v)) -> preserves R (run_opt t g).
Proof.
  intros H. induction t as [res|e|v k IH]; cbn.
  - apply preserves_ret.
  - apply preserves_raise.
  - apply preserves_bind; [apply H | exact IH].
Qed.

End HistoryFacts.

(** Preservation goals are solved along the structure of the method. *)
Ltac preserve :=
  repeat first
    [ assumption
    | match goal with
      | |- preserves _ (ret _) => apply preserves_ret; exact _
      | |- preserves _ (raise _) => apply preserves_raise; exact _
      | |- preserves _ (lift _) => apply preserves_lift; exact _
      | |- preserves _ get => apply preserves_get; exact _
      | |- preserves _ (modify _) => apply preserves_modify; intros ?; by split
      | |- preserves _ (bind _ _) => apply preserves_bind; [exact _ | | intros ?]
      | |- preserves _ (for_each _ _) =>
          apply preserves_for_each; [exact _ | intros ?]
      | |- preserves _ (comprehension _ _) =>
          apply preserves_comprehension; [exact _ | intros ?]
      | |- preserves _ (try_except _ _ _) =>
          apply preserves_try_except; [exact _ | | ]
      | |- preserves _ (if ?b then _ else _) => destruct b
      | |- preserves _ (match ?x with _ => _ end) => destruct x
      | |- preserves _ (let _ := _ in _) => cbv zeta
      end ].

Section ClassFacts.
Import FunctionModel.
#[local] Arguments _getParvals : simpl never.

#[local] Instance same_class_preorder : PreOrder same_class.
Proof.
  split.
  - by intros m.
  - intros m1 m2 m3 [??] [??]. split; congruence.
Qed.

#[local] Instance same_class_self_preorder : PreOrder same_class_self.
Proof.
  split.
  - by intros s.
  - intros s1 s2 s3 [??] [??]. split; congruence.
Qed.

Lemma frame_same_class m m' : frame m m' -> same_class m m'.
Proof. intros (?&?&_). by split. Qed.

Lemma getattr_same_class a : preserves same_class (getattr a).
Proof. intros m. apply frame_same_class, getattr_agree. Qed.

Lemma setattr_same_class a v : preserves same_class (setattr a v).
Proof. intros m. apply frame_same_class, setattr_frame. Qed.

Lemma autoInitPars_same_class : preserves same_class _autoInitPars.
Proof. unfold _autoInitPars. preserve. apply setattr_same_class. Qed.

Lemma getParvals_rec_same_class d : preserves same_class (_getParvals_rec d).
Proof.
  induction d as [|d IH]; cbn [_getParvals_rec]; preserve.
  - apply getattr_same_class.
  - apply autoInitPars_same_class.
Qed.

Lemma getParvals_same_class : preserves same_class _getParvals.
Proof. apply getParvals_rec_same_class. Qed.

Lemma getPardict_rec_same_class d : preserves same_class (_getPardict_rec d).
Proof.
  induction d as [|d IH]; cbn [_getPardict_rec]; preserve.
  - apply getattr_same_class.
  - apply autoInitPars_same_class.
Qed.

Lemma setParvals_same_class l : preserves same_class (_setParvals l).
Proof. unfold _setParvals. preserve. apply setattr_same_class. Qed.

Lemma setPardict_same_class d : preserves same_class (_setPardict d).
Proof. unfold _setPardict. preserve. apply setattr_same_class. Qed.

Lemma call_filter_same_class ff x pv : preserves same_class (call_filter ff x pv).
Proof. intros m. apply frame_same_class, call_filter_agree. Qed.

Lemma call_same_class x : preserves same_class (call x).
Proof.
  unfold call. preserve;
    first [apply getParvals_same_class | apply call_filter_same_class].
Qed.

Lemma setCall_same_class xt yt : preserves same_class (setCall xt yt).
Proof. unfold setCall. preserve. Qed.

Lemma on_self_same_class {A} (c : M model A) :
  preserves same_class c -> preserves same_class_self (on_self c).
Proof.
  intros H [m pd]. unfold on_self. specialize (H m). cbn.
  by destruct (c m) as [r m'].
Qed.

Lemma with_pdict_same_class {A} pd (c : M (model * gmap string pyval) A) :
  preserves same_class_self c -> preserves same_class (with_pdict pd c).
Proof.
  intros H m. unfold with_pdict. specialize (H (m, pd)).
  by destruct (c (m, pd)) as [r [m' pd']].
Qed.

Lemma fit_f_same_class ff fixed ps x v :
  preserves same_class_self (fit_f ff fixed ps x v).
Proof.
  unfold fit_f. preserve;
    try (apply on_self_same_class, call_filter_same_class).
Qed.

(** A fit, whether it returns or raises, leaves the class and the
    parameter names of the model. *)
Lemma fitData_same_class eng x y method fp w c u ff sd :
  preserves same_class (fitData eng x y method fp w c u ff sd).
Proof.
  unfold fitData, fit_output.
  preserve;
    try first
      [ apply getParvals_same_class
      | apply call_filter_same_class
      | apply getattr_same_class
      | apply setattr_same_class
      | by intros ?
      | apply with_pdict_same_class, preserves_run_opt; [exact _|]; intros ?;
        preserve; apply fit_f_same_class ].
Qed.

Lemma perform_same_class eng a m : same_class m (perform eng a m).
Proof.
  destruct a; cbn [perform].
  - apply setattr_same_class.
  - apply setParvals_same_class.
  - apply setPardict_same_class.
  - apply getParvals_same_class.
  - apply getPardict_rec_same_class.
  - apply call_same_class.
  - apply setCall_same_class.
  - apply fitData_same_class.
Qed.

Lemma history_same_class eng (history : list action) m0 :
  same_class m0 (fold_left (fun m a => perform eng a m) history m0).
Proof.
  revert m0. induction history as [|a l IH]; intros m0; cbn; [reflexivity|].
  etrans; [apply perform_same_class | apply IH].
Qed.

(** C9: after any history of parameter assignments, updates of [parvals]
    and [pardict], reads, evaluations, changes of the call mode and fits,
    from any object, [params] is the tuple of names of the construction,
    [parvals] can be read, and both have the same length. *)
Theorem params_parvals_same_length eng (m0 : model) (history : list action) :
  let m := fold_left (fun m a => perform eng a m) history m0 in
  exists pv m',
    params m = (Ok (_pars m0), m) /\ _getParvals m = (Ok pv, m') /\
    length (_pars m0) = length pv.
Proof.
  intros m. destruct (getParvals_total m) as (pv&m'&E&_).
  destruct (history_same_class eng history m0) as [_ Hp]. fold m in Hp.
  exists pv, m'. split; [unfold params; by rewrite Hp|]. split; [exact E|].
  rewrite <- Hp. symmetry. by eapply getParvals_length.
Qed.

End ClassFacts.

Section SubmodelFacts.
Import FunctionModel.
#[local] Arguments _getParvals : simpl never.

Lemma mapM_const {A B} (g : A -> option B) (l : list A) (v : B) :
  (forall a, a ∈ l -> g a = Some v) -> mapM g l = Some (replicate (length l) v).
Proof.
  induction l as [|a l IH]; intros H; cbn; [done|].
  rewrite H by left. cbn. rewrite IH; [done|]. intros b Hb. apply H. by right.
Qed.

(** What [parvals] reads: the values of the parameters if all are set, else
    the default for each. *)
Lemma getParvals_value m :
  (_getParvals m).1 =
    Ok (default (replicate (length (_pars m)) defaultparval)
                (mapM (stored m) (_pars m))).
Proof.
  destruct (mapM (stored m) (_pars m)) as [pv|] eqn:Hpv; cbn.
  - destruct (getParvals_initialised m) as (pv'&m'&E&_&Hpv').
    { intros a Ha. apply mapM_Some_1 in Hpv.
      apply list_elem_of_lookup in Ha as [i Hi].
      destruct (Forall2_lookup_l _ _ _ _ _ Hpv Hi) as (v&_&Hv). by eexists. }
    rewrite E. cbn. congruence.
  - unfold _getParvals. rewrite recursion_limit_unfold.
    destruct (comprehension_getattr (_pars m) m) as (m1&A1&E1).
    change (_getParvals_rec (S (S 998)) m) with
      (try_except (m <- get ;; comprehension (_pars m) getattr)
         (is_exn AttributeError) (_autoInitPars ;;; _getParvals_rec (S 998)) m).
    unfold try_except, bind at 1, get. rewrite E1, Hpv.
    change (is_exn AttributeError AttributeError) with true. cbv beta iota.
    unfold bind.
    destruct (autoInitPars_total m1) as (m2&E2&F2&I2&Hv2). rewrite E2.
    destruct (getParvals_rec_initialised 998 m2 I2) as (pv&m'&E&_&Hpv').
    rewrite E. cbn. f_equal.
    assert (Hp1 : _pars m1 = _pars m) by apply A1.
    assert (Hp2 : _pars m2 = _pars m) by (destruct F2 as (_&->&_); done).
    rewrite Hp2 in Hpv'. rewrite Hp1 in Hv2.
    rewrite (mapM_const _ _ defaultparval Hv2) in Hpv'. congruence.
Qed.

Lemma getParvals_agree m m' :
  agree m m' -> (_getParvals m').1 = (_getParvals m).1.
Proof.
  intros A. rewrite !getParvals_value.
  assert (Hp : _pars m' = _pars m) by apply A.
  by rewrite Hp, (mapM_stored_agree m m').
Qed.

Lemma getParvals_frame m : frame m (_getParvals m).2.
Proof. destruct (getParvals_total m) as (pv&m'&E&F&_). by rewrite E. Qed.

(** The output of a sub-model depends on the values of its parameters
    only. *)
Lemma submodel_output_agree x m m' :
  agree m m' ->
  (Composite.submodel_output x m').1 = (Composite.submodel_output x m).1.
Proof.
  intros A. unfold Composite.submodel_output, bind, get, lift.
  pose proof (getParvals_agree m m' A) as Hr.
  pose proof (getParvals_frame m) as F. pose proof (getParvals_frame m') as F'.
  destruct (_getParvals m) as [[pv|e] m1], (_getParvals m') as [[pv'|e'] m1'];
    cbn in *; try congruence.
  destruct F as (->&_), F' as (->&_). destruct A as [(->&_) _]. congruence.
Qed.

(** The call of a one-dimensional model in the plain call mode. *)
Lemma call_plain x m :
  flattens (cls m) = true -> plain_call m ->
  (call x m).1 =
    rbind (Numpy.array x) (fun arr =>
    rbind (Numpy.ravel arr) (fun flat =>
    rbind (Composite.submodel_output flat m).1 (fun res =>
    rbind (Numpy.shape arr) (Numpy.reshape res)))).
Proof.
  intros Hfl Hplain. unfold call, Composite.submodel_output, bind, get, lift.
  destruct (Numpy.array x) as [arr|e]; cbn; [|done]. rewrite Hfl.
  destruct (Numpy.ravel arr) as [flat|e]; cbn; [|done].
  pose proof (getParvals_frame m) as F.
  destruct (_getParvals m) as [[pv|e] m1]; cbn in *; [|done].
  destruct F as (Hc&_). unfold plain_call in Hplain.
  destruct (_filterfunc m); [| |done]; cbn; unfold bind, modify, get, lift; cbn;
    rewrite ?Hc; by destruct (f (cls m) flat pv).
Qed.

End SubmodelFacts.

Section CompositeFacts.
Import FunctionModel.
Import Composite(composite, _models, _ops, _opstr, c_pars, _argmap, _filters,
                 c_filterfunc, on_model, cagree, reads, scalar_parameters,
                 submodel_output, built_alike).
#[local] Arguments _getParvals : simpl never.

Lemma cagree_refl c : cagree c c.
Proof.
  split; [|by repeat split]. apply Forall_Forall2_diag, Forall_forall.
  intros m _. apply agree_refl.
Qed.

Lemma cagree_trans c1 c2 c3 : cagree c1 c2 -> cagree c2 c3 -> cagree c1 c3.
Proof.
  intros (M1&?&?&?&?&?) (M2&?&?&?&?&?). split.
  - eapply Forall2_trans; [|exact M1|exact M2].
    intros ???. apply agree_trans.
  - repeat split; etrans; eauto.
Qed.

Lemma on_model_agree {A} i (op : M model A) c :
  (forall m, agree m (op m).2) -> cagree c (on_model i op c).2.
Proof.
  intros Hop. unfold on_model. destruct (_models c !! i) as [m|] eqn:Hi;
    [|apply cagree_refl].
  specialize (Hop m). destruct (op m) as [r m']. cbn in *.
  split; [|by repeat split]. cbn.
  rewrite <- (list_insert_id (_models c) i m Hi) at 1.
  apply Forall2_insert; [|done].
  apply Forall_Forall2_diag, Forall_forall. intros ? _. apply agree_refl.
Qed.

Lemma on_model_result {A} i (op : M model A) c m :
  _models c !! i = Some m -> (on_model i op c).1 = (op m).1.
Proof. intros Hi. unfold on_model. rewrite Hi. by destruct (op m). Qed.

Lemma reads_cagree c c' name v : cagree c c' -> reads c name v -> reads c' name v.
Proof.
  intros (HM&_&_&Hp&Ha&_) (i&n&m&Hin&Hr&Hm&Hs).
  destruct (Forall2_lookup_l _ _ _ _ _ HM Hm) as (m'&Hm'&[_ A]).
  exists i, n, m'. rewrite Hp, Ha. repeat split; try done. by rewrite A.
Qed.

Lemma getattr_reads c name v :
  (Composite.getattr name c).1 = Ok v -> reads c name v.
Proof.
  unfold Composite.getattr, bind, get. intros H.
  destruct (bool_decide (name ∈ c_pars c)) eqn:Hin; [|discriminate].
  apply bool_decide_eq_true_1 in Hin.
  destruct (_argmap c !! name) as [[i n]|] eqn:Hr; [|discriminate].
  unfold on_model in H. destruct (_models c !! i) as [m|] eqn:Hm; [|discriminate].
  exists i, n, m. repeat split; try done.
  pose proof (getattr_result m n) as Hg.
  destruct (getattr n m) as [r m']. cbn in *. rewrite Hg in H.
  by destruct (stored m n); inversion H.
Qed.

Lemma reads_getattr c name v :
  reads c name v ->
  exists c', Composite.getattr name c = (Ok v, c') /\ cagree c c'.
Proof.
  intros (i&n&m&Hin&Hr&Hm&Hs).
  exists (Composite.getattr name c).2. split.
  - apply injective_projections; [|done]. cbn.
    unfold Composite.getattr, bind, get.
    rewrite bool_decide_eq_true_2, Hr by done.
    rewrite (on_model_result _ _ _ m Hm), getattr_result. by rewrite Hs.
  - unfold Composite.getattr, bind, get.
    rewrite bool_decide_eq_true_2, Hr by done.
    apply on_model_agree. intros ?. apply getattr_agree.
Qed.

Lemma reads_setattr c name v :
  reads c name v -> isscalar v = true ->
  exists c', Composite.setattr name v c = (Ok tt, c') /\ cagree c c'.
Proof.
  intros (i&n&m&Hin&Hr&Hm&Hs) Hv.
  destruct (setattr_same m n v Hs Hv) as (m'&E&A).
  unfold Composite.setattr, bind, get.
  rewrite bool_decide_eq_true_2, Hr by done.
  unfold on_model. rewrite Hm, E. eexists. split; [reflexivity|].
  split; [|by repeat split]. cbn.
  rewrite <- (list_insert_id (_models c) i m Hm) at 1.
  apply Forall2_insert; [|done].
  apply Forall_Forall2_diag, Forall_forall. intros ? _. apply agree_refl.
Qed.

Lemma comprehension_reads (l : list string) c :
  Forall (fun name => exists v, reads c name v /\ isscalar v = true) l ->
  exists pv c', comprehension l Composite.getattr c = (Ok pv, c') /\
    cagree c c' /\
    Forall2 (fun name v => reads c name v /\ isscalar v = true) l pv.
Proof.
  revert c. induction l as [|name l IH]; intros c H; cbn.
  - exists [], c. split; [done|]. split; [apply cagree_refl | constructor].
  - inversion_clear H as [|?? (v&Hr&Hv) Hl].
    destruct (reads_getattr c name v Hr) as (c1&E1&A1).
    destruct (IH c1) as (pv&c'&E&A&HF).
    { eapply Forall_impl; [exact Hl|]. intros n (w&Hw&?). exists w.
      split; [by eapply reads_cagree | done]. }
    exists (v :: pv), c'. unfold bind. rewrite E1, E. split; [done|].
    split; [by eapply cagree_trans|]. constructor; [done|].
    eapply Forall2_impl; [exact HF|]. intros n w [Hw ?].
    split; [|done]. eapply reads_cagree; [|exact Hw]. clear -A1.
    destruct A1 as (HM&?&?&?&?&?). split; [|by repeat split].
    apply Forall2_flip. eapply Forall2_impl; [exact HM|].
    intros ??. apply agree_sym.
Qed.

Lemma cagree_sym c c' : cagree c c' -> cagree c' c.
Proof.
  intros (HM&?&?&?&?&?). split; [|by repeat split].
  apply Forall2_flip. eapply Forall2_impl; [exact HM|]. intros ??. apply agree_sym.
Qed.

Lemma for_each_reads (l : list string) (pv : list pyval) c :
  Forall2 (fun name v => reads c name v /\ isscalar v = true) l pv ->
  exists c', for_each (zip l pv) (fun pa => Composite.setattr pa.1 pa.2) c
               = (Ok tt, c') /\ cagree c c'.
Proof.
  revert pv c. induction l as [|name l IH]; intros pv c H.
  - apply Forall2_nil_inv_l in H as ->. exists c. split; [done | apply cagree_refl].
  - apply Forall2_cons_inv_l in H as (v&pv'&[Hr Hv]&Hl&->). cbn.
    destruct (reads_setattr c name v Hr Hv) as (c1&E1&A1).
    destruct (IH pv' c1) as (c'&E&A).
    { eapply Forall2_impl; [exact Hl|]. intros n w [Hw ?].
      split; [by eapply reads_cagree | done]. }
    exists c'. unfold bind. rewrite E1. split; [exact E|].
    by eapply cagree_trans.
Qed.

Lemma scalar_parameters_reads c :
  scalar_parameters c ->
  Forall (fun name => exists v, reads c name v /\ isscalar v = true) (c_pars c).
Proof.
  intros H. eapply Forall_impl; [exact H|].
  intros name (v&Hg&Hv). exists v. split; [|done]. by apply getattr_reads.
Qed.

(** The parameter values of a composite whose parameters are set. *)
Lemma composite_getParvals c :
  scalar_parameters c ->
  exists pv c', Composite._getParvals c = (Ok pv, c') /\ cagree c c' /\
    Forall2 (fun name v => reads c name v /\ isscalar v = true) (c_pars c) pv.
Proof.
  intros H%scalar_parameters_reads.
  destruct (comprehension_reads (c_pars c) c H) as (pv&c'&E&A&HF).
  exists pv, c'. split; [|done].
  unfold Composite._getParvals. rewrite recursion_limit_unfold.
  change (Composite._getParvals_rec (S (S 998)) c) with
    (try_except (s <- get ;; comprehension (c_pars s) Composite.getattr)
       (is_exn AttributeError)
       (Composite._autoInitPars ;;; Composite._getParvals_rec (S 998)) c).
  unfold try_except, bind at 1, get. by rewrite E.
Qed.

(** *** Shapes and sums *)

Lemma rmap2_total (g : Q -> Q -> Q) (l k : list Q) :
  Numpy.rmap2 (fun x y => Ok (g x y)) l k = Ok (zip_with g l k).
Proof.
  revert k. induction l as [|x l IH]; intros [|y k]; cbn; try done.
  by rewrite IH.
Qed.

Lemma add_arrays (d1 d2 : list Q) :
  length d1 = length d2 ->
  Numpy.add (VArr d1) (VArr d2) = Ok (VArr (zip_with Qplus d1 d2)).
Proof.
  intros H. unfold Numpy.add, Numpy.elementwise. rewrite H, Nat.eqb_refl.
  by rewrite rmap2_total.
Qed.

Lemma reshape_number p sh r :
  Numpy.reshape (VNum p) sh = Ok r ->
  (sh = [] /\ r = VNum p) \/ (sh = [1] /\ r = VArr [p]).
Proof.
  destruct sh as [|[|[|n]] [|]]; cbn; intros [=]; subst; auto.
Qed.

Lemma reshape_array d sh r :
  Numpy.reshape (VArr d) sh = Ok r ->
  (sh = [] /\ exists x, d = [x] /\ r = VNum x) \/ (sh = [length d] /\ r = VArr d).
Proof.
  destruct sh as [|n [|]]; cbn.
  - destruct d as [|x [|]]; intros [=]; subst. left. eauto.
  - assert (E : Numpy.reshape (VArr d) [n] =
                if (length d =? n)%nat then Ok (VArr d) else Raise ValueError)
      by (by destruct d as [|x [|y d]]).
    cbn in E. rewrite E. destruct (Nat.eqb_spec (length d) n); intros [=]; subst; auto.
  - destruct d as [|x [|]]; intros [=].
Qed.

(** Reshaping the sum of two outputs gives the sum of the reshaped
    outputs. *)
Lemma reshape_add (oa ob arr : pyval) (sh : list nat) (ra rb : pyval) :
  Numpy.shape arr = Ok sh ->
  Numpy.reshape oa sh = Ok ra -> Numpy.reshape ob sh = Ok rb ->
  exists r, rbind (Numpy.add oa ob) (fun s => Numpy.reshape s sh) = Ok r /\
            Numpy.add ra rb = Ok r.
Proof.
  intros _ Ha Hb.
  destruct oa as [p|d1|t1|f1].
  3,4: destruct sh as [|? [|]]; discriminate.
  all: destruct ob as [q|d2|t2|f2].
  all: try (destruct sh as [|? [|]]; discriminate).
  - apply reshape_number in Ha as [[-> ->]|[-> ->]];
      apply reshape_number in Hb as [[[=] ->]|[[=] ->]]; by eexists.
  - apply reshape_number in Ha as [[-> ->]|[-> ->]];
      apply reshape_array in Hb as [[[=] (y&->&->)]|[[=] ->]].
    + by eexists.
    + destruct d2 as [|y [|]]; try discriminate. by eexists.
  - apply reshape_number in Hb as [[-> ->]|[-> ->]];
      apply reshape_array in Ha as [[[=] (y&->&->)]|[[=] ->]].
    + by eexists.
    + destruct d1 as [|y [|]]; try discriminate. by eexists.
  - apply reshape_array in Ha as [[-> (x&->&->)]|[-> ->]];
      apply reshape_array in Hb as [[[=] (y&->&->)]|[[=Hl] ->]].
    + by eexists.
    + rewrite add_arrays by done. cbn. rewrite length_zip_with, <- Hl.
      replace (length d1 `min` length d1) with (length d1) by lia.
      rewrite Nat.eqb_refl. eexists. split; [|reflexivity].
      destruct (zip_with Qplus d1 d2) as [|? [|]] eqn:E; try reflexivity.
Qed.

Lemma bind_run {S A B} (c : M S A) (k : A -> M S B) s r s' :
  c s = (r, s') ->
  bind c k s = match r with Ok a => k a s' | Raise e => (Raise e, s') end.
Proof. intros H. unfold bind. by rewrite H. Qed.

Lemma on_model_run {A} i (op : M model A) c m r m' :
  _models c !! i = Some m -> op m = (r, m') ->
  on_model i op c = (r, Composite.set_models (<[i := m']>) c).
Proof. intros Hi E. unfold on_model. by rewrite Hi, E. Qed.

Lemma eval_sum (oa ob : pyval) :
  Composite.eval "mval[0]+mval[1]" [oa; ob] = Numpy.add oa ob.
Proof. reflexivity. Qed.

Lemma composite_f_sum c a b x pv :
  _models c = [a; b] -> _opstr c = "mval[0]+mval[1]" -> _filters c = None ->
  Forall2 (fun name v => reads c name v /\ isscalar v = true) (c_pars c) pv ->
  (Composite.f x pv c).1 =
    rbind (submodel_output x a).1 (fun oa =>
    rbind (submodel_output x b).1 (fun ob => Numpy.add oa ob)).
Proof.
  intros Hm Hop Hfl HF.
  destruct (for_each_reads (c_pars c) pv c HF) as (c2&E2&A2).
  unfold Composite.f. rewrite (bind_run Composite.params _ c (Ok (c_pars c)) c eq_refl).
  rewrite (bind_run _ _ _ _ _ E2).
  rewrite (bind_run get _ c2 (Ok c2) c2 eq_refl).
  destruct A2 as (HM&_&Hop2&_&_&Hfl2). rewrite Hm in HM.
  apply Forall2_cons_inv_l in HM as (a2&k&Aa&HM&Hm2).
  apply Forall2_cons_inv_l in HM as (b2&k'&Ab&HM&->).
  apply Forall2_nil_inv_l in HM as ->.
  rewrite Hm2. cbn [length seq comprehension].
  rewrite <- (submodel_output_agree x a a2 Aa), <- (submodel_output_agree x b b2 Ab).
  destruct (submodel_output x a2) as [ra a3] eqn:Ea.
  destruct (submodel_output x b2) as [rb b3] eqn:Eb.
  pose proof (on_model_run 0 (submodel_output x) c2 a2 ra a3) as R0.
  rewrite Hm2 in R0. specialize (R0 eq_refl Ea).
  set (c3 := Composite.set_models (<[0:=a3]>) c2) in *.
  pose proof (on_model_run 1 (submodel_output x) c3 b2 rb b3) as R1.
  assert (Hm3 : _models c3 = [a3; b2]) by (subst c3; cbn; by rewrite Hm2).
  rewrite Hm3 in R1. specialize (R1 eq_refl Eb).
  set (c4 := Composite.set_models (<[1:=b3]>) c3) in *.
  unfold bind at 1. unfold bind at 1. rewrite R0. cbn [fst].
  destruct ra as [oa|e]; [|reflexivity].
  unfold bind at 1. unfold bind at 1. rewrite R1.
  destruct rb as [ob|e]; [|reflexivity].
  cbn -[Composite.eval]. unfold bind, get, lift.
  replace (_opstr c2) with "mval[0]+mval[1]" by congruence.
  rewrite eval_sum. rewrite Hfl2, Hfl.
  by destruct (Numpy.add oa ob).
Qed.

Lemma composite_call_sum c a b x :
  _models c = [a; b] -> _opstr c = "mval[0]+mval[1]" -> _filters c = None ->
  c_filterfunc c = ClassFilter -> scalar_parameters c ->
  (Composite.call x c).1 =
    rbind (Numpy.array x) (fun arr =>
    rbind (Numpy.ravel arr) (fun flat =>
    rbind (rbind (submodel_output flat a).1 (fun oa =>
           rbind (submodel_output flat b).1 (fun ob => Numpy.add oa ob)))
          (fun res => rbind (Numpy.shape arr) (Numpy.reshape res)))).
Proof.
  intros Hm Hop Hfl Hff Hsc.
  destruct (composite_getParvals c Hsc) as (pv&c1&E1&A1&HF).
  unfold Composite.call, bind at 1, lift at 1.
  destruct (Numpy.array x) as [arr|e]; [|reflexivity]. cbn [rbind].
  rewrite (bind_run get _ c (Ok c) c eq_refl). rewrite Hff.
  unfold bind at 1, lift at 1.
  destruct (Numpy.ravel arr) as [flat|e]; [|reflexivity]. cbn [rbind].
  rewrite (bind_run _ _ _ _ _ E1).
  assert (A1' : cagree c (Composite.set_c_filterfunc BoundF c1)).
  { destruct A1 as (?&?&?&?&?&?). split; [assumption|]. by repeat split. }
  set (c1' := Composite.set_c_filterfunc BoundF c1) in *.
  destruct A1' as (HM&Hops1&Hop1&Hp1&Ha1&Hfl1). rewrite Hm in HM.
  pose proof HM as HM'.
  apply Forall2_cons_inv_l in HM as (a1&k&Aa&HM&Hm1).
  apply Forall2_cons_inv_l in HM as (b1&k'&Ab&HM&->).
  apply Forall2_nil_inv_l in HM as ->.
  assert (Hf : (Composite.f flat pv c1').1 =
    rbind (submodel_output flat a).1 (fun oa =>
    rbind (submodel_output flat b).1 (fun ob => Numpy.add oa ob))).
  { rewrite (composite_f_sum c1' a1 b1 flat pv); try congruence.
    - by rewrite (submodel_output_agree flat a a1 Aa),
                 (submodel_output_agree flat b b1 Ab).
    - rewrite Hp1. eapply Forall2_impl; [exact HF|]. intros n w [Hw ?].
      split; [|done]. eapply reads_cagree; [|exact Hw].
      split; [by rewrite Hm | by repeat split]. }
  unfold bind at 1. cbn [Composite.call_filter].
  unfold bind at 1, modify. fold c1'.
  destruct (Composite.f flat pv c1') as [rf c2]. cbn [fst] in Hf. rewrite Hf.
  match goal with |- context [rbind ?a ?b] => destruct (rbind a b) as [res|e] end;
    [|reflexivity].
  unfold lift. reflexivity.
Qed.

Lemma built_alike_refl c : built_alike c c.
Proof.
  repeat split. apply Forall_Forall2_diag, Forall_forall. by intros.
Qed.

Lemma built_alike_trans c1 c2 c3 :
  built_alike c1 c2 -> built_alike c2 c3 -> built_alike c1 c3.
Proof.
  intros (Ha&Hb&Hc&HM1) (Ha'&Hb'&Hc'&HM2).
  split; [congruence|]. split; [congruence|]. split; [congruence|].
  eapply Forall2_trans; [|exact HM1|exact HM2].
  intros ??? [??] [??]. split; congruence.
Qed.

Lemma setattr_built_alike name v c : built_alike c (Composite.setattr name v c).2.
Proof.
  unfold Composite.setattr, bind, get.
  destruct (bool_decide (name ∈ c_pars c)).
  - destruct (_argmap c !! name) as [[i n]|]; [|apply built_alike_refl].
    unfold on_model. destruct (_models c !! i) as [m|] eqn:Hm;
      [|apply built_alike_refl].
    pose proof (setattr_frame m n v) as (Hc&_).
    pose proof (setattr_filterfunc m n v) as Hf.
    destruct (setattr n v m) as [r m']. cbn in *. repeat split. cbn.
    rewrite <- (list_insert_id (_models c) i m Hm) at 1.
    apply Forall2_insert; [|done].
    apply Forall_Forall2_diag, Forall_forall. by intros.
  - cbn. repeat split. cbn. apply Forall_Forall2_diag, Forall_forall. by intros.
Qed.

Lemma for_each_setattr_built_alike (l : list (string * pyval)) c :
  built_alike c (for_each l (fun kv => Composite.setattr kv.1 kv.2) c).2.
Proof.
  revert c. induction l as [|[k v] l IH]; intros c; cbn; [apply built_alike_refl|].
  unfold bind. pose proof (setattr_built_alike k v c) as H1.
  destruct (Composite.setattr k v c) as [[[]|e] c1]; cbn in *; [|done].
  eapply built_alike_trans; [exact H1 | apply IH].
Qed.

(** What the construction leaves: the expression of the operators, no
    filter, the call mode of the class, and the sub-models with the class
    and call mode that they had. *)
Lemma init_fields models operation parnames autoshorten parvals c :
  Composite.init models operation parnames autoshorten parvals = Ok c ->
  exists ops, Composite.operators operation (length models) = Ok ops /\
    _opstr c = Composite.build_opstr ops /\
    _filters c = None /\ c_filterfunc c = ClassFilter /\
    Forall2 (fun m m' => cls m' = cls m /\ _filterfunc m' = _filterfunc m)
            models (_models c) /\
    forallb (fun m => flattens (cls m)) models = true.
Proof.
  unfold Composite.init.
  destruct (forallb (fun m => flattens (cls m)) models); [|discriminate]. cbn [negb].
  destruct (Composite.operators operation (length models)) as [ops|]; [|discriminate].
  cbn [rbind].
  destruct (Composite.rename _ _ _) as [aa|]; [|discriminate]. cbn [rbind].
  match goal with |- context [rbind ?s _] => destruct s as [aa'|] end; [|discriminate].
  cbn [rbind].
  match goal with
  | |- context [for_each ?l ?body ?self] =>
      pose proof (for_each_setattr_built_alike l self) as (H1&H2&H3&H4);
      destruct (for_each l body self) as [[[]|e] c']
  end; [|discriminate].
  cbn in *. intros [= <-]. by exists ops.
Qed.

(** A composite of two sub-models with the expression of [+], without
    filter, in the call mode of the class: its call returns the sum of the
    calls of the sub-models. *)
Lemma plus_composite_call (a b : model) (c : composite) (x ra rb : pyval) :
  _models c = [a; b] -> _opstr c = "mval[0]+mval[1]" -> _filters c = None ->
  c_filterfunc c = ClassFilter ->
  flattens (cls a) = true -> flattens (cls b) = true ->
  plain_call a -> plain_call b ->
  scalar_parameters c ->
  (call x a).1 = Ok ra ->
  (call x b).1 = Ok rb ->
  exists r, (Composite.call x c).1 = Ok r /\ Numpy.add ra rb = Ok r.
Proof.
  intros Hm Hstr Hfl Hff Hfa Hfb Hpa Hpb Hsc Ha Hb.
  rewrite (composite_call_sum c a b x Hm Hstr Hfl Hff Hsc).
  rewrite (call_plain x a Hfa Hpa) in Ha. rewrite (call_plain x b Hfb Hpb) in Hb.
  destruct (Numpy.array x) as [arr|]; [|discriminate]. cbn [rbind] in *.
  destruct (Numpy.ravel arr) as [flat|]; [|discriminate]. cbn [rbind] in *.
  destruct (submodel_output flat a).1 as [oa|]; [|discriminate].
  destruct (submodel_output flat b).1 as [ob|]; [|discriminate]. cbn [rbind] in *.
  destruct (Numpy.shape arr) as [sh|] eqn:Hsh; [|discriminate]. cbn [rbind] in *.
  destruct (reshape_add oa ob arr sh ra rb Hsh Ha Hb) as (r&Hr&Hadd).
  exists r. split; [|exact Hadd].
  destruct (Numpy.add oa ob) as [s|]; [|discriminate]. exact Hr.
Qed.

Lemma composite_call_sum_bound c a b x :
  _models c = [a; b] -> _opstr c = "mval[0]+mval[1]" -> _filters c = None ->
  c_filterfunc c = BoundF -> scalar_parameters c ->
  (Composite.call x c).1 =
    rbind (Numpy.array x) (fun arr =>
    rbind (Numpy.ravel arr) (fun flat =>
    rbind (rbind (submodel_output flat a).1 (fun oa =>
           rbind (submodel_output flat b).1 (fun ob => Numpy.add oa ob)))
          (fun res => rbind (Numpy.shape arr) (Numpy.reshape res)))).
Proof.
  intros Hm Hop Hfl Hff Hsc.
  destruct (composite_getParvals c Hsc) as (pv&c1&E1&A1&HF).
  unfold Composite.call, bind at 1, lift at 1.
  destruct (Numpy.array x) as [arr|e]; [|reflexivity]. cbn [rbind].
  rewrite (bind_run get _ c (Ok c) c eq_refl). rewrite Hff.
  unfold bind at 1, lift at 1.
  destruct (Numpy.ravel arr) as [flat|e]; [|reflexivity]. cbn [rbind].
  rewrite (bind_run _ _ _ _ _ E1).
  pose proof A1 as (HM&Hops1&Hop1&Hp1&Ha1&Hfl1). rewrite Hm in HM.
  apply Forall2_cons_inv_l in HM as (a1&k&Aa&HM&Hm1).
  apply Forall2_cons_inv_l in HM as (b1&k'&Ab&HM&->).
  apply Forall2_nil_inv_l in HM as ->.
  assert (Hf : (Composite.f flat pv c1).1 =
    rbind (submodel_output flat a).1 (fun oa =>
    rbind (submodel_output flat b).1 (fun ob => Numpy.add oa ob))).
  { rewrite (composite_f_sum c1 a1 b1 flat pv); try congruence.
    - by rewrite (submodel_output_agree flat a a1 Aa),
                 (submodel_output_agree flat b b1 Ab).
    - rewrite Hp1. eapply Forall2_impl; [exact HF|]. intros n w [Hw ?].
      split; [|done]. by eapply reads_cagree. }
  unfold bind at 1. cbn [Composite.call_filter].
  destruct (Composite.f flat pv c1) as [rf c2]. cbn [fst] in Hf. rewrite Hf.
  match goal with |- context [rbind ?a ?b] => destruct (rbind a b) as [res|e] end;
    [|reflexivity].
  unfold lift. reflexivity.
Qed.

(** The same in either plain call mode of the composite: before and after
    its first call. *)
Lemma plus_composite_call_plain (a b : model) (c : composite) (x ra rb : pyval) :
  _models c = [a; b] -> _opstr c = "mval[0]+mval[1]" -> _filters c = None ->
  Composite.plain_mode c ->
  flattens (cls a) = true -> flattens (cls b) = true ->
  plain_call a -> plain_call b ->
  scalar_parameters c ->
  (call x a).1 = Ok ra ->
  (call x b).1 = Ok rb ->
  exists r, (Composite.call x c).1 = Ok r /\ Numpy.add ra rb = Ok r.
Proof.
  intros Hm Hstr Hfl Hff Hfa Hfb Hpa Hpb Hsc Ha Hb.
  unfold Composite.plain_mode in Hff.
  destruct (c_filterfunc c) as [| |xt yt] eqn:Hmode; [|clear Hff|done].
  { by eapply plus_composite_call. }
  rewrite (composite_call_sum_bound c a b x Hm Hstr Hfl Hmode Hsc).
  rewrite (call_plain x a Hfa Hpa) in Ha. rewrite (call_plain x b Hfb Hpb) in Hb.
  destruct (Numpy.array x) as [arr|]; [|discriminate]. cbn [rbind] in *.
  destruct (Numpy.ravel arr) as [flat|]; [|discriminate]. cbn [rbind] in *.
  destruct (submodel_output flat a).1 as [oa|]; [|discriminate].
  destruct (submodel_output flat b).1 as [ob|]; [|discriminate]. cbn [rbind] in *.
  destruct (Numpy.shape arr) as [sh|] eqn:Hsh; [|discriminate]. cbn [rbind] in *.
  destruct (reshape_add oa ob arr sh ra rb Hsh Ha Hb) as (r&Hr&Hadd).
  exists r. split; [|exact Hadd].
  destruct (Numpy.add oa ob) as [s|]; [|discriminate]. exact Hr.
Qed.

(** C7, as amended: let a composite be built from two sub-models with the
    operator [+], and let [c] be a state of it, that of the constructor or a
    later one, with the sub-models [a] and [b]. When no filter is
    registered, the composite and the sub-models are in the plain call mode
    and every parameter of the composite reads as a scalar, then where
    [a(x)] and [b(x)] return, [composite(x)] returns [a(x) + b(x)]. *)
Theorem composite_sum_of_models (a0 b0 a b : model)
    (operation : Composite.operation) (parnames : gmap string string)
    (autoshorten : bool) (parvals : gmap string pyval) (c0 c : composite)
    (x ra rb : pyval) :
  operation = Composite.OpString "+" \/ operation = Composite.OpSequence ["+"] ->
  Composite.init [a0; b0] operation parnames autoshorten parvals = Ok c0 ->
  Composite.later_state c0 c ->
  _models c = [a; b] ->
  _filters c = None ->
  Composite.plain_mode c ->
  plain_call a -> plain_call b ->
  scalar_parameters c ->
  (call x a).1 = Ok ra ->
  (call x b).1 = Ok rb ->
  exists r, (Composite.call x c).1 = Ok r /\ Numpy.add ra rb = Ok r.
Proof.
  intros Hop Hinit [Hstr' HM'] Hm Hfl Hmode Hpa Hpb Hsc Ha Hb.
  destruct (init_fields _ _ _ _ _ _ Hinit) as (ops&Hops&Hstr&_&_&HM&Hflat).
  assert (Hops' : ops = ["+"]).
  { destruct Hop as [-> | ->]; vm_compute in Hops; congruence. }
  subst ops. change (Composite.build_opstr ["+"]) with "mval[0]+mval[1]" in Hstr.
  rewrite Hm in HM'.
  apply Forall2_cons_inv_r in HM' as (a1&k&Hca'&HM'&Hm0).
  apply Forall2_cons_inv_r in HM' as (b1&k'&Hcb'&HM'&->).
  apply Forall2_nil_inv_r in HM' as ->.
  rewrite Hm0 in HM.
  apply Forall2_cons_1 in HM as [[Hca _] HM].
  apply Forall2_cons_1 in HM as [[Hcb _] _].
  cbn in Hflat. apply andb_prop in Hflat as [Hfa Hfb%andb_prop%proj1].
  rewrite <- Hca, <- Hca' in Hfa. rewrite <- Hcb, <- Hcb' in Hfb.
  eapply plus_composite_call_plain; try eassumption. congruence.
Qed.

(** A composite on which the amended C7 applies: a line plus a constant,
    in the state that a first call leaves. *)
Lemma composite_sum_of_models_witness :
  exists r,
    (Composite.call (VArr [0; 1; 2]%Q)
       (Composite.call (VArr [7]%Q) Examples.line_plus_constant).2).1 = Ok r /\
    Numpy.add (VArr [1 * 0 + 0; 1 * 1 + 0; 1 * 2 + 0]%Q)
              (VArr [0 * (0 * 0 + 1); 0 * (1 * 0 + 1); 0 * (2 * 0 + 1)]%Q) = Ok r.
Proof.
  assert (Hm : exists a b,
    _models (Composite.call (VArr [7]%Q) Examples.line_plus_constant).2 = [a; b]
    /\ plain_call a /\ plain_call b
    /\ (call (VArr [0; 1; 2]%Q) a).1 = Ok (VArr [1 * 0 + 0; 1 * 1 + 0; 1 * 2 + 0]%Q)
    /\ (call (VArr [0; 1; 2]%Q) b).1
       = Ok (VArr [0 * (0 * 0 + 1); 0 * (1 * 0 + 1); 0 * (2 * 0 + 1)]%Q)).
  { eexists _, _. split; [reflexivity|]. split; [exact I|]. split; [exact I|].
    split; reflexivity. }
  destruct Hm as (a&b&Hm&Hpa&Hpb&Ha&Hb).
  apply (composite_sum_of_models Examples.line Examples.constant a b
           (Composite.OpString "+") ∅ true ∅ Examples.line_plus_constant
           (Composite.call (VArr [7]%Q) Examples.line_plus_constant).2).
  - by left.
  - reflexivity.
  - split; [reflexivity|]. repeat constructor.
  - exact Hm.
  - reflexivity.
  - exact I.
  - exact Hpa.
  - exact Hpb.
  - repeat constructor; eexists; split; reflexivity.
  - exact Ha.
  - exact Hb.
Defined.

(** C7 as stated fails where a filter is registered, where a sub-model or
    the composite is in another call mode, and where a parameter does not
    read as a scalar. With the filter that raises the output to 5,
    [line + constant] evaluates on [(0,1,2)] to [(5,5,5)], and the sum of the
    sub-models is [(0,1,2)]. With [line] in the call mode that doubles its
    output, the composite evaluates to [(0,1,2)] from the functions [f], and
    the sum of the sub-models is [(0,2,4)]. With a sub-model whose parameter
    has an array as default, the composite raises [ValueError] when [f]
    assigns the parameter, and the sum of the sub-models is [(0,1,2)]. With
    the composite itself in the call mode that doubles its output, it
    evaluates to [(0,2,4)], and the sum of the sub-models is [(0,1,2)]. *)
Lemma composite_sum_counterexample :
  (Composite.init [Examples.line; Examples.constant] (Composite.OpString "+")
                  ∅ true ∅ = Ok Examples.line_plus_constant
   /\ (Composite.addLowerBoundFilter 5 Examples.line_plus_constant).2
      = Examples.clamped
   /\ (Composite.call (VArr [0; 1; 2]%Q) Examples.clamped).1
      = Ok (VArr [5; 5; 5]%Q)
   /\ Examples.sum_of_calls (VArr [0; 1; 2]%Q) Examples.line Examples.constant
      = Ok (VArr [0; 1; 2]%Q)
   /\ (Composite.call (VArr [0; 1; 2]%Q) Examples.clamped).1
      <> Examples.sum_of_calls (VArr [0; 1; 2]%Q) Examples.line Examples.constant)
  /\ (exists c,
       Composite.init [Examples.doubled_line; Examples.constant]
                      (Composite.OpString "+") ∅ true ∅ = Ok c
       /\ (Composite.call (VArr [0; 1; 2]%Q) c).1 = Ok (VArr [0; 1; 2]%Q)
       /\ Examples.sum_of_calls (VArr [0; 1; 2]%Q) Examples.doubled_line
                                Examples.constant = Ok (VArr [0; 2; 4]%Q)
       /\ (Composite.call (VArr [0; 1; 2]%Q) c).1
          <> Examples.sum_of_calls (VArr [0; 1; 2]%Q) Examples.doubled_line
                                   Examples.constant)
  /\ (exists c,
       Composite.init [Examples.vector; Examples.constant]
                      (Composite.OpString "+") ∅ true ∅ = Ok c
       /\ (Composite.call (VArr [0; 1; 2]%Q) c).1 = Raise ValueError
       /\ Examples.sum_of_calls (VArr [0; 1; 2]%Q) Examples.vector
                                Examples.constant = Ok (VArr [0; 1; 2]%Q))
  /\ ((Composite.call (VArr [0; 1; 2]%Q) Examples.doubled_composite).1
        = Ok (VArr [0; 2; 4]%Q)
      /\ (Composite.call (VArr [0; 1; 2]%Q) Examples.doubled_composite).1
         <> Examples.sum_of_calls (VArr [0; 1; 2]%Q) Examples.line
                                  Examples.constant).
Proof.
  split; [|split; [|split]].
  - split; [reflexivity|]. split; [reflexivity|]. split; [reflexivity|].
    split; [reflexivity|]. vm_compute. discriminate.
  - eexists. split; [reflexivity|]. split; [reflexivity|].
    split; [reflexivity|]. vm_compute. discriminate.
  - eexists. split; [reflexivity|]. split; reflexivity.
  - split; [reflexivity|]. vm_compute. discriminate.
Qed.

End CompositeFacts.

(** ** The properties [parvals] and [pardict] of a composite *)

Section CompositeProperties.
Import FunctionModel.
Import Composite(composite, _models, c_pars, assign_parvals, assign_pardict).

(** An assignment to [pardict] or, when no parameter has that name, to
    [parvals] leaves the sub-models of the composite, and with them every
    parameter, as they are. *)
Lemma assign_pardict_models d c : _models (assign_pardict d c).2 = _models c.
Proof. reflexivity. Qed.

Lemma assign_parvals_models v c :
  "parvals" ∉ c_pars c ->
  assign_parvals v c = (Ok tt, Composite.set_other (insert "parvals" (Composite.Value v)) c).
Proof.
  intros H. unfold assign_parvals, Composite.setattr, bind, get.
  by rewrite bool_decide_eq_false_2.
Qed.

(** C8 (the code differs): [CompositeModel1D.__setattr__] stores every name
    that is no parameter in [__dict__], also [pardict], and the setter of
    the property is not called. For [line + constant], whose parameters
    [m], [b] and [C] are 1, 0 and 0, the assignment of
    [{m: 2, b: 3, C: 4}] to [pardict] returns, and [pardict] then reads
    [{m: 1, b: 0, C: 0}]. On [line] itself the dictionary reads back as it
    was assigned. *)
Theorem composite_pardict_not_assigned :
  let d : gmap string pyval := {["m" := VNum 2; "b" := VNum 3; "C" := VNum 4]} in
  let c' := (assign_pardict d Examples.line_plus_constant).2 in
  (assign_pardict d Examples.line_plus_constant).1 = Ok tt
  /\ (Composite._getPardict c').1
     = Ok {["m" := VNum 1; "b" := VNum 0; "C" := VNum 0]}
  /\ (Composite._getPardict c').1 <> Ok d
  /\ _models c' = _models Examples.line_plus_constant
  /\ (_getPardict (_setPardict {["m" := VNum 2; "b" := VNum 3]} Examples.line).2).1
     = Ok {["m" := VNum 2; "b" := VNum 3]}.
Proof.
  cbv zeta. split; [reflexivity|]. split; [by vm_compute|]. split.
  - intros H.
    assert (Hm : forall g1 g2 : gmap string pyval,
              Ok g1 = Ok g2 -> g1 !! "m" = g2 !! "m") by (by intros ?? [= ->]).
    assert (E : (Composite._getPardict
                   (assign_pardict {["m" := VNum 2; "b" := VNum 3; "C" := VNum 4]}
                      Examples.line_plus_constant).2).1
                = Ok {["m" := VNum 1; "b" := VNum 0; "C" := VNum 0]})
      by (by vm_compute).
    rewrite E in H. apply Hm in H. vm_compute in H. discriminate.
  - split; [reflexivity | by vm_compute].
Qed.

(** C10 (the code differs): for the same reason the assignment of a
    sequence to [parvals] of a composite updates no parameter and raises
    for no length. For [line + constant] the assignment of [(9,)] returns
    and [parvals] then reads [(1, 0, 0)], where the claim has [(9, 0, 0)];
    the assignment of four values returns, where the claim has
    [ValueError]. On [line] itself one value updates [m], and three values
    raise [ValueError]. *)
Theorem composite_parvals_not_assigned :
  let c' := (assign_parvals (VTuple [VNum 9]) Examples.line_plus_constant).2 in
  (assign_parvals (VTuple [VNum 9]) Examples.line_plus_constant).1 = Ok tt
  /\ (Composite._getParvals Examples.line_plus_constant).1
     = Ok [VNum 1; VNum 0; VNum 0]
  /\ (Composite._getParvals c').1 = Ok [VNum 1; VNum 0; VNum 0]
  /\ (assign_parvals (VTuple [VNum 9; VNum 9; VNum 9; VNum 9])
                     Examples.line_plus_constant).1 = Ok tt
  /\ (_getParvals (_setParvals [VNum 9] Examples.line).2).1
     = Ok [VNum 9; VNum 0]
  /\ (_setParvals [VNum 9; VNum 9; VNum 9] Examples.line).1 = Raise ValueError.
Proof.
  cbv zeta. repeat split; by vm_compute.
Qed.

End CompositeProperties.

(** ** Later states of a composite *)

Section LaterStateFacts.
Import FunctionModel.
Import Composite(composite, _models, _opstr, on_model, later_state,
                 submodel_output).
#[local] Arguments _getParvals : simpl never.

#[local] Instance same_class_order : PreOrder same_class.
Proof.
  split; [by intros m|].
  intros m1 m2 m3 [? ?] [? ?]. split; congruence.
Qed.

#[local] Instance later_state_preorder : PreOrder later_state.
Proof.
  split.
  - intros c. split; [done|]. apply Forall_Forall2_diag, Forall_forall. by intros.
  - intros c1 c2 c3 [H1 M1] [H2 M2]. split; [congruence|].
    eapply Forall2_trans; [|exact M1|exact M2]. intros ???. congruence.
Qed.

Lemma on_model_later {A} i (op : M model A) :
  preserves same_class op -> preserves later_state (on_model i op).
Proof.
  intros H c. unfold on_model.
  destruct (_models c !! i) as [m|] eqn:Hi; [|reflexivity].
  specialize (H m). destruct (op m) as [r m']. cbn in *. split; [done|]. cbn.
  rewrite <- (list_insert_id (_models c) i m Hi) at 1.
  apply Forall2_insert; [|apply H].
  apply Forall_Forall2_diag, Forall_forall. by intros.
Qed.

Lemma submodel_output_same_class x : preserves same_class (submodel_output x).
Proof. unfold submodel_output. preserve. apply getParvals_same_class. Qed.

Lemma composite_getattr_later name : preserves later_state (Composite.getattr name).
Proof.
  unfold Composite.getattr. preserve. apply on_model_later, getattr_same_class.
Qed.

Lemma composite_setattr_later name v :
  preserves later_state (Composite.setattr name v).
Proof.
  unfold Composite.setattr. preserve.
  - apply on_model_later, setattr_same_class.
  - intros c. change (later_state c c). reflexivity.
Qed.

Lemma composite_getParvals_later : preserves later_state Composite._getParvals.
Proof.
  unfold Composite._getParvals. generalize recursion_limit. intros d.
  induction d as [|d IH]; cbn [Composite._getParvals_rec]; preserve.
  - apply composite_getattr_later.
  - unfold Composite._autoInitPars. preserve. apply composite_setattr_later.
Qed.

Lemma composite_f_later x pv : preserves later_state (Composite.f x pv).
Proof.
  unfold Composite.f, Composite.params. preserve.
  - by intros c.
  - apply composite_setattr_later.
  - apply on_model_later, submodel_output_same_class.
Qed.

(** A call of the composite, an assignment to it and the registration of a
    filter leave a later state. *)
Lemma composite_call_later x : preserves later_state (Composite.call x).
Proof.
  unfold Composite.call. preserve.
  - apply composite_getParvals_later.
  - unfold Composite.call_filter. preserve;
      first [ apply composite_f_later
            | intros c; change (later_state c c); reflexivity ].
Qed.

Lemma addFilter_later flt : preserves later_state (Composite.addFilter flt).
Proof.
  intros c. split; [done|]. apply Forall_Forall2_diag, Forall_forall. by intros.
Qed.

End LaterStateFacts.

(** ** The sub-models after a call of the composite *)

Section AfterCallFacts.
Import FunctionModel.
Import Composite(composite, _models, _ops, _opstr, c_pars, _argmap, _filters,
                 c_filterfunc, on_model, cagree, reads, scalar_parameters,
                 submodel_output, same_modes).
#[local] Arguments _getParvals : simpl never.

#[local] Instance same_mode_preorder : PreOrder same_mode.
Proof.
  split; [by intros m|]. intros m1 m2 m3. unfold same_mode. congruence.
Qed.

#[local] Instance same_modes_preorder : PreOrder same_modes.
Proof.
  split.
  - intros c. apply Forall_Forall2_diag, Forall_forall. by intros.
  - intros c1 c2 c3 H1 H2. eapply Forall2_trans; [|exact H1|exact H2].
    intros ???. unfold same_mode. congruence.
Qed.

(** *** Call modes *)

Lemma getattr_same_mode a : preserves same_mode (getattr a).
Proof.
  intros m. unfold getattr, same_mode.
  destruct (descriptors (cls m) !! a);
    [destruct (slots m !! a) | destruct (attrs m !! a)]; reflexivity.
Qed.

Lemma setattr_same_mode a v : preserves same_mode (setattr a v).
Proof. intros m. apply setattr_filterfunc. Qed.

Lemma getParvals_same_mode : preserves same_mode _getParvals.
Proof.
  unfold _getParvals. generalize recursion_limit. intros d.
  induction d as [|d IH]; cbn [_getParvals_rec]; preserve.
  - apply getattr_same_mode.
  - unfold _autoInitPars. preserve. apply setattr_same_mode.
Qed.

Lemma submodel_output_same_mode x : preserves same_mode (submodel_output x).
Proof. unfold submodel_output. preserve. apply getParvals_same_mode. Qed.

Lemma on_model_same_modes {A} i (op : M model A) :
  preserves same_mode op -> preserves same_modes (on_model i op).
Proof.
  intros H c. unfold on_model.
  destruct (_models c !! i) as [m|] eqn:Hi; [|reflexivity].
  specialize (H m). destruct (op m) as [r m']. cbn in *. unfold same_modes. cbn.
  rewrite <- (list_insert_id (_models c) i m Hi) at 1.
  apply Forall2_insert; [|done].
  apply Forall_Forall2_diag, Forall_forall. by intros.
Qed.

Lemma composite_getattr_same_modes name :
  preserves same_modes (Composite.getattr name).
Proof.
  unfold Composite.getattr. preserve.
  apply on_model_same_modes, getattr_same_mode.
Qed.

Lemma composite_setattr_same_modes name v :
  preserves same_modes (Composite.setattr name v).
Proof.
  unfold Composite.setattr. preserve.
  - apply on_model_same_modes, setattr_same_mode.
  - intros c. change (same_modes c c). reflexivity.
Qed.

Lemma composite_getParvals_same_modes : preserves same_modes Composite._getParvals.
Proof.
  unfold Composite._getParvals. generalize recursion_limit. intros d.
  induction d as [|d IH]; cbn [Composite._getParvals_rec]; preserve.
  - apply composite_getattr_same_modes.
  - unfold Composite._autoInitPars. preserve. apply composite_setattr_same_modes.
Qed.

Lemma composite_f_same_modes x pv : preserves same_modes (Composite.f x pv).
Proof.
  unfold Composite.f, Composite.params. preserve.
  - by intros c.
  - apply composite_setattr_same_modes.
  - apply on_model_same_modes, submodel_output_same_mode.
Qed.

(** A call of the composite leaves the call mode of every sub-model. *)
Lemma composite_call_same_modes x : preserves same_modes (Composite.call x).
Proof.
  unfold Composite.call. preserve.
  - apply composite_getParvals_same_modes.
  - unfold Composite.call_filter. preserve;
      first [ apply composite_f_same_modes
            | intros c; change (same_modes c c); reflexivity ].
Qed.

(** *** Parameter values *)

Lemma submodel_output_keeps x m :
  initialised m -> agree m (submodel_output x m).2.
Proof.
  intros Hi. unfold submodel_output, bind, get, lift.
  destruct (getParvals_initialised m Hi) as (pv&m1&E&A&_). by rewrite E.
Qed.

Lemma on_model_agree_at {A} i (op : M model A) c :
  (forall m, _models c !! i = Some m -> agree m (op m).2) ->
  cagree c (on_model i op c).2.
Proof.
  intros Hop. unfold on_model. destruct (_models c !! i) as [m|] eqn:Hi;
    [|apply cagree_refl].
  specialize (Hop m eq_refl). destruct (op m) as [r m']. cbn in *.
  split; [|by repeat split]. cbn.
  rewrite <- (list_insert_id (_models c) i m Hi) at 1.
  apply Forall2_insert; [|done].
  apply Forall_Forall2_diag, Forall_forall. intros ? _. apply agree_refl.
Qed.

Lemma cagree_initialised c c' :
  cagree c c' -> Forall initialised (_models c) -> Forall initialised (_models c').
Proof.
  intros [HM _]. induction HM as [|m m' l l' A _ IH]; intros H; [done|].
  inversion_clear H. constructor; [by eapply agree_initialised | by apply IH].
Qed.

Lemma outputs_keep x (l : list nat) c :
  Forall initialised (_models c) ->
  cagree c (comprehension l (fun i => on_model i (submodel_output x)) c).2.
Proof.
  revert c. induction l as [|i l IH]; intros c Hi; cbn; [apply cagree_refl|].
  assert (A1 : cagree c (on_model i (submodel_output x) c).2).
  { apply on_model_agree_at. intros m Hm. apply submodel_output_keeps.
    rewrite Forall_forall in Hi. apply Hi, list_elem_of_lookup. eauto. }
  unfold bind at 1.
  destruct (on_model i (submodel_output x) c) as [[o|e] c1]; cbn in *; [|exact A1].
  specialize (IH c1 (cagree_initialised _ _ A1 Hi)). unfold bind.
  destruct (comprehension l _ c1) as [[os|e] c2]; cbn in *;
    by eapply cagree_trans.
Qed.

Lemma composite_f_keeps x pv c :
  Forall2 (fun name v => reads c name v /\ isscalar v = true) (c_pars c) pv ->
  Forall initialised (_models c) ->
  cagree c (Composite.f x pv c).2.
Proof.
  intros HF Hi.
  destruct (for_each_reads (c_pars c) pv c HF) as (c2&E2&A2).
  unfold Composite.f. rewrite (bind_run Composite.params _ c (Ok (c_pars c)) c eq_refl).
  rewrite (bind_run _ _ _ _ _ E2).
  rewrite (bind_run get _ c2 (Ok c2) c2 eq_refl).
  pose proof (outputs_keep x (seq 0 (length (_models c2))) c2
                (cagree_initialised _ _ A2 Hi)) as A3.
  unfold bind at 1.
  destruct (comprehension _ _ c2) as [[mval|e] c3]; cbn in A3 |- *;
    [|by eapply cagree_trans].
  unfold bind, get, lift. destruct (Composite.eval _ _); cbn;
    [destruct (_filters c3); cbn|]; by eapply cagree_trans.
Qed.

(** Where every parameter is set to a scalar, a call of the composite
    leaves every parameter of every sub-model at its value. *)
Lemma composite_call_keeps x c :
  scalar_parameters c -> Forall initialised (_models c) ->
  cagree c (Composite.call x c).2.
Proof.
  intros Hsc Hi.
  destruct (composite_getParvals c Hsc) as (pv&c1&E1&A1&HF).
  unfold Composite.call, bind at 1, lift at 1.
  destruct (Numpy.array x) as [arr|e]; [|apply cagree_refl]. cbn [rbind].
  rewrite (bind_run get _ c (Ok c) c eq_refl).
  unfold bind at 1, lift at 1.
  destruct (Numpy.ravel arr) as [flat|e]; [|apply cagree_refl]. cbn [rbind].
  rewrite (bind_run _ _ _ _ _ E1).
  assert (HF1 : forall c', cagree c1 c' -> c_pars c' = c_pars c1 ->
            Forall2 (fun name v => reads c' name v /\ isscalar v = true)
                    (c_pars c') pv).
  { intros c' A' ->. replace (c_pars c1) with (c_pars c) by (symmetry; apply A1).
    eapply Forall2_impl; [exact HF|]. intros n w [Hw ?]. split; [|done].
    eapply reads_cagree; [|exact Hw]. by eapply cagree_trans. }
  assert (Hi1 : Forall initialised (_models c1)) by (by eapply cagree_initialised).
  assert (A2 : cagree c1 (Composite.call_filter (c_filterfunc c) flat pv c1).2).
  { destruct (c_filterfunc c) as [| |xt yt]; cbn [Composite.call_filter].
    - unfold bind at 1, modify.
      set (c1' := Composite.set_c_filterfunc BoundF c1).
      assert (A' : cagree c1 c1').
      { split; [|by repeat split]. apply (cagree_refl c1). }
      eapply cagree_trans; [exact A'|].
      apply composite_f_keeps; [by apply HF1 | exact Hi1].
    - apply composite_f_keeps; [apply HF1; [apply cagree_refl | done] | exact Hi1].
    - unfold bind at 1, lift at 1.
      destruct (apply_opt xt flat) as [x'|e]; [|apply cagree_refl].
      pose proof (composite_f_keeps x' pv c1
                    (HF1 c1 (cagree_refl c1) eq_refl) Hi1) as A'.
      unfold bind. destruct (Composite.f x' pv c1) as [[r|e] c2]; exact A'. }
  unfold bind at 1.
  destruct (Composite.call_filter (c_filterfunc c) flat pv c1) as [[res|e] c2];
    cbn in A2 |- *; by eapply cagree_trans.
Qed.

(** *** Calls of the sub-models *)

Lemma call_filter_result ff x pv m :
  (call_filter ff x pv m).1 = filtered ff (cls m) x pv.
Proof. by destruct ff. Qed.

(** The result of a call depends on the class, the call mode and the
    values of the parameters only. *)
Lemma call_agree x m m' :
  agree m m' -> same_mode m m' -> (call x m').1 = (call x m).1.
Proof.
  intros A Hm.
  assert (Hv : forall m, (call x m).1 =
    rbind (Numpy.array x) (fun arr =>
      if flattens (cls m) then
        rbind (Numpy.ravel arr) (fun flat =>
        rbind (_getParvals m).1 (fun pv =>
        rbind (filtered (_filterfunc m) (cls m) flat pv) (fun res =>
        rbind (Numpy.shape arr) (Numpy.reshape res))))
      else
        rbind (_getParvals m).1 (fun pv =>
          filtered (_filterfunc m) (cls m) arr pv))).
  { clear. intros m. unfold call. unfold bind at 1, lift at 1.
    destruct (Numpy.array x) as [arr|e]; [|reflexivity]. cbn [rbind].
    unfold bind at 1, get. pose proof (getParvals_frame m) as (Hc&_).
    destruct (flattens (cls m)).
    - unfold bind at 1, lift at 1.
      destruct (Numpy.ravel arr) as [flat|e]; [|reflexivity]. cbn [rbind].
      unfold bind at 1. destruct (_getParvals m) as [[pv|e] m1]; [|reflexivity].
      cbn [fst snd rbind] in *. unfold bind, lift.
      rewrite <- Hc, <- call_filter_result.
      by destruct (call_filter (_filterfunc m) flat pv m1) as [[res|e] m2].
    - unfold bind at 1. destruct (_getParvals m) as [[pv|e] m1]; [|reflexivity].
      cbn [fst snd rbind] in *. by rewrite <- Hc, <- call_filter_result. }
  rewrite !Hv, (getParvals_agree m m' A), Hm.
  by replace (cls m') with (cls m) by (symmetry; apply A).
Qed.

(** After a call of the composite the sub-models evaluate as before it. *)
Lemma composite_call_then_submodels c a b x :
  _models c = [a; b] -> scalar_parameters c ->
  initialised a -> initialised b ->
  exists a' b', _models (Composite.call x c).2 = [a'; b'] /\
    (forall y, (call y a').1 = (call y a).1) /\
    (forall y, (call y b').1 = (call y b).1).
Proof.
  intros Hm Hsc Ha Hb.
  pose proof (composite_call_keeps x c Hsc) as [HM _].
  { rewrite Hm. by repeat constructor. }
  pose proof (composite_call_same_modes x c) as HS. unfold same_modes in HS.
  rewrite Hm in HM, HS.
  apply Forall2_cons_inv_l in HM as (a'&k&Aa&HM&Hm').
  apply Forall2_cons_inv_l in HM as (b'&k'&Ab&HM&->).
  apply Forall2_nil_inv_l in HM as ->. rewrite Hm' in HS.
  apply Forall2_cons_1 in HS as [Sa HS]. apply Forall2_cons_1 in HS as [Sb _].
  exists a', b'. split; [done|].
  split; intros y; by apply call_agree.
Qed.

End AfterCallFacts.

Section ConstructionFacts.
Import FunctionModel.
Import Composite(composite, _models, _ops, _opstr, c_pars, _argmap, _filters,
                 c_filterfunc, reads, scalar_parameters, routes_into, suffixed).

(** *** Names with a suffix *)

Lemma length_append (p s : string) :
  String.length (p +:+ s) = String.length p + String.length s.
Proof. induction p as [|c p IH]; simpl; [done | by rewrite IH]. Qed.

Lemma append_ne_self (p s : string) : s <> "" -> p +:+ s <> p.
Proof.
  intros Hs H. apply (f_equal String.length) in H. rewrite length_append in H.
  destruct s; [done|]. cbn in H. lia.
Qed.

Lemma append_suffix_inj (s p q : string) : p +:+ s = q +:+ s -> p = q.
Proof.
  revert q. induction p as [|c p IH]; intros [|c' q] H.
  - done.
  - apply (f_equal String.length) in H. rewrite !length_append in H. cbn in H. lia.
  - apply (f_equal String.length) in H. rewrite !length_append in H. cbn in H. lia.
  - cbn in H. injection H as -> H. f_equal. by apply IH.
Qed.

Lemma append_0_ne_1 (p q : string) : p +:+ "0" <> q +:+ "1".
Proof.
  revert q. induction p as [|c p IH]; intros [|c' q] H; cbn in H.
  - discriminate.
  - injection H as _ H. by destruct q.
  - injection H as _ H. by destruct p.
  - injection H as _ H. by eapply IH.
Qed.

Lemma prefix_refl (s : string) : String.prefix s s = true.
Proof.
  induction s as [|c s IH]; [done|]. cbn.
  destruct (Ascii.ascii_dec c c); [exact IH | done].
Qed.

(** *** The names of the parameters of a composite *)

Lemma existsb_prefix_false (argname : string) (n : nat) (cargs : list string) :
  existsb (fun ja => String.prefix argname ja.2 && negb (ja.1 =? n)%nat)
          (imap pair cargs) = false ->
  forall j a2, cargs !! j = Some a2 -> String.prefix argname a2 = true -> j = n.
Proof.
  intros H j a2 Hj Hp. destruct (decide (j = n)) as [|Hne]; [done|]. exfalso.
  assert (Hex : existsb (fun ja => String.prefix argname ja.2 && negb (ja.1 =? n)%nat)
                        (imap pair cargs) = true); [|congruence].
  apply existsb_exists. exists (j, a2). split.
  - apply list_elem_of_In, list_elem_of_lookup. exists j.
    by rewrite list_lookup_imap, Hj.
  - cbn. rewrite Hp. cbn. apply negb_true_iff. by apply Nat.eqb_neq.
Qed.

Lemma drop_head {A} (l : list A) n x rest :
  x :: rest = drop n l -> l !! n = Some x /\ rest = drop (S n) l.
Proof.
  intros H. assert (Hx : l !! n = Some x).
  { rewrite <- (Nat.add_0_r n), <- lookup_drop, <- H. done. }
  split; [done|]. rewrite (drop_S _ _ _ Hx) in H. by injection H.
Qed.

(** The loop that shortens the names keeps every name routed into a
    sub-model: a name is removed from the map only when it is replaced in
    the list. [n] is the position the loop has reached. *)
Lemma shorten_routes (V : nat * string -> Prop) renamed cargs :
  NoDup cargs ->
  forall todo n args argmap,
    todo = drop n (imap pair cargs) ->
    (forall k name, args !! k = Some name ->
       exists tgt, argmap !! name = Some tgt /\ V tgt) ->
    (forall k a, n <= k -> cargs !! k = Some a ->
       args !! k = Some a /\ exists tgt, argmap !! a = Some tgt /\ tgt.2 <> a) ->
    (forall k name, args !! k = Some name ->
       cargs !! k = Some name \/
       forall j a2, cargs !! j = Some a2 -> String.prefix name a2 = true -> j = k) ->
    exists args' argmap',
      Composite.shorten renamed cargs todo args argmap = Ok (args', argmap') /\
      forall k name, args' !! k = Some name ->
        exists tgt, argmap' !! name = Some tgt /\ V tgt.
Proof.
  intros Hnd todo.
  induction todo as [|[i a] todo IH]; intros n args argmap Htodo I2 I3 I4.
  - cbn. eauto.
  - apply drop_head in Htodo as [Hn Htodo].
    rewrite list_lookup_imap in Hn.
    destruct (cargs !! n) as [a'|] eqn:Hcn; [|discriminate].
    cbn in Hn. injection Hn as <- <-.
    assert (Hskip : exists args' argmap',
      Composite.shorten renamed cargs todo args argmap = Ok (args', argmap') /\
      forall k name, args' !! k = Some name ->
        exists tgt, argmap' !! name = Some tgt /\ V tgt).
    { apply (IH (S n)); [done | done | | done].
      intros k b Hk Hb. apply I3; [lia | done]. }
    cbn [Composite.shorten].
    destruct (bool_decide (a' ∈ renamed)); [exact Hskip|].
    destruct (I3 n a') as (Han&tgt&Htgt&Hne); [lia | done |]. rewrite Htgt.
    destruct (existsb _ _) eqn:Hex; [exact Hskip|].
    pose proof (existsb_prefix_false _ _ _ Hex) as Hfree.
    assert (Hother : forall k name, k <> n -> args !! k = Some name -> name <> a').
    { intros k name Hk Hargs ->. destruct (I4 k a' Hargs) as [Hc|Hp].
      - apply Hk. by eapply NoDup_lookup.
      - apply Hk. symmetry. apply (Hp n a' Hcn), prefix_refl. }
    apply (IH (S n)); [done | | | ].
    + intros k name Hk. destruct (decide (k = n)) as [->|Hkn].
      * rewrite list_lookup_insert_eq in Hk by (by eapply lookup_lt_Some).
        injection Hk as <-. exists tgt.
        rewrite lookup_delete_ne, lookup_insert_eq by done. split; [done|].
        destruct (I2 n a' Han) as (tgt'&Ht'&HV). congruence.
      * rewrite list_lookup_insert_ne in Hk by done.
        rewrite lookup_delete_ne by (symmetry; by eapply Hother).
        destruct (decide (name = tgt.2)) as [->|Hna].
        -- rewrite lookup_insert_eq. exists tgt. split; [done|].
           destruct (I2 n a' Han) as (tgt'&Ht'&HV). congruence.
        -- rewrite lookup_insert_ne by done. by eapply I2.
    + intros k b Hk Hb. destruct (I3 k b) as (Hab&tb&Htb&Hnb); [lia | done |].
      rewrite list_lookup_insert_ne by lia. split; [done|].
      exists tb. split; [|done].
      rewrite lookup_delete_ne.
      2:{ intros ->. assert (n = k) by (by eapply NoDup_lookup). lia. }
      rewrite lookup_insert_ne; [done|].
      intros Heq. assert (k = n); [|lia]. apply (Hfree k b Hb).
      rewrite <- Heq. apply prefix_refl.
    + intros k name Hk. destruct (decide (k = n)) as [->|Hkn].
      * rewrite list_lookup_insert_eq in Hk by (by eapply lookup_lt_Some).
        injection Hk as <-. right. exact Hfree.
      * rewrite list_lookup_insert_ne in Hk by done. by apply I4.
Qed.

Lemma suffixed_NoDup a b :
  NoDup (_pars a) -> NoDup (_pars b) -> NoDup (suffixed a b).*1.
Proof.
  intros Ha Hb. unfold suffixed. rewrite fmap_app, <- !list_fmap_compose.
  apply NoDup_app. split; [|split].
  - apply NoDup_fmap_2; [|done]. intros p q H. cbn in H. by eapply append_suffix_inj.
  - intros name [p [-> _]]%list_elem_of_fmap [q [H _]]%list_elem_of_fmap.
    cbn in H. by eapply append_0_ne_1.
  - apply NoDup_fmap_2; [|done]. intros p q H. cbn in H. by eapply append_suffix_inj.
Qed.

Lemma suffixed_routes a b name tgt :
  (name, tgt) ∈ suffixed a b -> routes_into [a; b] tgt /\ tgt.2 <> name.
Proof.
  unfold suffixed. intros [H|H]%elem_of_app;
    apply list_elem_of_fmap in H as [p [[= -> ->] Hp]]; cbn.
  - split; [by exists a | symmetry; by apply append_ne_self].
  - split; [by exists b | symmetry; by apply append_ne_self].
Qed.

(** The construction from two models whose parameter names are unique
    routes every parameter of the composite into a sub-model. *)
Lemma init_default_routes a b operation autoshorten c :
  Composite.init [a; b] operation ∅ autoshorten ∅ = Ok c ->
  NoDup (_pars a) -> NoDup (_pars b) ->
  _models c = [a; b] /\
  forall name, name ∈ c_pars c ->
    exists tgt, _argmap c !! name = Some tgt /\ routes_into [a; b] tgt.
Proof.
  intros Hinit Ha Hb. unfold Composite.init in Hinit.
  destruct (forallb _ _); [|discriminate]. cbn [negb] in Hinit.
  destruct (Composite.operators _ _) as [ops|]; [|discriminate].
  cbn [rbind] in Hinit. rewrite !map_to_list_empty in Hinit.
  cbn [Composite.rename rbind map for_each] in Hinit.
  change (flat_map _ (imap pair [a; b])) with
    (map (fun p => (p +:+ "0", (0, p))) (_pars a) ++
     map (fun p => (p +:+ "1", (1, p))) (_pars b) ++ []) in Hinit.
  rewrite app_nil_r in Hinit. fold (suffixed a b) in Hinit.
  set (args := map fst (suffixed a b)) in *.
  set (argmap := fold_left (fun am kv => <[kv.1 := kv.2]> am) (suffixed a b) ∅) in *.
  pose proof (suffixed_NoDup a b Ha Hb) as Hnd.
  assert (Hlook : forall k name, args !! k = Some name ->
            exists tgt, argmap !! name = Some tgt /\ routes_into [a; b] tgt /\
                        tgt.2 <> name).
  { intros k name Hk. subst args. rewrite list_lookup_fmap in Hk.
    destruct (suffixed a b !! k) as [[name' tgt]|] eqn:Hs; [|discriminate].
    cbn in Hk. injection Hk as ->.
    assert (Hin : (name, tgt) ∈ suffixed a b) by (apply list_elem_of_lookup; eauto).
    exists tgt. split; [by apply fold_insert_lookup|]. by eapply suffixed_routes. }
  assert (Hres : exists args' argmap',
    (if autoshorten
     then Composite.shorten [] args (imap pair args) args argmap
     else Ok (args, argmap)) = Ok (args', argmap') /\
    forall k name, args' !! k = Some name ->
      exists tgt, argmap' !! name = Some tgt /\ routes_into [a; b] tgt).
  { destruct autoshorten.
    - apply (shorten_routes _ [] args Hnd _ 0); [done | | | by left].
      + intros k name Hk. destruct (Hlook k name Hk) as (tgt&?&?&?). eauto.
      + intros k name _ Hk. split; [done|].
        destruct (Hlook k name Hk) as (tgt&?&?&?). eauto.
    - exists args, argmap. split; [done|].
      intros k name Hk. destruct (Hlook k name Hk) as (tgt&?&?&?). eauto. }
  destruct Hres as (args'&argmap'&Hres&Hroutes).
  cbn [fst snd] in Hinit. rewrite Hres in Hinit. cbn in Hinit.
  injection Hinit as <-. cbn. split; [done|].
  intros name [k Hk]%list_elem_of_lookup. by eapply Hroutes.
Qed.

(** When moreover the parameters of the sub-models have scalar values,
    every parameter of the composite reads as a scalar. *)
Lemma init_default_scalar_parameters a b operation autoshorten c :
  Composite.init [a; b] operation ∅ autoshorten ∅ = Ok c ->
  NoDup (_pars a) -> NoDup (_pars b) ->
  scalar_values a -> scalar_values b ->
  scalar_parameters c.
Proof.
  intros Hinit Ha Hb Hsa Hsb.
  destruct (init_default_routes a b operation autoshorten c Hinit Ha Hb)
    as [Hm Hroutes].
  apply Forall_forall. intros name Hname.
  destruct (Hroutes name Hname) as ([i n]&Hr&m&Hi&Hn). cbn in Hi, Hn.
  assert (Hv : exists v, stored m n = Some v /\ isscalar v = true).
  { destruct i as [|[|i]]; cbn in Hi; [| |done]; injection Hi as <-; auto. }
  destruct Hv as (v&Hs&Hv). exists v. split; [|done].
  destruct (reads_getattr c name v) as (c'&E&_); [|by rewrite E].
  exists i, n, m. rewrite Hm. by repeat split.
Qed.

Lemma scalar_values_initialised m : scalar_values m -> initialised m.
Proof. intros H p Hp. destruct (H p Hp) as (v&->&_). by eexists. Qed.

(** The default construction from two one-dimensional models whose
    parameters have unique names and scalar values returns, and the composite
    evaluates to the sum of the sub-models, which evaluate after the call of
    the composite as they did before it. *)
Lemma composite_sum_default (a b : model) (autoshorten : bool) (x ra rb : pyval) :
  flattens (cls a) = true -> flattens (cls b) = true ->
  NoDup (_pars a) -> NoDup (_pars b) ->
  scalar_values a -> scalar_values b ->
  plain_call a -> plain_call b ->
  (call x a).1 = Ok ra -> (call x b).1 = Ok rb ->
  exists c r,
    Composite.init [a; b] (Composite.OpString "+") ∅ autoshorten ∅ = Ok c /\
    (Composite.call x c).1 = Ok r /\ Numpy.add ra rb = Ok r /\
    exists a' b', _models (Composite.call x c).2 = [a'; b'] /\
      (call x a').1 = Ok ra /\ (call x b').1 = Ok rb.
Proof.
  intros Hfa Hfb Ha Hb Hsa Hsb Hpa Hpb Hra Hrb.
  assert (Hc : exists c,
    Composite.init [a; b] (Composite.OpString "+") ∅ autoshorten ∅ = Ok c).
  { unfold Composite.init. cbn [forallb]. rewrite Hfa, Hfb. cbn [andb negb].
    change (Composite.operators _ _) with (Ok ["+"]). cbn [rbind].
    rewrite !map_to_list_empty. cbn [Composite.rename rbind map for_each].
    change (flat_map _ (imap pair [a; b])) with
      (map (fun p => (p +:+ "0", (0, p))) (_pars a) ++
       map (fun p => (p +:+ "1", (1, p))) (_pars b) ++ []).
    rewrite app_nil_r. fold (suffixed a b).
    set (args := map fst (suffixed a b)).
    set (argmap := fold_left (fun am kv => <[kv.1 := kv.2]> am) (suffixed a b) ∅).
    destruct autoshorten; [|by eexists].
    destruct (shorten_routes (fun _ => True) [] args (suffixed_NoDup a b Ha Hb)
                (imap pair args) 0 args argmap) as (args'&argmap'&E&_);
      [done | | | by left | ].
    - intros k name Hk. subst args. rewrite list_lookup_fmap in Hk.
      destruct (suffixed a b !! k) as [[name' tgt]|] eqn:Hs; [|discriminate].
      cbn in Hk. injection Hk as ->. exists tgt. split; [|done].
      apply fold_insert_lookup; [by apply suffixed_NoDup|].
      apply list_elem_of_lookup; eauto.
    - intros k name _ Hk. split; [done|]. subst args.
      rewrite list_lookup_fmap in Hk.
      destruct (suffixed a b !! k) as [[name' tgt]|] eqn:Hs; [|discriminate].
      cbn in Hk. injection Hk as ->.
      assert (Hin : (name, tgt) ∈ suffixed a b) by (apply list_elem_of_lookup; eauto).
      exists tgt. split; [by apply fold_insert_lookup; [apply suffixed_NoDup|]|].
      by eapply suffixed_routes.
    - cbn [fst snd]. rewrite E. by eexists. }
  destruct Hc as [c Hinit]. exists c.
  destruct (init_default_routes a b _ autoshorten c Hinit Ha Hb) as [Hm _].
  pose proof (init_default_scalar_parameters a b _ autoshorten c Hinit Ha Hb Hsa Hsb)
    as Hsc.
  destruct (init_fields _ _ _ _ _ _ Hinit) as (ops&Hops&Hstr&Hfl&Hff&_&_).
  assert (ops = ["+"]) as -> by (vm_compute in Hops; congruence).
  change (Composite.build_opstr ["+"]) with "mval[0]+mval[1]" in Hstr.
  destruct (plus_composite_call a b c x ra rb) as (r&Hr&Hadd); try done.
  exists r. split; [done|]. split; [done|]. split; [done|].
  destruct (composite_call_then_submodels c a b x Hm Hsc) as (a'&b'&Hm'&Ea&Eb);
    [by apply scalar_values_initialised..|].
  exists a', b'. by rewrite Ea, Eb.
Qed.

End ConstructionFacts.

(** * Further properties *)

(** ** Rules for the specifications of methods *)

Section HoareRules.
Import Hoare.
Context {S : Type}.
Implicit Types (P I E : S -> Prop).

Lemma triple_ret {A} (a : A) (Q : A -> S -> Prop) E : triple (Q a) (ret a) Q E.
Proof. by intros s H. Qed.

Lemma triple_raise {A} e (Q : A -> S -> Prop) E : triple E (raise e) Q E.
Proof. by intros s H. Qed.

Lemma triple_bind {A B} P (c : M S A) (k : A -> M S B) Q1 Q E :
  triple P c Q1 E -> (forall a, triple (Q1 a) (k a) Q E) ->
  triple P (bind c k) Q E.
Proof.
  intros Hc Hk s Hs. specialize (Hc s Hs). unfold bind.
  destruct (c s) as [[a|e] s']; [by apply Hk | done].
Qed.

Lemma triple_weaken {A} P P' (c : M S A) Q Q' E E' :
  triple P' c Q' E' -> (forall s, P s -> P' s) ->
  (forall a s, Q' a s -> Q a s) -> (forall s, E' s -> E s) ->
  triple P c Q E.
Proof.
  intros Hc HP HQ HE s Hs. specialize (Hc s (HP s Hs)).
  destruct (c s) as [[a|e] s']; auto.
Qed.

Lemma triple_modify (g : S -> S) (Q : unit -> S -> Prop) E :
  triple (fun s => Q tt (g s)) (modify g) Q E.
Proof. by intros s H. Qed.

Lemma triple_lift {A} P (r : result A) (Q : A -> S -> Prop) E :
  (forall a s, r = Ok a -> P s -> Q a s) -> (forall s, P s -> E s) ->
  triple P (lift r) Q E.
Proof. intros HQ HE s Hs. unfold lift. destruct r; auto. Qed.

Lemma triple_for_each {A} I (l : list A) (body : A -> M S unit) E :
  (forall a, a ∈ l -> triple I (body a) (fun _ => I) E) ->
  triple I (for_each l body) (fun _ => I) E.
Proof.
  induction l as [|a l IH]; intros H; cbn; [by intros s Hs|].
  eapply triple_bind; [apply H; left|]. intros ?. apply IH.
  intros b Hb. apply H. by right.
Qed.

Lemma yields_ret {A} I (a : A) (K : A -> Prop) : K a -> yields I (ret a) K.
Proof. by intros H s Hs. Qed.

Lemma yields_raise {A} I e (K : A -> Prop) : yields I (raise e) K.
Proof. by intros s Hs. Qed.

Lemma yields_lift {A} I (r : result A) : yields I (lift r) (fun a => r = Ok a).
Proof. intros s Hs. unfold lift. by destruct r. Qed.

Lemma yields_get I : yields I get I.
Proof. by intros s Hs. Qed.

Lemma yields_modify I (g : S -> S) :
  (forall s, I s -> I (g s)) -> yields I (modify g) (fun _ => True).
Proof. intros H s Hs. cbn. auto. Qed.

Lemma yields_bind {A B} I (c : M S A) (k : A -> M S B) K1 K :
  yields I c K1 -> (forall a, K1 a -> yields I (k a) K) -> yields I (bind c k) K.
Proof.
  intros Hc Hk s Hs. specialize (Hc s Hs). unfold bind.
  destruct (c s) as [[a|e] s']; [|done]. destruct Hc as [Ha Hs']. by apply Hk.
Qed.

Lemma yields_weaken {A} I (c : M S A) (K K' : A -> Prop) :
  yields I c K -> (forall a, K a -> K' a) -> yields I c K'.
Proof.
  intros Hc H s Hs. specialize (Hc s Hs).
  destruct (c s) as [[a|e] s']; [|done]. destruct Hc. auto.
Qed.

Lemma yields_for_each {A} I (l : list A) (body : A -> M S unit) :
  (forall a, a ∈ l -> yields I (body a) (fun _ => True)) ->
  yields I (for_each l body) (fun _ => True).
Proof.
  induction l as [|a l IH]; intros H; cbn; [by apply yields_ret|].
  eapply yields_bind; [apply H; left|]. intros ? ?. apply IH.
  intros b Hb. apply H. by right.
Qed.

Lemma yields_comprehension {A B} I (l : list A) (body : A -> M S B) :
  (forall a, a ∈ l -> yields I (body a) (fun _ => True)) ->
  yields I (comprehension l body) (fun _ => True).
Proof.
  induction l as [|a l IH]; intros H; cbn; [by apply yields_ret|].
  eapply yields_bind; [apply H; left|]. intros b ?.
  eapply yields_bind; [apply IH; intros c Hc; apply H; by right|].
  intros bs ?. by apply yields_ret.
Qed.

Lemma yields_run_opt I (t : FunctionModel.optrun)
    (g : list Q -> M S pyval) :
  (forall v, yields I (g v) (fun _ => True)) ->
  yields I (FunctionModel.run_opt t g) (fun _ => True).
Proof.
  intros H. induction t as [res|e|v k IH]; cbn.
  - by apply yields_ret.
  - apply yields_raise.
  - eapply yields_bind; [apply H|]. intros r ?. apply IH.
Qed.

Lemma yields_run_opt_answers I (t : FunctionModel.optrun)
    (g : list Q -> M S pyval) :
  (forall v, yields I (g v) (fun _ => True)) ->
  yields I (FunctionModel.run_opt t g) (Fit.answers t).
Proof.
  intros H. induction t as [res|e|v k IH]; cbn.
  - apply yields_ret. constructor.
  - apply yields_raise.
  - eapply yields_bind; [apply H|]. intros r _.
    eapply yields_weaken; [apply IH|]. intros res Hres. by econstructor.
Qed.

(** A method that keeps an invariant, followed by one that is specified
    from it. *)
Lemma triple_after {A B} I (c : M S A) (k : A -> M S B) K Q E :
  yields I c K -> (forall s, I s -> E s) ->
  (forall a, K a -> triple I (k a) Q E) ->
  triple I (bind c k) Q E.
Proof.
  intros Hc HE Hk s Hs. specialize (Hc s Hs). unfold bind.
  destruct (c s) as [[a|e] s']; [|by apply HE]. destruct Hc as [Ha Hs'].
  by apply Hk.
Qed.

Lemma yields_kept {A} I (c : M S A) K s : yields I c K -> I s -> I (c s).2.
Proof.
  intros Hc Hs. specialize (Hc s Hs). destruct (c s) as [[a|e] s']; cbn; tauto.
Qed.

End HoareRules.

(** ** What a fit keeps *)

Section FitSpec.
Import Hoare FunctionModel Fit.
#[local] Arguments _getParvals : simpl never.

(** An invariant of the values of the parameters of [m0]: it holds of states
    in which every parameter has a value, and no read, no evaluation and no
    record of a result breaks it. *)
Variable m0 : model.
Variable I : model -> Prop.
Hypothesis I_agree : forall s s', I s -> agree s s' -> I s'.
Hypothesis I_lastfit : forall s r, I s -> I (set_lastfit r s).
Hypothesis I_fitteddata : forall s d, I s -> I (set_fitteddata d s).
Hypothesis I_initialised : forall s, I s -> initialised s.
Hypothesis I_names :
  forall s, I s -> _pars s = _pars m0 /\ fixedpars s = fixedpars m0.

Lemma yields_getattr a : yields I (getattr a) (fun _ => True).
Proof.
  intros s Hs. pose proof (getattr_agree s a) as A.
  destruct (getattr a s) as [[v|e] s']; cbn in *; eauto.
Qed.

Lemma yields_getParvals : yields I _getParvals (fun _ => True).
Proof.
  intros s Hs.
  destruct (getParvals_initialised s (I_initialised s Hs)) as (pv&s'&E&A&_).
  rewrite E. eauto.
Qed.

Lemma yields_params : yields I params (fun ps => ps = _pars m0).
Proof. intros s Hs. cbn. split; [by apply I_names | done]. Qed.

Lemma yields_call_filter ff x pv : yields I (call_filter ff x pv) (fun _ => True).
Proof.
  intros s Hs. pose proof (call_filter_agree ff x pv s) as A.
  destruct (call_filter ff x pv s) as [[v|e] s']; cbn in *; eauto.
Qed.

Lemma yields_fit_output ff x : yields I (fit_output ff x) (fun _ => True).
Proof.
  unfold fit_output. eapply yields_bind; [apply yields_getParvals|].
  intros pv _. apply yields_call_filter.
Qed.

Lemma yields_on_self {A} (c : M model A) K :
  yields I c K -> yields (fun s : model * gmap string pyval => I s.1) (on_self c) K.
Proof.
  intros Hc [m pd] Hs. unfold on_self. specialize (Hc m Hs). cbn.
  by destruct (c m) as [[a|e] m'].
Qed.

Lemma yields_with_pdict {A} pd (c : M (model * gmap string pyval) A) K :
  yields (fun s : model * gmap string pyval => I s.1) c K ->
  yields I (with_pdict pd c) K.
Proof.
  intros Hc m Hs. unfold with_pdict. specialize (Hc (m, pd) Hs).
  by destruct (c (m, pd)) as [[a|e] [m' pd']].
Qed.

Lemma yields_fit_f ff fixed ps x v :
  yields (fun s : model * gmap string pyval => I s.1) (fit_f ff fixed ps x v)
         (fun _ => True).
Proof.
  unfold fit_f. destruct fixed.
  - eapply yields_bind; [by apply yields_modify|]. intros ? _.
    eapply yields_bind; [apply yields_get|]. intros s _.
    eapply yields_bind; [apply yields_lift|]. intros pars _.
    eapply yields_bind; [apply yields_on_self, yields_call_filter|]. intros r _.
    eapply yields_weaken; [apply yields_lift | done].
  - eapply yields_bind; [apply yields_on_self, yields_call_filter|]. intros r _.
    eapply yields_weaken; [apply yields_lift | done].
Qed.

(** A run of an optimizer on an objective built from [f(x,v)]. *)
Lemma yields_run eng pdict name v0 ff fixed ps x
    (obj : pyval -> result pyval) :
  yields I (with_pdict pdict
              (run_opt (optimize eng name v0)
                 (fun v => r <- fit_f ff fixed ps x v ;; lift (obj r))))
         (fun _ => True).
Proof.
  apply yields_with_pdict, yields_run_opt. intros v.
  eapply yields_bind; [apply yields_fit_f|]. intros r _.
  eapply yields_weaken; [apply yields_lift | done].
Qed.

Lemma yields_run_answers eng pdict name v0 ff fixed ps x
    (obj : pyval -> result pyval) :
  yields I (with_pdict pdict
              (run_opt (optimize eng name v0)
                 (fun v => r <- fit_f ff fixed ps x v ;; lift (obj r))))
         (answers (optimize eng name v0)).
Proof.
  apply yields_with_pdict, yields_run_opt_answers. intros v.
  eapply yields_bind; [apply yields_fit_f|]. intros r _.
  eapply yields_weaken; [apply yields_lift | done].
Qed.


(** [fitData] up to the run of the optimizer keeps the invariant, once
    [parvals] has been read; what it does then is [commit], on the names
    that [fixedpars] leaves. *)
Lemma fitData_triple_produced eng x y method fp weights contraction u fitf sd
    (C : modelclass -> Prop)
    (P : model -> Prop) (Q : pyval -> model -> Prop) (E : model -> Prop) :
  (forall s, I s -> C (cls s)) ->
  (forall s, P s -> I (_getParvals s).2) ->
  (forall s, I s -> E s) ->
  (forall y' ps v v' res,
     Numpy.ravel y = Ok y' ->
     drop_fixed (fixed_of fp m0) (_pars m0) v = Ok (ps, v') ->
     (exists c, C c /\ produced eng c res) ->
     triple I (commit x y' u sd (ps, res)) Q E) ->
  triple P (fitData eng x y method fp weights contraction u fitf sd) Q E.
Proof.
  intros HC HP HE Hcommit. unfold fitData.
  eapply triple_bind with (Q1 := fun _ => P); [by intros s Hs|]. intros m. cbv zeta.
  eapply triple_bind with (Q1 := fun _ => I).
  { unfold fit_output. intros s Hs. specialize (HP s Hs). unfold bind.
    destruct (getParvals_total s) as (pv&s1&Epv&_). rewrite Epv in HP |- *.
    cbn in HP. pose proof (yields_call_filter
      (if fitf then BoundF else _filterfunc m) x pv s1 HP) as Hc.
    destruct (call_filter _ x pv s1) as [[out|e] s2]; [tauto | by apply HE]. }
  intros out.
  eapply triple_after; [apply yields_lift | done | intros osh _].
  eapply triple_after; [apply yields_lift | done | intros ysh _].
  destruct (negb _).
  { eapply triple_weaken; [apply triple_raise | | done | done]. done. }
  eapply triple_after; [ | done | intros w _].
  { instantiate (1 := fun _ => True). destruct weights as [wt|]; [|by apply yields_ret].
    eapply yields_bind; [apply yields_lift|]. intros w' _.
    eapply yields_bind; [apply yields_lift|]. intros wsh _.
    destruct (negb _); [apply yields_raise|].
    eapply yields_weaken; [apply yields_lift | done]. }
  eapply triple_after; [apply yields_lift | done | intros y' Hy'].
  eapply triple_after; [apply yields_get | done | intros m1 Hm1].
  eapply triple_after; [apply yields_params | done | intros ps ->].
  eapply triple_after; [apply yields_getParvals | done | intros v _].
  destruct (I_names m1 Hm1) as [_ Hfp].
  set (fixed := match fp with
                | Some l => l
                | None => match fixedpars m1 with Some l => l | None => [] end
                end).
  assert (Hfixed : fixed = fixed_of fp m0).
  { subst fixed. unfold fixed_of. by rewrite Hfp. }
  clearbody fixed. subst fixed.
  eapply triple_after with
    (K := fun psres => (exists v1 v',
            drop_fixed (fixed_of fp m0) (_pars m0) v1 = Ok (psres.1, v')) /\
            exists c, C c /\ produced eng c psres.2);
    [ | done | intros [ps res] [(v1&v'&Hd) Hres]].
  2:{ cbn in Hd. change (triple I (commit x y' u sd (ps, res)) Q E).
      by eapply Hcommit. }
  destruct (String.eqb _ "custom").
  - eapply yields_bind; [apply yields_lift|]. intros res Hres.
    eapply yields_bind; [apply yields_lift|]. intros r0 _.
    eapply yields_bind; [apply yields_lift|]. intros [ps v'] Hd.
    apply yields_ret. split; [by exists v, v'|].
    exists (cls m1). split; [by apply HC|]. right.
    destruct (customFit (cls m1)) as [custom|]; [|discriminate].
    exists custom, v, x, y', (fixed_of fp m0), weights, res.
    split; [done|]. split; [done|]. cbn.
    destruct (Numpy.isSequenceType r0); [by left | by right].
  - eapply yields_bind; [apply yields_lift|]. intros [ps v'] Hd.
    eapply yields_bind.
    { instantiate (1 := fun _ => True). destruct (fixed_of fp m0) as [|p l];
        [by apply yields_ret|].
      eapply yields_bind.
      - apply yields_comprehension. intros a _.
        eapply yields_bind; [apply yields_getattr|]. intros val _.
        by apply yields_ret.
      - intros l' _. by apply yields_ret. }
    intros pdict _.
    assert (Hrun : forall name obj,
      yields I (with_pdict pdict
                  (run_opt (optimize eng name v')
                     (fun v => r <- fit_f (if fitf then BoundF else _filterfunc m)
                                      (match fixed_of fp m0 with
                                       | [] => false
                                       | _ => true
                                       end) ps x v ;; lift (obj r))))
             (fun res => exists name start, answers (optimize eng name start) res)).
    { intros name obj. eapply yields_weaken; [apply yields_run_answers|].
      intros res Hres. by exists name, v'. }
    eapply yields_bind.
    2:{ intros res Hres. apply yields_ret. split; [by exists v, v'|].
        exists (cls m1). split; [by apply HC|]. left. exact Hres. }
    destruct (String.eqb _ "leastsq"); [apply Hrun|].
    destruct (reduction contraction) as [red|]; [|apply yields_raise].
    repeat (match goal with
            | |- yields _ (if ?b then _ else _) _ => destruct b
            end; try apply Hrun; try apply yields_raise).
Qed.

Lemma fitData_triple eng x y method fp weights contraction u fitf sd
    (P : model -> Prop) (Q : pyval -> model -> Prop) (E : model -> Prop) :
  (forall s, P s -> I (_getParvals s).2) ->
  (forall s, I s -> E s) ->
  (forall y' ps v v' res,
     Numpy.ravel y = Ok y' ->
     drop_fixed (fixed_of fp m0) (_pars m0) v = Ok (ps, v') ->
     triple I (commit x y' u sd (ps, res)) Q E) ->
  triple P (fitData eng x y method fp weights contraction u fitf sd) Q E.
Proof.
  intros HP HE Hcommit.
  apply (fitData_triple_produced eng x y method fp weights contraction u fitf sd
           (fun _ => True) P Q E); [done | exact HP | exact HE |].
  intros y' ps v v' res Hy Hd _. by eapply Hcommit.
Qed.

End FitSpec.

Section FitAssignments.
Import Hoare FunctionModel Fit.
#[local] Arguments _getParvals : simpl never.





(** *** The names that [fixedpars] leaves *)




(** *** Invariants of the values *)















Lemma keeps_names_agree m0 s s' : keeps_names m0 s -> agree s s' -> keeps_names m0 s'.
Proof.
  intros (Hp&Hf&Hi) A. pose proof A as [(_&Hp'&_&_&Hf') _].
  split; [congruence|]. split; [congruence|]. by eapply agree_initialised.
Qed.



End FitAssignments.

(** ** Reading and assigning the parameters *)

Section ParameterEdges.
Import FunctionModel.
#[local] Arguments _getParvals : simpl never.

(** X4: when a parameter of the model has no value, reading [parvals]
    returns 1 for every parameter and leaves every parameter at 1, also
    those that had another value. *)
Theorem parvals_reset_when_unset (m : model) (a : string) :
  a ∈ _pars m -> stored m a = None ->
  exists m', _getParvals m = (Ok (replicate (length (_pars m)) (VNum 1)), m') /\
    forall b, b ∈ _pars m -> stored m' b = Some (VNum 1).
Proof.
  intros Ha Hs.
  assert (Hnone : mapM (stored m) (_pars m) = None).
  { destruct (mapM (stored m) (_pars m)) as [pv|] eqn:E; [|done].
    apply mapM_Some_1 in E. apply list_elem_of_lookup in Ha as [i Hi].
    destruct (Forall2_lookup_l _ _ _ _ _ E Hi) as (v&_&Hv). congruence. }
  unfold _getParvals. rewrite recursion_limit_unfold.
  destruct (comprehension_getattr (_pars m) m) as (m1&A1&E1).
  change (_getParvals_rec (S (S 998)) m) with
    (try_except (m <- get ;; comprehension (_pars m) getattr)
       (is_exn AttributeError) (_autoInitPars ;;; _getParvals_rec (S 998)) m).
  unfold try_except, bind at 1, get. rewrite E1, Hnone.
  change (is_exn AttributeError AttributeError) with true. cbv beta iota.
  unfold bind.
  destruct (autoInitPars_total m1) as (m2&E2&F2&I2&Hv2). rewrite E2.
  destruct (getParvals_rec_initialised 998 m2 I2) as (pv&m'&E&A&Hpv).
  rewrite E. exists m'.
  assert (Hp1 : _pars m1 = _pars m) by apply A1.
  assert (Hp2 : _pars m2 = _pars m) by (destruct F2 as (_&->&_); done).
  rewrite Hp2 in Hpv. rewrite Hp1 in Hv2.
  rewrite (mapM_const _ _ defaultparval Hv2) in Hpv. injection Hpv as <-.
  split; [done|]. intros b Hb. destruct A as [_ ->]. by apply Hv2.
Qed.

(** A model on which X4 applies: [A] is 5 and [B] is not set; after the
    read both are 1. *)
Lemma parvals_reset_when_unset_witness :
  exists m', _getParvals Cases.half_set = (Ok (replicate 2 (VNum 1)), m') /\
    forall b, b ∈ _pars Cases.half_set -> stored m' b = Some (VNum 1).
Proof.
  apply (parvals_reset_when_unset Cases.half_set "B").
  - by apply (bool_decide_unpack _).
  - reflexivity.
Defined.

Lemma for_each_check_fails {S A} (l : list A) (P : A -> bool) (e : exn) (s : S) :
  (exists a, a ∈ l /\ P a = false) ->
  for_each l (fun a => if P a then ret tt else raise e) s = (Raise e, s).
Proof.
  induction l as [|a l IH]; intros (b&Hb&HP); cbn; [by apply elem_of_nil in Hb|].
  unfold bind. destruct (P a) eqn:Ea; cbn; [|done].
  apply IH. apply elem_of_cons in Hb as [->|Hb]; [congruence|eauto].
Qed.

(** X5: assigning to [pardict] a dictionary with a key that is no parameter
    raises [KeyError], and no parameter is assigned, whatever the other
    keys. *)
Theorem setPardict_unknown_key (m : model) (d : gmap string pyval) (k : string) :
  is_Some (d !! k) -> k ∉ _pars m ->
  _setPardict d m = (Raise KeyError, m).
Proof.
  intros [v Hk] Hn. unfold _setPardict, bind at 1, get. unfold bind.
  rewrite (for_each_check_fails _ (fun kv => bool_decide (kv.1 ∈ _pars m)));
    [done|].
  exists (k, v). split; [by apply elem_of_map_to_list|].
  by apply bool_decide_eq_false_2.
Qed.

(** A dictionary on which X5 applies: [m] is a parameter of the line, [q] is
    not. *)
Lemma setPardict_unknown_key_witness :
  _setPardict {["m" := VNum 2; "q" := VNum 3]} Examples.line
    = (Raise KeyError, Examples.line).
Proof.
  apply (setPardict_unknown_key Examples.line _ "q").
  - by apply (bool_decide_unpack _).
  - by apply (bool_decide_unpack _).
Defined.

(** X6: assigning to [pardict] a dictionary of scalars whose keys are some of
    the parameter names returns; the parameters named have the values of
    the dictionary and the others keep theirs. *)
Theorem setPardict_partial (m : model) (d : gmap string pyval) :
  (forall k, is_Some (d !! k) -> k ∈ _pars m) ->
  map_Forall (fun _ v => isscalar v = true) d ->
  exists m', _setPardict d m = (Ok tt, m') /\ _pars m' = _pars m /\
    forall k, stored m' k = match d !! k with
                            | Some v => Some v
                            | None => stored m k
                            end.
Proof.
  intros Hkeys Hsc.
  destruct (for_each_setattr (map_to_list d) m) as (m'&E&F&_&Hin&Hout).
  { apply Forall_forall. intros [k v] Hkv%elem_of_map_to_list. by eapply Hsc. }
  { apply NoDup_fst_map_to_list. }
  exists m'. split; [|split; [apply F|]].
  - unfold _setPardict, bind at 1, get. unfold bind at 1.
    rewrite for_each_check; [exact E|].
    apply Forall_forall. intros [k v] Hkv%elem_of_map_to_list. cbn.
    apply bool_decide_eq_true_2, Hkeys. by eexists.
  - intros k. destruct (d !! k) as [v|] eqn:Hk.
    + apply Hin. by apply elem_of_map_to_list.
    + apply Hout. intros [[k' v'] [-> Hin']]%list_elem_of_fmap.
      apply elem_of_map_to_list in Hin'. cbn in Hk. congruence.
Qed.

(** A dictionary on which X6 applies: it names one of the two parameters of
    the line. *)
Lemma setPardict_partial_witness :
  exists m', _setPardict {["b" := VNum 3]} Examples.line = (Ok tt, m') /\
    _pars m' = _pars Examples.line /\
    forall k, stored m' k = match ({["b" := VNum 3]} : gmap string pyval) !! k with
                            | Some v => Some v
                            | None => stored Examples.line k
                            end.
Proof.
  apply (setPardict_partial Examples.line).
  - intros k [v Hk]. apply lookup_singleton_Some in Hk as [<- _].
    by apply (bool_decide_unpack _).
  - by apply (bool_decide_unpack _).
Defined.

End ParameterEdges.

(** ** The registry *)

Section RegistryRoundTrip.
Import Registry.

(** X7: registering a model class without [overwrite] returns, whether the
    name is taken or not; the class is then what [get_model] returns for
    the name under which it is filed, and the other entries are as before. A
    class that is no model is refused with [TypeError] and the registry is
    as before. *)
Theorem register_then_get (model : pyclass) (name : option string)
    (stripmodel : bool) (reg : gmap string pyclass) :
  let filed := registry_name model name stripmodel in
  if issubclass model "ParametricModel" then
    exists reg', register_model model name false stripmodel reg = (Ok tt, reg') /\
      get_model (ByName filed) None reg' = (Ok model, reg') /\
      forall other, other <> filed -> reg' !! other = reg !! other
  else
    register_model model name false stripmodel reg = (Raise TypeError, reg).
Proof.
  intros filed. unfold register_model.
  destruct (issubclass model "ParametricModel"); [|reflexivity]. cbn.
  exists (<[filed := model]> reg). split; [reflexivity|]. split.
  - unfold get_model, bind, get, ret. by rewrite lookup_insert_eq.
  - intros other Hne. by rewrite lookup_insert_ne.
Qed.

End RegistryRoundTrip.

(** ** Listing the registry *)

Section ListingFacts.
Import Registry Listing.

Lemma candidates_spec baseclass reg k :
  k ∈ candidates baseclass reg <->
  exists c, reg !! k = Some c /\
    match baseclass with Some b => issubclass c b = true | None => True end.
Proof.
  unfold candidates. destruct baseclass as [b|]; rewrite list_elem_of_fmap; split.
  - intros ([k' c]&->&[Hc Hin%elem_of_map_to_list]%list_elem_of_filter).
    exists c. split; [done|]. by apply Is_true_true.
  - intros (c&Hk&Hc). exists (k, c). split; [done|].
    apply list_elem_of_filter. split; [by apply Is_true_true|].
    by apply elem_of_map_to_list.
  - intros ([k' c]&->&Hin%elem_of_map_to_list). by exists c.
  - intros (c&Hk&_). exists (k, c). split; [done|]. by apply elem_of_map_to_list.
Qed.

Lemma candidates_NoDup baseclass reg : NoDup (candidates baseclass reg).
Proof.
  unfold candidates. destruct baseclass as [b|]; [|apply NoDup_fst_map_to_list].
  eapply sublist_NoDup; [apply (NoDup_fst_map_to_list reg)|].
  apply fmap_sublist, sublist_filter.
Qed.

(** X8: without [include] and [exclude], [list_models] returns each name at
    most once, and the names it returns for a base class are those for
    which [get_model] with that base class returns. *)
Theorem list_models_are_gettable (b : string) (reg : gmap string pyclass) :
  exists res, list_models None None (Some b) reg = (Ok res, reg) /\
    NoDup res /\
    forall k, k ∈ res <-> exists c, get_model (ByName k) (Some b) reg = (Ok c, reg).
Proof.
  exists (candidates (Some b) reg). split; [reflexivity|].
  split; [apply candidates_NoDup|]. intros k. rewrite candidates_spec.
  unfold get_model, bind, get, ret, raise. split.
  - intros (c&Hk&Hc). exists c. by rewrite Hk, Hc.
  - intros (c&H). destruct (reg !! k) as [c'|] eqn:Hk; [|discriminate].
    destruct (issubclass c' b) eqn:Hc; [|discriminate].
    exists c'. by split.
Qed.

Lemma include_loop_self (todo include : list string) :
  (forall m, m ∈ todo -> m ∈ include) ->
  include_loop todo include include = Ok include.
Proof.
  induction todo as [|m todo IH]; intros H; cbn; [done|].
  rewrite bool_decide_eq_true_2 by (apply H; left).
  apply IH. intros m' Hm'. apply H. by right.
Qed.

(** X9: of the names given as [include], [list_models] looks up the first
    only: when it is listed, the sequence is returned as it is, whatever the
    names after it; when it is not, the call raises [ValueError]. An empty
    sequence returns every listed name. *)
Theorem list_models_include_first (first : string) (rest : list string)
    (baseclass : option string) (reg : gmap string pyclass) :
  list_models (Some (NameSeq (first :: rest))) None baseclass reg =
    ((if bool_decide (first ∈ candidates baseclass reg)
      then Ok (first :: rest) else Raise ValueError), reg)
  /\ list_models (Some (NameSeq [])) None baseclass reg =
       (Ok (candidates baseclass reg), reg).
Proof.
  split; [|reflexivity].
  unfold list_models, bind, get, lift. cbn.
  destruct (bool_decide (first ∈ candidates baseclass reg)); [|done].
  rewrite include_loop_self; [done|]. intros m Hm. by right.
Qed.

Lemma filter_all {A} (P : A -> Prop) `{!forall x, Decision (P x)} (l : list A) :
  (forall x, x ∈ l -> P x) -> filter P l = l.
Proof.
  induction l as [|x l IH]; intros Hall; [done|].
  rewrite filter_cons_True by (apply Hall; left). f_equal.
  apply IH. intros y Hy. apply Hall. by right.
Qed.

Lemma remove_filter (m : string) (res : list string) :
  NoDup res -> m ∈ res ->
  AutoParams.remove m res = Ok (filter (fun k => k <> m) res).
Proof.
  induction res as [|k res IH]; intros Hnd Hin; [by apply elem_of_nil in Hin|].
  inversion_clear Hnd as [|?? Hk Hres]. cbn [AutoParams.remove].
  destruct (String.eqb_spec m k) as [->|Hne].
  - rewrite filter_cons_False by (by intros ?). f_equal. symmetry.
    apply filter_all. by intros x Hx ->.
  - rewrite filter_cons_True by (by intros ->).
    apply elem_of_cons in Hin as [?|Hin]; [done|]. by rewrite IH.
Qed.

Lemma exclude_loop_filter (exc res : list string) :
  NoDup res -> NoDup exc -> (forall m, m ∈ exc -> m ∈ res) ->
  exclude_loop exc res = Ok (filter (fun k => k ∉ exc) res).
Proof.
  revert res. induction exc as [|m exc IH]; intros res Hres Hexc Hsub; cbn.
  - f_equal. symmetry. apply filter_all. intros x _ H. by apply elem_of_nil in H.
  - inversion_clear Hexc as [|?? Hm Hexc'].
    rewrite bool_decide_eq_true_2 by (apply Hsub; left).
    rewrite remove_filter by (try done; apply Hsub; left). cbn.
    rewrite IH; [|by apply NoDup_filter|done|].
    + rewrite list_filter_filter. f_equal. apply list_filter_iff.
      intros x. rewrite not_elem_of_cons. tauto.
    + intros m' Hm'. apply list_elem_of_filter. split; [by intros ->|].
      apply Hsub. by right.
Qed.

(** X10: when the names given as [exclude] are distinct and all listed,
    [list_models] returns the listed names that are not among them, in
    their order; the registry is as before. *)
Theorem list_models_exclude (exc : list string) (baseclass : option string)
    (reg : gmap string pyclass) :
  NoDup exc -> (forall m, m ∈ exc -> m ∈ candidates baseclass reg) ->
  list_models None (Some (NameSeq exc)) baseclass reg =
    (Ok (filter (fun k => k ∉ exc) (candidates baseclass reg)), reg).
Proof.
  intros Hnd Hsub. unfold list_models, bind, get, lift. cbn.
  by rewrite exclude_loop_filter; [| apply candidates_NoDup | |].
Qed.

(** A registry on which X10 applies: of two registered models one is
    excluded. *)
Lemma list_models_exclude_witness :
  list_models None (Some (NameSeq ["gauss"])) None
      {["gauss" := Examples.GaussModel; "lorentz" := Examples.LorentzModel]} =
    (Ok (filter (fun k => k ∉ ["gauss"])
           (candidates None
              {["gauss" := Examples.GaussModel; "lorentz" := Examples.LorentzModel]})),
     {["gauss" := Examples.GaussModel; "lorentz" := Examples.LorentzModel]}).
Proof.
  apply list_models_exclude.
  - by apply (bool_decide_unpack _).
  - intros m Hm. apply list_elem_of_singleton in Hm as ->.
    apply candidates_spec. exists Examples.GaussModel. by split.
Defined.

(** With a name given twice, or one that is not listed, the call raises. *)
Lemma exclude_loop_missing (m : string) (exc res : list string) :
  m ∉ res -> exclude_loop (m :: exc) res = Raise ValueError.
Proof. intros H. cbn. by rewrite bool_decide_eq_false_2. Qed.

End ListingFacts.

(** ** Construction of an instance *)

Section ConstructorFacts.
Import FunctionModel AutoParams.
#[local] Arguments _getParvals : simpl never.

Lemma fold_insert_key {V} (pairs : list (string * V)) (m : gmap string V) k :
  k ∈ pairs.*1 -> is_Some (fold_left (fun d kv => <[kv.1 := kv.2]> d) pairs m !! k).
Proof.
  revert m. induction pairs as [|[k' v'] pairs IH]; intros m Hin; cbn.
  - by apply elem_of_nil in Hin.
  - destruct (decide (k ∈ pairs.*1)) as [Hk|Hk]; [by apply IH|].
    cbn in Hin. apply elem_of_cons in Hin as [->|Hin]; [|done].
    rewrite fold_insert_other by done. rewrite lookup_insert_eq. by eexists.
Qed.

Lemma zip_fst_all {A B} (a : list A) (b : list B) :
  length a <= length b -> (zip a b).*1 = a.
Proof.
  revert b. induction a as [|x a IH]; intros [|y b] H; cbn in *; try done; [lia|].
  f_equal. apply IH. lia.
Qed.

(** The metaclass leaves a descriptor for each parameter that it names. *)
Lemma meta_init_descriptors spec inherited a ps :
  meta_init (Some spec) inherited = Ok a -> auto_pars a = Some ps ->
  forall p, p ∈ ps -> is_Some (auto_descriptors a !! p).
Proof.
  unfold meta_init. destruct (varkw spec); [discriminate|].
  destruct (without_self (args spec)) as [|data rest]; [discriminate|].
  set (ds := match defaults spec with None => [] | Some d => d end).
  set (ds' := if negb (length rest =? length ds)%nat
              then Nat.iter (length rest - length ds) (cons (VNum 1)) ds else ds).
  assert (Hlen : length rest <= length ds').
  { subst ds'. destruct (Nat.eqb_spec (length rest) (length ds)) as [E|E]; cbn; [lia|].
    rewrite iter_cons_replicate, length_app, length_replicate. lia. }
  destruct (varargs spec); intros [= <-]; cbn; [discriminate|].
  intros [= <-] p Hp. apply fold_insert_key. by rewrite zip_fst_all.
Qed.

(** X11: for a class whose function has fixed arguments with distinct
    names, the constructor called with at most as many scalars as there are
    parameters returns an instance whose first parameters have these values,
    in order, and whose other parameters have the defaults of the class;
    called with more values it raises [TypeError]. *)
Theorem construct_with_values (spec : argspec) (inherited : gmap string pyval)
    (a : autoclass) (c : classdef) (ps : list string) (vs : list pyval) :
  meta_init (Some spec) inherited = Ok a -> auto_pars a = Some ps ->
  NoDup ps -> object_init c ∅ = Ok tt ->
  Forall (fun v => isscalar v = true) vs ->
  if decide (length vs <= length ps) then
    exists obj m' pv, meta_call a c vs ∅ = Ok obj /\ _pars obj = ps /\
      _getParvals obj = (Ok pv, m') /\ take (length vs) pv = vs /\
      forall i p, length vs <= i -> ps !! i = Some p ->
        pv !! i = auto_descriptors a !! p
  else meta_call a c vs ∅ = Raise TypeError.
Proof.
  intros Hinit Hps Hnd Hobj Hsc.
  pose proof (meta_init_descriptors _ _ _ _ Hinit Hps) as Hdesc.
  assert (Hcall : meta_call a c vs ∅ =
    let '(r, obj) := set_initial vs ∅ (new_object a c ps) in
    rbind r (fun _ => Ok obj)).
  { unfold meta_call. by rewrite Hps, !map_filter_empty, Hobj. }
  assert (Hset : set_initial vs ∅ (new_object a c ps) =
    if (length ps <? length vs)%nat then (Raise TypeError, new_object a c ps)
    else for_each (zip ps vs) (fun pv => setattr pv.1 pv.2) (new_object a c ps)).
  { unfold set_initial, bind at 1, params. cbn [_pars new_object].
    rewrite map_size_empty, Nat.add_0_r, map_to_list_empty.
    by destruct (length ps <? length vs)%nat. }
  rewrite Hcall, Hset. clear Hcall Hset.
  destruct (decide (length vs <= length ps)) as [Hle|Hgt].
  2:{ destruct (Nat.ltb_spec (length ps) (length vs)); [done|lia]. }
  destruct (Nat.ltb_spec (length ps) (length vs)); [lia|].
  set (obj0 := new_object a c ps).
  destruct (for_each_setattr (zip ps vs) obj0) as (obj&E&F&_&Hin&Hout).
  { apply Forall_forall. intros [k v] Hkv. cbn.
    rewrite Forall_forall in Hsc. apply Hsc. by eapply zip_snd_elem. }
  { by apply zip_NoDup_fst. }
  rewrite E. cbn [rbind].
  assert (Hp : _pars obj = ps) by (destruct F as (_&->&_); done).
  assert (Hcls : cls obj = cls obj0) by apply F.
  assert (Hst : forall i p, ps !! i = Some p ->
            stored obj p = if decide (i < length vs) then vs !! i
                           else auto_descriptors a !! p).
  { intros i p Hi. destruct (decide (i < length vs)) as [Hlt|Hge].
    - destruct (lookup_lt_is_Some_2 vs i Hlt) as [v Hv]. rewrite Hv.
      apply Hin, list_elem_of_lookup. exists i. by apply zip_lookup.
    - rewrite Hout.
      + destruct (Hdesc p) as [d Hd]; [apply list_elem_of_lookup; eauto|].
        unfold stored. cbn. by rewrite Hd.
      + rewrite zip_fst_take. intros [j Hj]%list_elem_of_lookup.
        pose proof (lookup_lt_Some _ _ _ Hj) as Hjl. rewrite length_take in Hjl.
        rewrite lookup_take_lt in Hj by lia.
        pose proof (NoDup_lookup _ _ _ _ Hnd Hi Hj). lia. }
  assert (Hi : initialised obj).
  { intros p Hp'. rewrite Hp in Hp'. apply list_elem_of_lookup in Hp' as [i Hi].
    rewrite (Hst i p Hi). destruct (decide (i < length vs)).
    - by apply lookup_lt_is_Some_2.
    - apply Hdesc, list_elem_of_lookup. eauto. }
  destruct (getParvals_initialised obj Hi) as (pv&m'&Epv&_&Hpv).
  exists obj, m', pv. split; [done|]. split; [done|]. split; [done|].
  rewrite Hp in Hpv. apply mapM_Some_1 in Hpv.
  pose proof (Forall2_length _ _ _ Hpv) as Hlen.
  split.
  - apply list_eq. intros i. destruct (decide (i < length vs)) as [Hlt|Hge].
    + rewrite lookup_take_lt by done.
      destruct (lookup_lt_is_Some_2 ps i ltac:(lia)) as [p Hi'].
      destruct (Forall2_lookup_l _ _ _ _ _ Hpv Hi') as (v&Hv&Hs).
      rewrite Hv, <- Hs, (Hst i p Hi'). by rewrite decide_True.
    + rewrite lookup_take_ge by lia. symmetry. apply lookup_ge_None. lia.
  - intros i p Hge Hi'.
    destruct (Forall2_lookup_l _ _ _ _ _ Hpv Hi') as (v&Hv&Hs).
    rewrite Hv, <- Hs, (Hst i p Hi'). rewrite decide_False by lia. done.
Qed.

(** A class on which X11 applies: [f(self, x, a=2, b=3)], constructed with
    one value. *)
Lemma construct_with_values_witness :
  exists obj m' pv,
    meta_call {| auto_descriptors := {["a" := VNum 2; "b" := VNum 3]};
                 auto_pars := Some ["a"; "b"]; auto_statargs := ["a"; "b"] |}
              (Examples.class_body (fun _ _ => Raise NotImplementedError))
              [VNum 7] ∅ = Ok obj /\
    _pars obj = ["a"; "b"] /\
    _getParvals obj = (Ok pv, m') /\ take 1 pv = [VNum 7] /\
    forall i p, 1 <= i -> ["a"; "b"] !! i = Some p ->
      pv !! i = ({["a" := VNum 2; "b" := VNum 3]} : gmap string pyval) !! p.
Proof.
  refine (construct_with_values Examples.spec_x_a_b ∅ _
            (Examples.class_body (fun _ _ => Raise NotImplementedError))
            ["a"; "b"] [VNum 7] _ _ _ _ _).
  - vm_compute. reflexivity.
  - reflexivity.
  - by apply (bool_decide_unpack _).
  - reflexivity.
  - by repeat constructor.
Defined.

(** *** Functions with variable arguments *)

Lemma for_each_no_class_default (l : list string) (m : model) :
  for_each l (fun p =>
      match (∅ : gmap string pyval) !! ("_" +:+ p +:+ "_default") with
      | Some d => setattr p d
      | None => setattr p (VNum 1)
      end) m
  = for_each l (fun p => setattr p defaultparval) m.
Proof.
  revert m. induction l as [|p l IH]; intros m; cbn; [done|].
  unfold bind. rewrite lookup_empty. unfold defaultparval at 1.
  destruct (setattr p (VNum 1) m) as [[[]|e] m1]; [apply IH | done].
Qed.

Lemma numbered_names (k : nat) :
  flat_map (fun i => map (fun n => n +:+ pretty i) ["p"]) (seq 0 k)
  = map (fun i => "p" +:+ pretty i) (seq 0 k).
Proof. induction (seq 0 k) as [|i l IH]; cbn; [done|]. by f_equal. Qed.

Lemma numbered_names_NoDup (k : nat) :
  NoDup (map (fun i => "p" +:+ pretty i) (seq 0 k)).
Proof.
  apply NoDup_fmap_2; [|apply NoDup_seq].
  intros i j H. cbn in H. injection H as H. by apply (inj pretty).
Qed.

(** X12: for a class whose function takes variable arguments and no fixed
    parameter before them ([f(self,x,*args)]), with the default prefix [p]
    and no default declared on the class, the constructor called with the number [k] of parameters as its argument
    returns an instance with the parameters [p0] to [p(k-1)]; the first has
    the value [k], because the argument is also paired with the first
    parameter as its initial value, and the others have the value 1. With
    [k = 0] the argument is one value too many: [TypeError]. *)
Theorem construct_variable (a : autoclass) (c : classdef) (k : nat) :
  auto_pars a = None -> auto_statargs a = [] ->
  paramsname c = None -> paramsnames c = None -> class_attrs c = ∅ ->
  object_init c ∅ = Ok tt ->
  match k with
  | O => meta_call a c [VNum (inject_Z (Z.of_nat k))] ∅ = Raise TypeError
  | S k' =>
      exists obj m', meta_call a c [VNum (inject_Z (Z.of_nat k))] ∅ = Ok obj /\
        _pars obj = map (fun i => "p" +:+ pretty i) (seq 0 k) /\
        _getParvals obj =
          (Ok (VNum (inject_Z (Z.of_nat k)) :: replicate k' (VNum 1)), m')
  end.
Proof.
  intros Hpars Hstat Hpn Hpns Hattrs Hobj.
  set (n := VNum (inject_Z (Z.of_nat k))).
  set (var := map (fun i => "p" +:+ pretty i) (seq 0 k)).
  destruct (for_each_default var (new_object a c [])) as (obj0&E0&F0&H0).
  assert (Hcall : meta_call a c [n] ∅ =
    let '(r, obj) := set_initial [n] ∅ (set_pars var obj0) in
    rbind r (fun _ => Ok obj)).
  { unfold meta_call. rewrite Hpars, Hpn, Hpns, Hstat, Hattrs. cbn [length Nat.ltb Nat.leb].
    rewrite lookup_empty, delete_empty, !map_filter_empty, Hobj. cbn [rbind].
    unfold n at 1, range_of. cbn [inject_Z Qden Qnum]. rewrite Pos.eqb_refl, Nat2Z.id.
    cbn [rbind]. rewrite numbered_names. fold var.
    by rewrite for_each_no_class_default, E0. }
  rewrite Hcall. clear Hcall.
  assert (Hset : set_initial [n] ∅ (set_pars var obj0) =
    if (length var <? 1)%nat then (Raise TypeError, set_pars var obj0)
    else for_each (zip var [n]) (fun pv => setattr pv.1 pv.2) (set_pars var obj0)).
  { unfold set_initial, bind at 1, params. cbn [_pars set_pars length].
    rewrite map_size_empty, map_to_list_empty. cbn [Nat.add].
    by destruct (length var <? 1)%nat. }
  rewrite Hset. clear Hset.
  assert (Hlen : length var = k) by (subst var; by rewrite length_map, length_seq).
  rewrite Hlen. destruct k as [|k']; [reflexivity|].
  change (S k' <? 1)%nat with false. cbv iota.
  assert (Hzip : zip var [n] = [("p" +:+ pretty 0, n)]).
  { subst var. cbn [seq map zip]. by destruct (map _ (seq 1 k')). }
  rewrite Hzip.
  destruct (for_each_setattr [("p" +:+ pretty 0, n)] (set_pars var obj0))
    as (obj&E&F&_&Hin&Hout).
  { by repeat constructor. }
  { apply NoDup_singleton. }
  rewrite E. cbn [rbind].
  assert (Hp : _pars obj = var) by (destruct F as (_&->&_); done).
  assert (Hfirst : stored obj ("p" +:+ pretty 0) = Some n).
  { apply Hin. left. }
  assert (Hrest : forall i, (0 < i < S k')%nat ->
            stored obj ("p" +:+ pretty i) = Some (VNum 1)).
  { intros i Hi. rewrite Hout.
    - change (stored (set_pars var obj0) ("p" +:+ pretty i))
        with (stored obj0 ("p" +:+ pretty i)).
      apply H0. subst var. apply list_elem_of_fmap. exists i. split; [done|].
      apply elem_of_seq. lia.
    - cbn. intros [H|H]%elem_of_cons; [|by apply elem_of_nil in H].
      injection H as H. cbn in H. apply pretty_nat_inj in H. lia. }
  assert (Hi : initialised obj).
  { intros p Hp'. rewrite Hp in Hp'. subst var.
    apply list_elem_of_fmap in Hp' as (i&->&Hi%elem_of_seq).
    destruct i as [|i]; [by rewrite Hfirst|]. rewrite Hrest by lia. by eexists. }
  destruct (getParvals_initialised obj Hi) as (pv&m'&Epv&_&Hpv).
  exists obj, m'. split; [done|]. split; [done|]. rewrite Epv. do 2 f_equal.
  rewrite Hp in Hpv. subst var. cbn [seq map mapM] in Hpv.
  rewrite Hfirst in Hpv. cbn in Hpv.
  assert (Hm : mapM (stored obj) (map (fun i => "p" +:+ pretty i) (seq 1 k'))
               = Some (replicate k' (VNum 1))).
  { pose proof (mapM_const (stored obj)
        (map (fun i => "p" +:+ pretty i) (seq 1 k')) (VNum 1)) as Hc.
    rewrite length_map, length_seq in Hc. apply Hc.
    intros p (i&->&Hi'%elem_of_seq)%list_elem_of_fmap. apply Hrest. lia. }
  rewrite Hm in Hpv. cbn in Hpv. by injection Hpv as <-.
Qed.

(** A class on which X12 applies, asked for three parameters. *)
Lemma construct_variable_witness :
  exists obj m',
    meta_call {| auto_descriptors := ∅; auto_pars := None; auto_statargs := [] |}
              (Examples.class_body (fun _ _ => Raise NotImplementedError))
              [VNum (inject_Z (Z.of_nat 3))] ∅ = Ok obj /\
    _pars obj = map (fun i => "p" +:+ pretty i) (seq 0 3) /\
    _getParvals obj =
      (Ok (VNum (inject_Z (Z.of_nat 3)) :: replicate 2 (VNum 1)), m').
Proof.
  apply (construct_variable
           {| auto_descriptors := ∅; auto_pars := None; auto_statargs := [] |}
           (Examples.class_body (fun _ _ => Raise NotImplementedError)) 3);
    reflexivity.
Defined.

End ConstructorFacts.

(** ** The parameters of a composite *)

Section CompositeParameters.
Import FunctionModel.
Import Composite(composite, _models, _ops, _opstr, c_pars, _argmap, _filters,
                 c_filterfunc, on_model).

Lemma rename_length parnames args argmap args' argmap' :
  Composite.rename parnames args argmap = Ok (args', argmap') ->
  length args' = length args.
Proof.
  revert args argmap. induction parnames as [|[k v] rest IH]; intros args argmap; cbn.
  - by intros [= <- _].
  - destruct (Composite.index_of k args) as [i|]; [|discriminate].
    destruct (bool_decide (v ∈ args)); [discriminate|].
    destruct (argmap !! k) as [tgt|]; [|discriminate].
    intros H%IH. by rewrite length_insert in H.
Qed.

Lemma shorten_length renamed cargs todo args argmap args' argmap' :
  Composite.shorten renamed cargs todo args argmap = Ok (args', argmap') ->
  length args' = length args.
Proof.
  revert args argmap. induction todo as [|[i a] todo IH]; intros args argmap; cbn.
  - by intros [= <- _].
  - destruct (bool_decide (a ∈ renamed)); [apply IH|].
    destruct (argmap !! a) as [tgt|]; [|discriminate].
    destruct (existsb _ _); [apply IH|].
    intros H%IH. by rewrite length_insert in H.
Qed.

Lemma composite_setattr_pars name v c :
  c_pars (Composite.setattr name v c).2 = c_pars c /\
  _argmap (Composite.setattr name v c).2 = _argmap c /\
  length (_models (Composite.setattr name v c).2) = length (_models c).
Proof.
  unfold Composite.setattr, bind, get.
  destruct (bool_decide (name ∈ c_pars c)); [|done].
  destruct (_argmap c !! name) as [[i n]|]; [|done].
  unfold on_model. destruct (_models c !! i) as [m|]; [|done].
  destruct (FunctionModel.setattr n v m) as [r m']. cbn.
  by rewrite length_insert.
Qed.

Lemma for_each_composite_setattr_pars (l : list (string * pyval)) c :
  c_pars (for_each l (fun kv => Composite.setattr kv.1 kv.2) c).2 = c_pars c /\
  _argmap (for_each l (fun kv => Composite.setattr kv.1 kv.2) c).2 = _argmap c /\
  length (_models (for_each l (fun kv => Composite.setattr kv.1 kv.2) c).2)
    = length (_models c).
Proof.
  revert c. induction l as [|[k v] l IH]; intros c; cbn; [done|].
  unfold bind. pose proof (composite_setattr_pars k v c) as (H1&H2&H3).
  destruct (Composite.setattr k v c) as [[[]|e] c1]; cbn in *; [|done].
  destruct (IH c1) as (->&->&->). done.
Qed.

Lemma named_length {A} (h : nat -> string -> A) (f : nat -> nat) (models : list model) :
  length (flat_map (fun im : nat * model => map (h im.1) (_pars im.2))
                   (imap (fun i m => (f i, m)) models))
  = sum_list (map (fun m => length (_pars m)) models).
Proof.
  revert f. induction models as [|m models IH]; intros f; cbn; [done|].
  rewrite length_app, length_map. f_equal. apply (IH (f ∘ S)).
Qed.

(** X13: a composite that its constructor returns has as many parameters as
    its sub-models have together, whatever names are given to them and
    whether or not the suffixes are removed; and it has the sub-models in
    the number given. *)
Theorem composite_parameter_count (models : list model)
    (operation : Composite.operation) (parnames : gmap string string)
    (autoshorten : bool) (parvals : gmap string pyval) (c : composite) :
  Composite.init models operation parnames autoshorten parvals = Ok c ->
  length (c_pars c) = sum_list (map (fun m => length (_pars m)) models) /\
  length (_models c) = length models.
Proof.
  unfold Composite.init.
  destruct (forallb _ models); [|discriminate]. cbn [negb].
  destruct (Composite.operators operation (length models)) as [ops|]; [|discriminate].
  cbn [rbind].
  destruct (Composite.rename _ _ _) as [[args1 argmap1]|] eqn:Hren; [|discriminate].
  cbn [rbind]. apply rename_length in Hren.
  match goal with |- context [rbind ?s _] => destruct s as [[args2 argmap2]|] eqn:Hsh end;
    [|discriminate].
  cbn [rbind fst snd].
  assert (Hlen2 : length args2 = length args1).
  { destruct autoshorten; [by apply shorten_length in Hsh | by injection Hsh as <- _]. }
  match goal with
  | |- context [for_each ?l ?body ?self] =>
      pose proof (for_each_composite_setattr_pars l self) as (H1&_&H3);
      destruct (for_each l body self) as [[[]|e] c']
  end; [|discriminate].
  cbn in *. intros [= <-]. split; [|done].
  rewrite H1, Hlen2, Hren, length_map.
  apply (named_length (fun i p => (p +:+ pretty i, (i, p))) id).
Qed.

(** A construction on which X13 applies: a line and a constant have three
    parameters together. *)
Lemma composite_parameter_count_witness :
  length (c_pars Examples.line_plus_constant)
    = sum_list (map (fun m => length (_pars m)) [Examples.line; Examples.constant]) /\
  length (_models Examples.line_plus_constant)
    = length [Examples.line; Examples.constant].
Proof.
  apply (composite_parameter_count [Examples.line; Examples.constant]
           (Composite.OpString "+") ∅ true ∅).
  reflexivity.
Defined.

(** The store shows the sub-models that the references name. *)
Lemma shown_spec (objs : list model) (l : list nat) :
  (forall a, a ∈ l -> a < length objs) ->
  Forall2 (fun a m => objs !! a = Some m) l (omap (fun a => objs !! a) l).
Proof.
  induction l as [|a l IH]; intros Hv; cbn; [constructor|].
  destruct (lookup_lt_is_Some_2 objs a) as [m Hm]; [apply Hv; by left|].
  rewrite Hm. constructor; [done|]. apply IH. intros b Hb. apply Hv. by right.
Qed.

Lemma shown_unique (objs : list model) (l : list nat) (k : list model) :
  Forall2 (fun a m => objs !! a = Some m) l k ->
  k = omap (fun a => objs !! a) l.
Proof.
  induction 1 as [|a m l k Ha _ IH]; cbn; [done|]. by rewrite Ha, IH.
Qed.

(** For sub-models that are distinct objects, the composite that holds them
    by value shows what an assignment through the references does. *)
Lemma setattr_by_value (s : Shared.shared) (name : string) (v : pyval) :
  Shared.distinct s ->
  (Shared.setattr name v s).1 = (Composite.setattr name v (Shared.by_value s)).1 /\
  Shared.by_value (Shared.setattr name v s).2
    = (Composite.setattr name v (Shared.by_value s)).2.
Proof.
  intros [Hnd Hv]. unfold Shared.setattr, Composite.setattr, bind, get.
  cbn [c_pars _argmap Shared.by_value Composite.set_models].
  destruct (bool_decide (name ∈ c_pars (Shared.self s))); [|done].
  destruct (_argmap (Shared.self s) !! name) as [[i n]|]; [|done].
  unfold Shared.on_object, on_model. cbn [_models Composite.set_models].
  pose proof (shown_spec (Shared.objects s) (Shared.refs s) Hv) as HF.
  fold (Shared.shown s) in HF.
  change (_models (Shared.by_value s)) with (Shared.shown s).
  destruct (Shared.refs s !! i) as [a|] eqn:Hi.
  2:{ pose proof (Forall2_length _ _ _ HF) as Hlen. apply lookup_ge_None in Hi.
      rewrite (proj2 (lookup_ge_None (Shared.shown s) i)); [done|]. lia. }
  destruct (Forall2_lookup_l _ _ _ _ _ HF Hi) as (m&Hm&Ha). rewrite Hm, Ha.
  destruct (FunctionModel.setattr n v m) as [r m']. cbn. split; [done|].
  unfold Shared.by_value, Composite.set_models. cbn. f_equal.
  unfold Shared.shown. cbn. symmetry. apply shown_unique.
  apply Forall2_same_length_lookup_2.
  { rewrite length_insert. by eapply Forall2_length. }
  intros j b m2 Hb Hm2. destruct (decide (j = i)) as [->|Hji].
  - rewrite Hi in Hb. injection Hb as <-.
    rewrite list_lookup_insert_eq in Hm2 by (by eapply lookup_lt_Some).
    injection Hm2 as <-.
    apply list_lookup_insert_eq. by eapply lookup_lt_Some.
  - rewrite list_lookup_insert_ne in Hm2 by done.
    rewrite list_lookup_insert_ne.
    + exact (Forall2_lookup_lr _ _ _ _ _ _ HF Hb Hm2).
    + intros <-. apply Hji. by eapply NoDup_lookup.
Qed.

(** X14: assigning a scalar to a parameter of the composite assigns it to
    the parameter of the object that the name stands for: that parameter
    has the value, the other parameters of the object and every other
    object are as before, and every parameter of the composite that stands
    for the same parameter of the same object then reads as the value, the
    assigned one and, when the object is a sub-model more than once, its
    namesakes. *)
Theorem composite_assignment (s : Shared.shared) (name n : string) (i a : nat)
    (m : model) (v : pyval) :
  name ∈ c_pars (Shared.self s) ->
  _argmap (Shared.self s) !! name = Some (i, n) ->
  Shared.refs s !! i = Some a -> Shared.objects s !! a = Some m ->
  isscalar v = true ->
  exists s' m',
    Shared.setattr name v s = (Ok tt, s') /\
    Shared.objects s' = <[a := m']> (Shared.objects s) /\
    Shared.refs s' = Shared.refs s /\ Shared.self s' = Shared.self s /\
    stored m' n = Some v /\ (forall b, b <> n -> stored m' b = stored m b) /\
    forall name' j,
      name' ∈ c_pars (Shared.self s) ->
      _argmap (Shared.self s) !! name' = Some (j, n) ->
      Shared.refs s !! j = Some a ->
      (Shared.getattr name' s').1 = Ok v.
Proof.
  intros Hin Hr Hi Hm Hv.
  destruct (setattr_scalar m n v Hv) as (m'&E&F&Hn&Ho).
  exists (Shared.set_objects (<[a := m']>) s), m'.
  split; [|split; [done|split; [done|split; [done|split; [done|split; [done|]]]]]].
  - unfold Shared.setattr, bind, get.
    rewrite bool_decide_eq_true_2, Hr by done.
    unfold Shared.on_object. by rewrite Hi, Hm, E.
  - intros name' j Hin' Hr' Hj.
    unfold Shared.getattr, bind, get. cbn [Shared.self Shared.set_objects].
    rewrite bool_decide_eq_true_2, Hr' by done.
    unfold Shared.on_object. cbn [Shared.refs Shared.objects Shared.set_objects].
    rewrite Hj, list_lookup_insert_eq by (by eapply lookup_lt_Some).
    pose proof (getattr_result m' n) as Hg. rewrite Hn in Hg.
    by destruct (FunctionModel.getattr n m') as [r m''].
Qed.

(** An assignment on which X14 applies: the composite of one line given
    twice, as its constructor builds it; after the assignment to [m0], the
    parameter [m1] reads as the new value too. *)
Lemma composite_assignment_witness :
  Composite.init [Examples.line; Examples.line] (Composite.OpString "+") ∅ true ∅
    = Ok (Shared.self Shared.line_twice) /\
  exists s' m',
    Shared.setattr "m0" (VNum 4) Shared.line_twice = (Ok tt, s') /\
    Shared.objects s' = <[0%nat := m']> (Shared.objects Shared.line_twice) /\
    Shared.refs s' = Shared.refs Shared.line_twice /\
    Shared.self s' = Shared.self Shared.line_twice /\
    stored m' "m" = Some (VNum 4) /\
    (forall b, b <> "m" -> stored m' b = stored Examples.line b) /\
    forall name' j,
      name' ∈ c_pars (Shared.self Shared.line_twice) ->
      _argmap (Shared.self Shared.line_twice) !! name' = Some (j, "m") ->
      Shared.refs Shared.line_twice !! j = Some 0%nat ->
      (Shared.getattr name' s').1 = Ok (VNum 4).
Proof.
  split; [by vm_compute|].
  apply (composite_assignment Shared.line_twice "m0" "m" 0 0 Examples.line (VNum 4)).
  - by apply (bool_decide_unpack _).
  - reflexivity.
  - reflexivity.
  - reflexivity.
  - reflexivity.
Defined.

End CompositeParameters.

(** ** The filters of a composite *)

Section CompositeFilters.
Import Hoare FunctionModel CompositeViews.
Import Composite(composite, _models, _ops, _opstr, c_pars, _argmap, _filters,
                 c_filterfunc, on_model).
#[local] Arguments _getParvals : simpl never.

Variable g : pyval -> result pyval.

Lemma yields_on_model {A} i (op : M model A) :
  yields (last_filter g) (on_model i op) (fun _ => True).
Proof.
  intros c Hc. unfold on_model. destruct (_models c !! i) as [m|]; [|done].
  by destruct (op m) as [[a|e] m'].
Qed.

Lemma yields_composite_getattr name :
  yields (last_filter g) (Composite.getattr name) (fun _ => True).
Proof.
  unfold Composite.getattr. eapply yields_bind; [apply yields_get|]. intros s _.
  destruct (bool_decide _); [|apply yields_raise].
  destruct (_argmap s !! name) as [[i n]|]; [apply yields_on_model | apply yields_raise].
Qed.

Lemma yields_composite_setattr name v :
  yields (last_filter g) (Composite.setattr name v) (fun _ => True).
Proof.
  unfold Composite.setattr. eapply yields_bind; [apply yields_get|]. intros s _.
  destruct (bool_decide _); [|by apply yields_modify].
  destruct (_argmap s !! name) as [[i n]|]; [apply yields_on_model | apply yields_raise].
Qed.

Lemma yields_composite_getParvals :
  yields (last_filter g) Composite._getParvals (fun _ => True).
Proof.
  unfold Composite._getParvals. generalize recursion_limit. intros d.
  induction d as [|d IH]; cbn [Composite._getParvals_rec]; [apply yields_raise|].
  intros c Hc. unfold try_except.
  assert (H1 : yields (last_filter g)
                 (s <- get ;; comprehension (c_pars s) Composite.getattr)
                 (fun _ => True)).
  { eapply yields_bind; [apply yields_get|]. intros s _.
    apply yields_comprehension. intros a _. apply yields_composite_getattr. }
  specialize (H1 c Hc).
  destruct ((s <- get ;; comprehension (c_pars s) Composite.getattr) c)
    as [[pv|e] c1]; [done|].
  destruct (is_exn AttributeError e); [|done].
  assert (H2 : yields (last_filter g)
                 (Composite._autoInitPars ;;; Composite._getParvals_rec d)
                 (fun _ => True)).
  { eapply yields_bind; [|intros ? _; apply IH].
    unfold Composite._autoInitPars.
    eapply yields_bind; [apply yields_get|]. intros s _.
    apply yields_for_each. intros a _. apply yields_composite_setattr. }
  apply (H2 c1 H1).
Qed.

(** What [f] returns has passed through the last filter. *)
Lemma composite_f_filtered x pv :
  triple (last_filter g) (Composite.f x pv)
         (fun r _ => exists r0, g r0 = Ok r) (fun _ => True).
Proof.
  unfold Composite.f.
  eapply triple_after; [|done|intros ps _].
  { instantiate (1 := fun _ => True). by intros s Hs. }
  eapply triple_after; [|done|intros ? _].
  { apply yields_for_each. intros a _. apply yields_composite_setattr. }
  eapply triple_after; [apply yields_get|done|intros s _].
  eapply triple_after; [|done|intros mval _].
  { apply yields_comprehension. intros i _. apply yields_on_model. }
  eapply triple_after; [apply yields_get|done|intros s' [fl Hfl]].
  eapply triple_after; [apply yields_lift|done|intros res _].
  rewrite Hfl. intros s2 _. unfold lift. rewrite fold_left_app. cbn.
  destruct (fold_left _ fl (Ok res)) as [r0|e]; cbn; [|done].
  destruct (g r0) as [r|e] eqn:Hg; [by exists r0 | done].
Qed.

Lemma reshape_at_least b r sh r' :
  at_least b r -> Numpy.reshape r sh = Ok r' -> at_least b r'.
Proof.
  destruct r as [q|d| |]; cbn; try done.
  - intros Hq H. apply reshape_number in H as [[_ ->]|[_ ->]]; cbn; [done|].
    by repeat constructor.
  - intros Hd H. apply reshape_array in H as [[_ (x&->&->)]|[_ ->]]; cbn; [|done].
    by inversion Hd.
Qed.

End CompositeFilters.

Section LowerBound.
Import Hoare FunctionModel CompositeViews.
Import Composite(composite, _filters, c_filterfunc).
#[local] Arguments _getParvals : simpl never.

Lemma bndfunc_at_least b r0 r : Composite.bndfunc b r0 = Ok r -> at_least b r.
Proof.
  destruct r0 as [q|d| |]; cbn; try discriminate. intros [= <-]. cbn.
  apply Forall_forall. intros q (q0&->&_)%list_elem_of_fmap.
  destruct (Qlt_le_dec q0 b); [apply Qle_refl | done].
Qed.

(** X15: after [addLowerBoundFilter(bound)], as long as no other filter is
    added and the call mode transforms no output, no element of what a call
    of the composite returns is below [bound]. *)
Theorem lower_bound_filter_holds (c : composite) (bound : Q) (x r : pyval) :
  let c' := (Composite.addLowerBoundFilter bound c).2 in
  output_untransformed c ->
  (Composite.call x c').1 = Ok r ->
  at_least bound r.
Proof.
  intros c' Hmode Hcall.
  assert (Hlast : last_filter (Composite.bndfunc bound) c').
  { subst c'. cbn. by eexists. }
  assert (Hff : c_filterfunc c' = c_filterfunc c) by done.
  unfold Composite.call, bind at 1, lift at 1 in Hcall.
  destruct (Numpy.array x) as [arr|]; [|discriminate]. cbn [rbind] in Hcall.
  unfold bind at 1, get in Hcall. unfold bind at 1, lift at 1 in Hcall.
  destruct (Numpy.ravel arr) as [flat|]; [|discriminate]. cbn [rbind] in Hcall.
  unfold bind at 1 in Hcall.
  pose proof (yields_composite_getParvals (Composite.bndfunc bound) c' Hlast) as H1.
  destruct (Composite._getParvals c') as [[pv|e] c1]; [|discriminate].
  destruct H1 as [_ H1]. unfold bind at 1 in Hcall.
  assert (H2 : match Composite.call_filter (c_filterfunc c') flat pv c1 with
               | (Ok res, _) => at_least bound res
               | _ => True
               end).
  { rewrite Hff. unfold output_untransformed in Hmode.
    destruct (c_filterfunc c) as [| |xt [yt|]]; [| | done |];
      cbn [Composite.call_filter].
    - unfold bind, modify.
      pose proof (composite_f_filtered (Composite.bndfunc bound) flat pv
                    (Composite.set_c_filterfunc BoundF c1)) as T.
      lapply T; [|destruct H1 as [fl Hfl]; by exists fl]. clear T. intros T.
      destruct (Composite.f flat pv _) as [[res|e] c2]; [|done].
      destruct T as (r0&Hr0). by eapply bndfunc_at_least.
    - pose proof (composite_f_filtered (Composite.bndfunc bound) flat pv c1 H1) as T.
      destruct (Composite.f flat pv c1) as [[res|e] c2]; [|done].
      destruct T as (r0&Hr0). by eapply bndfunc_at_least.
    - unfold bind, lift. destruct (apply_opt xt flat) as [x'|]; [|done].
      pose proof (composite_f_filtered (Composite.bndfunc bound) x' pv c1 H1) as T.
      destruct (Composite.f x' pv c1) as [[res|e] c2]; [|done]. cbn.
      destruct T as (r0&Hr0). by eapply bndfunc_at_least. }
  destruct (Composite.call_filter (c_filterfunc c') flat pv c1) as [[res|e] c2];
    [|discriminate].
  unfold lift in Hcall. cbn in Hcall.
  destruct (Numpy.shape arr) as [sh|]; [|discriminate]. cbn in Hcall.
  by eapply reshape_at_least.
Qed.

(** A call on which X15 applies: the line plus the constant, bounded below
    by 1, at the inputs 0, 1 and 2. *)
Lemma lower_bound_filter_holds_witness :
  at_least 1 (VArr [1; 1; 2]%Q).
Proof.
  apply (lower_bound_filter_holds Examples.line_plus_constant 1 (VArr [0; 1; 2]%Q)).
  - exact I.
  - reflexivity.
Defined.

End LowerBound.
(** ** Residuals *)

Section ResidualFacts.
Import Hoare FunctionModel Fit Data.
#[local] Arguments _getParvals : simpl never.

(** What a call returns, from the class, the call mode and the values of the
    parameters. *)
Lemma call_value x m :
  (call x m).1 =
    rbind (Numpy.array x) (fun arr =>
      if flattens (cls m) then
        rbind (Numpy.ravel arr) (fun flat =>
        rbind (_getParvals m).1 (fun pv =>
        rbind (filtered (_filterfunc m) (cls m) flat pv) (fun res =>
        rbind (Numpy.shape arr) (Numpy.reshape res))))
      else
        rbind (_getParvals m).1 (fun pv =>
          filtered (_filterfunc m) (cls m) arr pv)).
Proof.
  unfold call. unfold bind at 1, lift at 1.
  destruct (Numpy.array x) as [arr|e]; [|reflexivity]. cbn [rbind].
  unfold bind at 1, get. pose proof (getParvals_frame m) as (Hc&_).
  destruct (flattens (cls m)).
  - unfold bind at 1, lift at 1.
    destruct (Numpy.ravel arr) as [flat|e]; [|reflexivity]. cbn [rbind].
    unfold bind at 1. destruct (_getParvals m) as [[pv|e] m1]; [|reflexivity].
    cbn [fst snd rbind] in *. unfold bind, lift.
    rewrite <- Hc, <- call_filter_result.
    by destruct (call_filter (_filterfunc m) flat pv m1) as [[res|e] m2].
  - unfold bind at 1. destruct (_getParvals m) as [[pv|e] m1]; [|reflexivity].
    cbn [fst snd rbind] in *. by rewrite <- Hc, <- call_filter_result.
Qed.

(** The state that a call leaves: the class is the same, the parameters
    read the same, and the call mode evaluates the same. *)
Lemma call_leaves x m :
  let m' := (call x m).2 in
  cls m' = cls m /\ (_getParvals m').1 = (_getParvals m).1 /\
  forall x' pv, filtered (_filterfunc m') (cls m') x' pv
                = filtered (_filterfunc m) (cls m) x' pv.
Proof.
  assert (Hcf : forall ff x' pv s,
    let s' := (call_filter ff x' pv s).2 in
    ff = _filterfunc s ->
    agree s s' /\ forall x'' pv', filtered (_filterfunc s') (cls s') x'' pv'
                                  = filtered (_filterfunc s) (cls s) x'' pv').
  { intros ff x' pv s s' ->. split; [apply call_filter_agree|].
    subst s'. by destruct (_filterfunc s) eqn:E; cbn; rewrite ?E. }
  assert (Hgp : forall s, let s1 := (_getParvals s).2 in
    cls s1 = cls s /\ _filterfunc s1 = _filterfunc s /\
    forall s2, agree s1 s2 -> (_getParvals s2).1 = (_getParvals s).1).
  { intros s. destruct (getParvals_total s) as (pv&s1&E&F&Hi&Hpv).
    pose proof (getParvals_same_mode s) as Hm.
    rewrite E in Hm |- *. cbn in *. split; [apply F|]. split; [exact Hm|].
    intros s2 A. destruct (getParvals_again s pv s1 s2 E A) as (s3&E3&_).
    by rewrite E3. }
  cbv zeta. destruct (call x m) as [r m'] eqn:Hcall. cbn [snd].
  unfold call, bind, lift, get in Hcall.
  destruct (Numpy.array x) as [arr|e]; [|by inversion Hcall; subst].
  destruct (Hgp m) as (Hc&Hf&Hv).
  assert (Hend : forall z pv m1 r0 m2,
    _getParvals m = (Ok pv, m1) ->
    call_filter (_filterfunc m) z pv m1 = (r0, m2) ->
    cls m2 = cls m /\ (_getParvals m2).1 = (_getParvals m).1 /\
    forall x' pv', filtered (_filterfunc m2) (cls m2) x' pv'
                   = filtered (_filterfunc m) (cls m) x' pv').
  { intros z pv m1 r0 m2 E Hf2. rewrite E in Hc, Hf, Hv. cbn [fst snd] in *.
    rewrite <- Hf in Hf2.
    destruct (Hcf (_filterfunc m1) z pv m1 eq_refl) as [A Hfl].
    rewrite Hf2 in A, Hfl. cbn [snd] in *.
    split; [by rewrite <- Hc; apply A|]. split; [rewrite E; by apply Hv|].
    intros. by rewrite Hfl, Hc, Hf. }
  assert (Hraise : forall e m1, _getParvals m = (Raise e, m1) ->
    cls m1 = cls m /\ (_getParvals m1).1 = (_getParvals m).1 /\
    forall x' pv', filtered (_filterfunc m1) (cls m1) x' pv'
                   = filtered (_filterfunc m) (cls m) x' pv').
  { intros e m1 E. rewrite E in Hc, Hf, Hv. cbn [fst snd] in *.
    split; [done|]. split; [rewrite E; by apply Hv, agree_refl|].
    by rewrite Hc, Hf. }
  destruct (flattens (cls m)).
  - destruct (Numpy.ravel arr) as [flat|e]; [|by inversion Hcall; subst].
    destruct (_getParvals m) as [[pv|e] m1] eqn:E.
    + destruct (call_filter (_filterfunc m) flat pv m1) as [[res|e] m2] eqn:E2;
        inversion Hcall; subst; by eapply Hend.
    + inversion Hcall; subst. by eapply Hraise.
  - destruct (_getParvals m) as [[pv|e] m1] eqn:E.
    + destruct (call_filter (_filterfunc m) arr pv m1) as [r0 m2] eqn:E2.
      inversion Hcall; subst. by eapply Hend.
    + inversion Hcall; subst. by eapply Hraise.
Qed.

(** A call gives what the call before it gave. *)
Lemma call_again x m : (call x (call x m).2).1 = (call x m).1.
Proof.
  destruct (call_leaves x m) as (Hc&Hv&Hf). rewrite (call_value x (call x m).2).
  rewrite (call_value x m), Hv. rewrite Hc in Hf |- *.
  destruct (Numpy.array x) as [arr|]; [|done]. cbn [rbind].
  destruct (flattens (cls m)).
  - destruct (Numpy.ravel arr) as [flat|]; [|done]. cbn [rbind].
    destruct (_getParvals m).1 as [pv|]; [|done]. cbn [rbind]. by rewrite Hf.
  - destruct (_getParvals m).1 as [pv|]; [|done]. cbn [rbind]. by rewrite Hf.
Qed.

(** X16: [residuals(x,y)] is [y - self(x)] for what one call [self(x)]
    returns before it, although the method evaluates the model twice; it
    raises [ModelTypeError] when that output has not the shape of [y], and
    what the call or the subtraction raises otherwise. With [retdata] the
    result is the tuple of [x], [y] and the residuals. *)
Theorem residuals_of_data (m : model) (x y : pyval) (retdata : bool) :
  (residuals (Some x) (Some y) retdata m).1 =
    rbind (rbind (call x m).1 (difference y))
          (fun d => Ok (if retdata then VTuple [x; y; d] else d)).
Proof.
  unfold residuals, fitted_or_given. unfold bind at 1, ret at 1. cbn [fst snd].
  pose proof (call_again x m) as Hagain.
  unfold bind at 1. destruct (call x m) as [[out|e] m1]; [|done].
  cbn [fst snd rbind] in *. unfold difference.
  unfold bind at 1, lift at 1. destruct (Numpy.shape out) as [osh|]; [|done].
  unfold bind at 1, lift at 1. destruct (Numpy.shape y) as [ysh|]; [|done].
  cbn [rbind]. destruct (bool_decide (osh = ysh)); [|done]. cbn [negb].
  unfold bind at 1. destruct (call x m1) as [[out'|e] m2]; [|done].
  cbn [fst] in Hagain. injection Hagain as ->.
  unfold bind, lift. destruct (Numpy.sub y out) as [d|]; [|done].
  by destruct retdata.
Qed.

Lemma commit_saves x y u ps res s v s' :
  commit x y u true (ps, res) s = (Ok v, s') -> fitteddata s' = Some (x, y).
Proof.
  unfold commit. cbn [fst snd]. unfold bind at 1, modify at 1.
  unfold bind at 1, lift at 1. destruct (Numpy.item0 res) as [v0|]; [|done].
  unfold bind at 1, lift at 1.
  destruct (match Numpy.item0 v0 with
            | Ok _ => Ok v0
            | Raise IndexError => Ok (singleton_array v0)
            | Raise e => Raise e
            end) as [v1|]; [|done].
  unfold bind at 1.
  match goal with
  | |- context [let (_, _) := ?c (set_lastfit (Some res) s) in _] =>
      destruct (c (set_lastfit (Some res) s)) as [[[]|e] s1]; [|done]
  end.
  unfold bind, modify, ret. by intros [= <- <-].
Qed.

(** X17: after a fit that returns and was asked to save the data,
    [residuals()] without data is [residuals(x,y)] on the data of the fit,
    with [y] flattened. *)
Theorem fit_then_residuals eng (m m' : model) (x y v : pyval)
    (method : option string) (fixedpars : option (list string))
    (weights : option pyval) (contraction : string) (updatepars fitf : bool) :
  fitData eng x y method fixedpars weights contraction updatepars fitf true m
    = (Ok v, m') ->
  exists y', Numpy.ravel y = Ok y' /\
    forall retdata,
      residuals None None retdata m' = residuals (Some x) (Some y') retdata m'.
Proof.
  intros Hfit.
  destruct (getParvals_total m) as (pv&m1&Epv&F&Hi&Hpv).
  destruct F as (_&Hp1&_&_&Hf1).
  pose proof (fitData_triple m1 (keeps_names m1)
    (keeps_names_agree m1)
    ltac:(by intros s (?&?&?)) ltac:(by intros s (?&?&?))
    eng x y method fixedpars weights contraction updatepars fitf true
    (eq m)
    (fun _ s => exists y', Numpy.ravel y = Ok y' /\ fitteddata s = Some (x, y'))
    (fun _ => True)) as H.
  lapply H; [clear H; intros H|].
  2:{ intros s <-. rewrite Epv. by repeat split. }
  specialize (H ltac:(done)). lapply H; [clear H; intros H|].
  - specialize (H m eq_refl). rewrite Hfit in H. destruct H as (y'&Hy'&Hfd).
    exists y'. split; [done|]. intros retdata.
    assert (Hg : fitted_or_given None None m'
                 = fitted_or_given (Some x) (Some y') m').
    { unfold fitted_or_given, bind, get. by rewrite Hfd. }
    unfold residuals. unfold bind at 1 4. by rewrite Hg.
  - intros y' ps v0 v' res Hy' _ s _.
    destruct (commit x y' updatepars true (ps, res) s) as [[w|e] s'] eqn:E;
      [|done].
    exists y'. split; [done|]. by eapply commit_saves.
Qed.

(** A fit on which X17 applies: a line fitted to three points by an
    optimizer that returns its start point. *)
Lemma fit_then_residuals_witness :
  exists y', Numpy.ravel (VArr [3; 1; 1]%Q) = Ok y' /\
    forall retdata,
      residuals None None retdata
        (fitData Examples.one_step_engine (VArr [0; 1; 2]%Q)
           (VArr [3; 1; 1]%Q) None None None "sumsq" true false true
           Examples.line).2
      = residuals (Some (VArr [0; 1; 2]%Q)) (Some y') retdata
          (fitData Examples.one_step_engine (VArr [0; 1; 2]%Q)
             (VArr [3; 1; 1]%Q) None None None "sumsq" true false true
             Examples.line).2.
Proof.
  apply (fit_then_residuals Examples.one_step_engine Examples.line _
           (VArr [0; 1; 2]%Q) (VArr [3; 1; 1]%Q) (VArr [1; 0]%Q)
           None None None "sumsq" true false).
  reflexivity.
Defined.

End ResidualFacts.

(** ** Fits with the parameters of some sub-models fixed *)

Section FixedFitFacts.
Import FunctionModel FixedFit.
Import Composite(composite, _models, c_pars, _argmap).

(** X18: [fitDataFixed] with four or more positional arguments (the fourth
    is [fixedpars] of [fitData]) raises, whatever [fixedmods] and [freemods]
    are: [fitData] is not called and the composite is left as it is. *)
Theorem fitDataFixed_positional {A} (c : composite) (args : list pyval)
    (fixedmods freemods : option (list Z))
    (fitData : list pyval -> list string -> M composite A) :
  4 <= length args ->
  exists e, fitDataFixed args fixedmods freemods fitData c = (Raise e, c).
Proof.
  intros Hlen. unfold fitDataFixed, bind, get, lift, raise.
  destruct (match fixedmods, freemods with
            | Some _, Some _ => Raise TypeError
            | Some l, None => fixed_names c l []
            | None, Some l => free_names c l (c_pars c)
            | None, None => Raise TypeError
            end) as [fps|e]; [|by exists e].
  apply Nat.leb_le in Hlen. rewrite Hlen. by exists TypeError.
Qed.

(** A call on which X18 applies: [x], [y], [method] and [fixedpars] given by
    position. *)
Lemma fitDataFixed_positional_witness :
  exists e,
    fitDataFixed [VArr [0; 1]%Q; VArr [0; 1]%Q; VNum 0; VTuple []]
      (Some [0%Z]) None (fun _ fps => ret fps) Examples.line_plus_constant
    = (Raise e, Examples.line_plus_constant).
Proof.
  apply (fitDataFixed_positional Examples.line_plus_constant
           [VArr [0; 1]%Q; VArr [0; 1]%Q; VNum 0; VTuple []]).
  cbn. lia.
Defined.

Lemma remove_subset n l l' a :
  AutoParams.remove n l = Ok l' -> a ∈ l' -> a ∈ l.
Proof.
  revert l'. induction l as [|y l IH]; intros l'; cbn; [done|].
  destruct (String.eqb n y); [intros [= ->]; by right|].
  destruct (AutoParams.remove n l) as [r|]; [|done]. cbn. intros [= <-].
  intros [->|H]%elem_of_cons; [by left | right; by eapply IH].
Qed.

Lemma remove_missing n l : n ∉ l -> AutoParams.remove n l = Raise ValueError.
Proof.
  induction l as [|y l IH]; cbn; [done|]. intros Hn.
  destruct (String.eqb_spec n y) as [->|_]; [destruct Hn; by left|].
  rewrite IH; [done|]. intros ?. apply Hn. by right.
Qed.

Lemma remove_raises n l e : AutoParams.remove n l = Raise e -> e = ValueError.
Proof.
  induction l as [|y l IH]; cbn; [by intros [=]|].
  destruct (String.eqb n y); [done|].
  destruct (AutoParams.remove n l) as [r|e']; [done|]. cbn. intros [= <-].
  by apply IH.
Qed.

Lemma remove_each_missing names fps n :
  n ∈ names -> n ∉ fps -> remove_each names fps = Raise ValueError.
Proof.
  revert fps. induction names as [|k names IH]; intros fps Hin Hn; [by inversion Hin|].
  cbn. destruct (AutoParams.remove k fps) as [fps'|e] eqn:E; cbn.
  - apply elem_of_cons in Hin as [->|Hin].
    + by rewrite remove_missing in E.
    + apply IH; [done|]. intros H. apply Hn. by eapply remove_subset.
  - by rewrite (remove_raises _ _ _ E).
Qed.

(** X19: [fitDataFixed(freemods=...)] raises [ValueError] and does not call
    [fitData] when the first of the listed sub-models has a parameter whose
    name with the number of the sub-model as suffix is not a parameter of
    the composite, as after the removal of the suffixes by the constructor. *)
Theorem fitDataFixed_free_shortened {A} (c : composite) (args : list pyval)
    (i : Z) (rest : list Z) (m : model) (p : string)
    (fitData : list pyval -> list string -> M composite A) :
  model_at c i = Ok m -> p ∈ _pars m -> p +:+ pretty i ∉ c_pars c ->
  fitDataFixed args None (Some (i :: rest)) fitData c = (Raise ValueError, c).
Proof.
  intros Hm Hp Hn. unfold fitDataFixed, bind, get, lift. cbn [free_names].
  rewrite Hm. cbn [rbind].
  rewrite (remove_each_missing _ _ (p +:+ pretty i)); [done| |done].
  unfold names_of. apply list_elem_of_fmap. by exists p.
Qed.

(** A call on which X19 applies: the line plus the constant has the
    parameters [m], [b] and [C], and the line is to be left free. *)
Lemma fitDataFixed_free_shortened_witness :
  fitDataFixed [] None (Some [0%Z]) (fun _ fps => ret fps)
    Examples.line_plus_constant
  = (Raise ValueError, Examples.line_plus_constant).
Proof.
  apply (fitDataFixed_free_shortened Examples.line_plus_constant [] 0 []
           Examples.line "m").
  - reflexivity.
  - by apply (bool_decide_unpack _).
  - by apply (bool_decide_unpack _).
Defined.

Lemma pretty_of_nat (k : nat) : pretty (Z.of_nat k) = pretty k.
Proof. by destruct k. Qed.

Lemma fixed_names_spec c mods acc :
  Forall (fun i => (0 <= i < Z.of_nat (length (_models c)))%Z) mods ->
  exists fps, fixed_names c mods acc = Ok (acc ++ fps) /\
    forall name, name ∈ fps <->
      exists i m p, i ∈ mods /\ _models c !! Z.to_nat i = Some m /\
        p ∈ _pars m /\ name = p +:+ pretty i.
Proof.
  intros Hall. revert acc. induction Hall as [|i mods [Hi0 Hi] _ IH]; intros acc.
  - exists []. rewrite app_nil_r. split; [done|]. intros name. split; [by inversion 1|].
    by intros (i&?&?&Hi&_); inversion Hi.
  - cbn [fixed_names]. unfold model_at.
    destruct (Z.ltb_spec i 0) as [?|_]; [lia|].
    destruct (Z.ltb_spec i 0) as [?|_]; [lia|].
    destruct (lookup_lt_is_Some_2 (_models c) (Z.to_nat i) ltac:(lia)) as [m Hm].
    rewrite Hm. cbn [rbind].
    destruct (IH (acc ++ names_of m i)) as (fps&->&Hfps).
    exists (names_of m i ++ fps). split; [by rewrite app_assoc|].
    intros name. rewrite elem_of_app, Hfps. unfold names_of.
    rewrite list_elem_of_fmap. split.
    + intros [(p&->&Hp)|(j&m'&p&Hj&Hm'&Hp&->)].
      * exists i, m, p. repeat split; [by left|done..].
      * exists j, m', p. repeat split; [by right|done..].
    + intros (j&m'&p&[->|Hj]%elem_of_cons&Hm'&Hp&->).
      * left. exists p. split; [done|]. congruence.
      * right. by exists j, m', p.
Qed.

Lemma init_plain models operation c :
  Composite.init models operation ∅ false ∅ = Ok c ->
  _models c = models /\
  c_pars c = flat_map (fun im => map (fun p => p +:+ pretty im.1) (_pars im.2))
                      (imap pair models).
Proof.
  unfold Composite.init. destruct (negb _); [done|].
  destruct (Composite.operators _ _) as [ops|]; [|done]. cbn [rbind].
  rewrite !map_to_list_empty. cbn. intros [= <-]. cbn. split; [done|].
  induction (imap pair models) as [|im l IH]; cbn; [done|].
  rewrite map_app, IH. f_equal. by rewrite map_map.
Qed.

(** X20: for a composite built without new names and without the removal of
    the suffixes, [fitDataFixed(fixedmods=...)] with fewer than four
    positional arguments and indices within range calls [fitData] with the
    parameters of the listed sub-models under their suffixed names, and
    each of them is a parameter of the composite. *)
Theorem fitDataFixed_fixed_names {A} (models : list model)
    (operation : Composite.operation) (c : composite) (args : list pyval)
    (mods : list Z) (fitData : list pyval -> list string -> M composite A) :
  Composite.init models operation ∅ false ∅ = Ok c ->
  length args < 4 ->
  Forall (fun i => (0 <= i < Z.of_nat (length models))%Z) mods ->
  exists fps,
    fitDataFixed args (Some mods) None fitData c = fitData args fps c /\
    (forall name, name ∈ fps <->
       exists i m p, i ∈ mods /\ models !! Z.to_nat i = Some m /\
         p ∈ _pars m /\ name = p +:+ pretty i) /\
    (forall name, name ∈ fps -> name ∈ c_pars c).
Proof.
  intros [Hm Hp]%init_plain Hlen Hall. rewrite <- Hm in Hall.
  destruct (fixed_names_spec c mods [] Hall) as (fps&Hfps&Hin).
  rewrite Hm in Hin. exists fps. split; [|split; [done|]].
  - unfold fitDataFixed, bind, get, lift. rewrite Hfps. cbn [app].
    by destruct (Nat.leb_spec 4 (length args)); [lia|].
  - intros name (i&m&p&Hi&Hlk&Hpm&->)%Hin. rewrite Hp.
    apply list_elem_of_In, in_flat_map. exists (Z.to_nat i, m). split.
    + apply list_elem_of_In. by apply (elem_of_lookup_imap_2 pair).
    + apply list_elem_of_In, list_elem_of_fmap. exists p. split; [|done]. cbn.
      rewrite Forall_forall in Hall. specialize (Hall i Hi).
      by rewrite <- pretty_of_nat, Z2Nat.id by lia.
Qed.

(** A call on which X20 applies: the first sub-model of the line plus the
    constant, built with [autoshorten=False]. *)
Lemma fitDataFixed_fixed_names_witness :
  exists c fps,
    Composite.init [Examples.line; Examples.constant] (Composite.OpString "+")
      ∅ false ∅ = Ok c /\
    fitDataFixed [] (Some [0%Z]) None (fun _ fps => ret fps) c = (Ok fps, c) /\
    (forall name, name ∈ fps -> name ∈ c_pars c).
Proof.
  destruct (Composite.init [Examples.line; Examples.constant]
              (Composite.OpString "+") ∅ false ∅) as [c|] eqn:E;
    [|by vm_compute in E].
  destruct (fitDataFixed_fixed_names [Examples.line; Examples.constant]
              (Composite.OpString "+") c [] [0%Z] (fun _ fps => ret fps) E)
    as (fps&H1&_&H3).
  - cbn. lia.
  - repeat constructor; cbn; lia.
  - by exists c, fps.
Defined.

End FixedFitFacts.

(** ** Coordinate transforms *)

Section TransformerFacts.
Import Transformer.

(** What [addTransform] does on an instance without a dictionary of its
    own, for a function that it accepts. *)
Lemma addTransform_first input output f t :
  well_formed t -> own_transforms t = None -> accepts f = true ->
  exists l d,
    addTransform input output f t =
      (Ok tt,
       set_inner (<[l := <[output := f]> d]>
                    (match class_transforms t !! input with
                     | Some _ => inner t
                     | None => inner t ++ [∅]
                     end))
         (set_own (Some (match class_transforms t !! input with
                         | Some _ => class_transforms t
                         | None => <[input := l]> (class_transforms t)
                         end)) t)) /\
    match class_transforms t !! input with
    | Some l' => l = l' /\ inner t !! l = Some d
    | None => l = length (inner t) /\ d = ∅
    end.
Proof.
  intros [Hwf _] Hown Hacc. unfold addTransform. rewrite Hacc. cbn [negb].
  unfold bind at 1, get at 1. rewrite Hown.
  unfold bind at 1, modify at 1. unfold bind at 1.
  unfold outer_item, bind at 1, get at 1. cbn [own_transforms set_own].
  destruct (class_transforms t !! input) as [l|] eqn:Hl.
  - destruct (lookup_lt_is_Some_2 (inner t) l (Hwf _ _ Hl)) as [d Hd].
    exists l, d. split; [|done]. unfold ret, bind, get. cbn. by rewrite Hd.
  - exists (length (inner t)), ∅. split; [|done].
    unfold bind, modify, ret, get. cbn.
    by rewrite lookup_app_r, Nat.sub_diag by lia.
Qed.

(** X21: on an instance that has no transform of its own yet,
    [addTransform] of a function that it accepts returns, and
    [transformCoordinates] from [input] to [output] then calls that function
    on the items of [x]. *)
Theorem addTransform_then_transform (t : transformer) (input output : string)
    (f : func) (x : pyval) :
  well_formed t -> own_transforms t = None -> accepts f = true ->
  input <> output ->
  exists t', addTransform (Some input) (Some output) f t = (Ok tt, t') /\
    (transformCoordinates x (Some input) (Some output) t').1
      = rbind (Numpy.iterate x) (run f).
Proof.
  intros Hwf Hown Hacc Hne.
  destruct (addTransform_first (Some input) (Some output) f t Hwf Hown Hacc)
    as (l&d&->&Hl).
  eexists. split; [reflexivity|].
  unfold transformCoordinates, bind at 1, get at 1.
  rewrite bool_decide_false by congruence.
  unfold bind at 1, outer_item, bind at 1, get at 1. cbn [own_transforms set_inner set_own].
  match type of Hl with
  | match ?e with _ => _ end => destruct e as [l'|] eqn:Hc
  end.
  - destruct Hl as [-> Hd]. rewrite ?Hc. unfold ret, bind, get. cbn.
    rewrite list_lookup_insert_eq by (by eapply lookup_lt_Some).
    by rewrite lookup_insert_eq.
  - destruct Hl as [-> ->]. rewrite lookup_insert_eq. unfold ret, bind, get. cbn.
    rewrite list_lookup_insert_eq by (rewrite length_app; cbn; lia).
    by rewrite lookup_insert_eq.
Qed.

(** An instance on which X21 applies: the class has a transform from
    [polar] to [cartesian]; one from [cartesian] to [polar] is added. *)
Lemma addTransform_then_transform_witness :
  exists t',
    addTransform (Some "cartesian") (Some "polar") swap_example
      polar_example = (Ok tt, t') /\
    (transformCoordinates (VTuple [VNum 1; VNum 2]) (Some "cartesian")
       (Some "polar") t').1
      = rbind (Numpy.iterate (VTuple [VNum 1; VNum 2])) (run swap_example).
Proof.
  apply (addTransform_then_transform polar_example "cartesian" "polar"
           swap_example (VTuple [VNum 1; VNum 2])).
  - split.
    + intros k l H. unfold polar_example in H. cbn [class_transforms] in H.
      apply lookup_singleton_Some in H as [_ <-]. cbn. lia.
    + intros d k l H. discriminate H.
  - reflexivity.
  - reflexivity.
  - discriminate.
Defined.

(** X22: [addTransform] returns only on an instance that has no transform
    of its own yet and only for a function that declares default values;
    after it has returned once, it raises for every function and leaves the
    transforms as they are. *)
Theorem addTransform_once (t t' : transformer) (input output : system) (f : func) :
  addTransform input output f t = (Ok tt, t') ->
  own_transforms t = None /\
  (exists s ds, spec f = Some s /\ AutoParams.defaults s = Some ds) /\
  forall input' output' f',
    exists e, addTransform input' output' f' t' = (Raise e, t').
Proof.
  unfold addTransform. destruct (accepts f) eqn:Hacc; [|done]. cbn [negb].
  unfold bind at 1, get at 1.
  destruct (own_transforms t) as [d0|] eqn:Hown; [done|].
  intros H. split; [done|]. split.
  { unfold accepts in Hacc. destruct (spec f) as [s|]; [|done].
    destruct (AutoParams.defaults s) as [ds|] eqn:Hds; [|done]. by exists s, ds. }
  assert (Hown' : is_Some (own_transforms t')).
  { revert H. unfold bind at 1, modify at 1. unfold bind at 1.
    unfold outer_item, bind at 1, get at 1. cbn [own_transforms set_own].
    destruct (class_transforms t !! input) as [l|].
    - unfold ret, bind, get. cbn.
      destruct (inner t !! l); [|done]. by intros [= <-].
    - unfold bind, modify, ret, get. cbn.
      destruct ((inner t ++ [∅]) !! length (inner t)); [|done].
      by intros [= <-]. }
  intros input' output' f'. destruct (accepts f'); cbn [negb].
  - unfold bind, get. destruct Hown' as [d' ->]. by exists NameError.
  - by exists TypeError.
Qed.

(** A call on which X22 applies: after the first transform, a second one
    is refused. *)
Lemma addTransform_once_witness :
  exists e,
    addTransform (Some "polar") (Some "log") swap_example
      (addTransform (Some "cartesian") (Some "polar") swap_example
         polar_example).2
    = (Raise e,
       (addTransform (Some "cartesian") (Some "polar") swap_example
          polar_example).2).
Proof.
  apply (addTransform_once polar_example _ (Some "cartesian") (Some "polar")
           swap_example).
  reflexivity.
Defined.

(** X23: a transform that one instance adds from a system for which the
    class has transforms already is entered in the dictionary of the class:
    another instance of the class uses it too. From a system new to the
    class, the other instance has no transform: [KeyError]. *)
Theorem addTransform_shared (t : transformer) (input output : string)
    (f : func) (x : pyval) :
  well_formed t -> own_transforms t = None -> accepts f = true ->
  input <> output ->
  let t' := (addTransform (Some input) (Some output) f t).2 in
  (transformCoordinates x (Some input) (Some output) (sibling t')).1 =
    match class_transforms t !! Some input with
    | Some _ => rbind (Numpy.iterate x) (run f)
    | None => Raise KeyError
    end.
Proof.
  intros Hwf Hown Hacc Hne.
  destruct (addTransform_first (Some input) (Some output) f t Hwf Hown Hacc)
    as (l&d&->&Hl).
  cbv zeta. cbn [snd].
  unfold transformCoordinates, bind at 1, get at 1.
  rewrite bool_decide_false by congruence.
  unfold bind at 1, outer_item, bind at 1, get at 1.
  cbn [own_transforms class_transforms sibling set_inner set_own].
  match type of Hl with
  | match ?e with _ => _ end => destruct e as [l'|] eqn:Hc
  end.
  - assert (Hc' : class_transforms t !! Some input = Some l') by exact Hc.
    rewrite Hc'. destruct Hl as [-> Hd]. unfold ret, bind, get. cbn.
    rewrite list_lookup_insert_eq by (by eapply lookup_lt_Some).
    by rewrite lookup_insert_eq.
  - assert (Hc' : class_transforms t !! Some input = None) by exact Hc.
    by rewrite Hc'.
Qed.

(** An instance on which X23 applies: the class has transforms from
    [polar], and an instance adds one from [polar] to [log]. *)
Lemma addTransform_shared_witness :
  (transformCoordinates (VTuple [VNum 1; VNum 2]) (Some "polar") (Some "log")
     (sibling (addTransform (Some "polar") (Some "log") swap_example
                 polar_example).2)).1
  = Ok (VTuple [VNum 2; VNum 1]).
Proof.
  apply (addTransform_shared polar_example "polar" "log"
           swap_example (VTuple [VNum 1; VNum 2])).
  - split.
    + intros k l H. unfold polar_example in H. cbn [class_transforms] in H.
      apply lookup_singleton_Some in H as [_ <-]. cbn. lia.
    + intros d k l H. discriminate H.
  - reflexivity.
  - reflexivity.
  - discriminate.
Defined.

End TransformerFacts.

(** ** Models with an offset or a scale *)

Section GeneratorFacts.
Import FunctionModel Generators.
Import Composite(composite, _models, c_pars, _argmap, on_model).

(** The loop that removes the suffixes leaves a name that was given by
    [parnames] at its place and with its target. *)
Lemma shorten_keeps renamed cargs v n tgt :
  v ∈ renamed -> cargs !! n = Some v ->
  forall todo args argmap args' argmap',
    (forall i a, (i, a) ∈ todo -> cargs !! i = Some a) ->
    Composite.shorten renamed cargs todo args argmap = Ok (args', argmap') ->
    args !! n = Some v -> argmap !! v = Some tgt ->
    args' !! n = Some v /\ argmap' !! v = Some tgt.
Proof.
  intros Hv Hn todo.
  induction todo as [|[i a] todo IH]; intros args argmap args' argmap' Htodo;
    cbn [Composite.shorten].
  - by intros [= <- <-].
  - assert (Hrest : forall i a, (i, a) ∈ todo -> cargs !! i = Some a).
    { intros j b Hj. apply Htodo. by right. }
    assert (Hi : cargs !! i = Some a) by (apply Htodo; by left).
    destruct (bool_decide_reflect (a ∈ renamed)) as [|Ha]; [by apply IH|].
    destruct (argmap !! a) as [tgt0|] eqn:Htgt0; [|discriminate].
    destruct (existsb _ _) eqn:Hex; [by apply IH|].
    pose proof (existsb_prefix_false _ _ _ Hex) as Hfree.
    intros Hsh Hargs Hmap. apply (IH _ _ _ _ Hrest Hsh).
    + rewrite list_lookup_insert_ne; [done|]. intros ->. congruence.
    + rewrite lookup_delete_ne by congruence.
      rewrite lookup_insert_ne; [done|]. intros Heq.
      assert (n = i) as -> by (apply (Hfree n v Hn); rewrite Heq; apply prefix_refl).
      congruence.
Qed.

Lemma index_of_suffixed (ps : list string) :
  Composite.index_of "C1" (map (fun p => p +:+ "0") ps ++ ["C1"])
    = Some (length ps).
Proof.
  induction ps as [|p ps IH]; [done|]. cbn [map app Composite.index_of].
  destruct (String.eqb_spec "C1" (p +:+ "0")) as [H|_].
  - exfalso. by apply (append_0_ne_1 p "C").
  - by rewrite IH.
Qed.

Lemma fold_insert_last {V} (pairs : list (string * V)) k v (m : gmap string V) :
  fold_left (fun am kv => <[kv.1 := kv.2]> am) (pairs ++ [(k, v)]) m !! k = Some v.
Proof. rewrite fold_left_app. cbn. apply lookup_insert_eq. Qed.

(** The composite of a model and a constant in which [C1] is given the name
    [pname]: the name is the last parameter and stands for [C] of the
    constant. *)
Lemma init_extra_parameter m k operation pname kwargs c :
  _pars k = ["C"] ->
  Composite.init [m; k] operation {["C1" := pname]} true kwargs = Ok c ->
  c_pars c !! length (_pars m) = Some pname /\
  _argmap c !! pname = Some (1, "C") /\
  length (c_pars c) = S (length (_pars m)) /\
  length (_models c) = 2.
Proof.
  intros Hk Hinit. unfold Composite.init in Hinit.
  destruct (forallb _ _); [|discriminate]. cbn [negb] in Hinit.
  destruct (Composite.operators _ _) as [ops|]; [|discriminate].
  cbn [rbind] in Hinit. rewrite !map_to_list_singleton in Hinit.
  change (flat_map _ (imap pair [m; k])) with
    (map (fun p => (p +:+ "0", (0, p))) (_pars m) ++
     map (fun p => (p +:+ "1", (1, p))) (_pars k) ++ []) in Hinit.
  rewrite app_nil_r, Hk in Hinit. cbn [map] in Hinit.
  change ("C" +:+ "1") with "C1" in Hinit.
  set (named := map (fun p => (p +:+ "0", (0, p))) (_pars m)
                ++ [("C1", (1, "C"))]) in *.
  assert (Hargs : map fst named = map (fun p => p +:+ "0") (_pars m) ++ ["C1"]).
  { subst named. by rewrite map_app, map_map. }
  rewrite Hargs in Hinit. cbn [Composite.rename fst snd] in Hinit.
  rewrite index_of_suffixed in Hinit.
  destruct (bool_decide_reflect
              (pname ∈ map (fun p => p +:+ "0") (_pars m) ++ ["C1"]))
    as [|Hfresh]; [discriminate|].
  subst named. rewrite fold_insert_last in Hinit. cbn [rbind fst snd] in Hinit.
  set (args1 := <[length (_pars m) := pname]>
                  (map (fun p => p +:+ "0") (_pars m) ++ ["C1"])) in *.
  assert (Hlen1 : length args1 = S (length (_pars m))).
  { subst args1. rewrite length_insert, length_app, length_map. cbn. lia. }
  assert (Hat : args1 !! length (_pars m) = Some pname).
  { subst args1. apply list_lookup_insert_eq.
    rewrite length_app, length_map. cbn. lia. }
  match type of Hinit with
  | context [Composite.shorten ?r ?ca ?td ?ar ?am] =>
      destruct (Composite.shorten r ca td ar am) as [[args2 argmap2]|] eqn:Hsh;
        [|discriminate]
  end.
  pose proof (shorten_length _ _ _ _ _ _ _ Hsh) as Hlen2.
  eapply (shorten_keeps _ _ pname (length (_pars m)) (1, "C")) in Hsh
    as [Hat2 Hmap2]; [| by left | done | | done | ].
  2:{ intros i a (j&b&[= -> ->]&Hb)%elem_of_lookup_imap. done. }
  2:{ rewrite lookup_delete_ne, lookup_insert_eq; [done|].
      intros <-. apply Hfresh, elem_of_app. right. by left. }
  cbn [rbind fst snd] in Hinit.
  match type of Hinit with
  | context [for_each ?l ?body ?self] =>
      pose proof (for_each_composite_setattr_pars l self) as (H1&H2&H3);
      destruct (for_each l body self) as [[[]|e] c']
  end; [|discriminate].
  cbn in Hinit, H1, H2, H3. injection Hinit as <-.
  rewrite H1, H2, H3. repeat split; [done | done | lia].
Qed.

(** X24: in the composite that [offset_model] returns, [pname] is the last
    parameter, after those of the model, and it stands for the parameter
    [C] of the constant, whatever the names of the model are. *)
Theorem offset_model_parameter (m k : model) (pname : string)
    (kwargs : gmap string pyval) (c : composite) :
  _pars k = ["C"] ->
  offset_model m k pname kwargs = Ok c ->
  c_pars c !! length (_pars m) = Some pname /\
  length (c_pars c) = S (length (_pars m)) /\
  _argmap c !! pname = Some (1, "C").
Proof.
  intros Hk Hc. destruct (init_extra_parameter _ _ _ _ _ _ Hk Hc) as (?&?&?&?).
  done.
Qed.

(** A construction on which X24 applies: a line with an offset [off]. *)
Lemma offset_model_parameter_witness :
  exists c, offset_model Examples.line Examples.constant "off" ∅ = Ok c /\
    c_pars c !! 2 = Some "off" /\ length (c_pars c) = 3 /\
    _argmap c !! "off" = Some (1, "C").
Proof.
  destruct (offset_model Examples.line Examples.constant "off" ∅) as [c|] eqn:E;
    [|by vm_compute in E].
  exists c. split; [done|].
  apply (offset_model_parameter Examples.line Examples.constant "off" ∅ c);
    [reflexivity | exact E].
Defined.

(** X25: in the composite that [scale_model] returns when no value is given
    for [pname], the parameter [pname] reads 1, whatever the default of the
    constant is. *)
Theorem scale_model_unit (m k : model) (pname : string)
    (kwargs : gmap string pyval) (c : composite) :
  _pars k = ["C"] -> kwargs !! pname = None ->
  scale_model m k pname kwargs = Ok c ->
  (Composite.getattr pname c).1 = Ok (VNum 1).
Proof.
  intros Hk Hkw. unfold scale_model.
  destruct (Composite.init _ _ _ _ _) as [c0|] eqn:Hinit; [|discriminate].
  cbn [rbind]. rewrite bool_decide_eq_false_2 by (rewrite Hkw; by intros [? ?]).
  destruct (init_extra_parameter _ _ _ _ _ _ Hk Hinit) as (Hat&Hmap&_&Hlen).
  assert (Hin : pname ∈ c_pars c0) by (by eapply list_elem_of_lookup_2).
  destruct (lookup_lt_is_Some_2 (_models c0) 1 ltac:(lia)) as [k' Hk'].
  destruct (setattr_scalar k' "C" (VNum 1) eq_refl) as (k1&E&_&Hst&_).
  unfold Composite.setattr, bind, get.
  rewrite bool_decide_eq_true_2, Hmap by done.
  unfold on_model. rewrite Hk', E. cbn. intros [= <-].
  unfold Composite.getattr, bind, get. cbn [c_pars _argmap Composite.set_models].
  rewrite bool_decide_eq_true_2, Hmap by done.
  unfold on_model. cbn [_models Composite.set_models].
  rewrite list_lookup_insert_eq by (by eapply lookup_lt_Some).
  pose proof (getattr_result k1 "C") as Hg. rewrite Hst in Hg.
  by destruct (FunctionModel.getattr "C" k1) as [r k2].
Qed.

(** A construction on which X25 applies: a line with a scale [A]; the
    constant has the default 0. *)
Lemma scale_model_unit_witness :
  exists c, scale_model Examples.line Examples.constant "A" ∅ = Ok c /\
    (Composite.getattr "A" c).1 = Ok (VNum 1).
Proof.
  destruct (scale_model Examples.line Examples.constant "A" ∅) as [c|] eqn:E;
    [|by vm_compute in E].
  exists c. split; [done|].
  apply (scale_model_unit Examples.line Examples.constant "A" ∅ c);
    [reflexivity | reflexivity | exact E].
Defined.

End GeneratorFacts.
